(** * Room coordination core of the collaborative drawing server

    Shallow embedding of [backend/server.js]: the [rooms] table, the
    Socket.IO room membership that the handlers read and write through
    [socket.rooms], [socket.join], [socket.leave], and the seven event
    handlers, each as a function from the server state to the new state and
    the list of emitted messages.

    Modelling conventions.
    - [rooms] is a plain JS object used as a map from drawing ids to room
      records.  Its own keys are a [gmap string room].  A lookup
      [rooms[drawingId]] that finds no own key goes on to
      [Object.prototype]: it finds one of the twelve properties of that
      object (eleven functions and the accessor [__proto__], which gives
      [Object.prototype] itself), or a [strokes] property once
      [clear-canvas] has written one there; see [room_slot].  All these
      values are objects, hence truthy, and none has a [users] property.
      The [strokes] arrays that the handlers write on these built-in
      objects are the [builtins] field of the state.
    - A handler that throws is not caught by anything in the file, so Node
      ends the process: the state records it in [crashed] and no event is
      handled afterwards.
    - Socket.IO: every socket is in the room named by its own id, which is
      new at connection; [socket.rooms] is a set kept in insertion order;
      [io.to(r).emit] reaches every socket in room [r];
      [socket.to(r).emit] reaches the sockets in [r] that are not in the
      room named by the sender's id (the broadcast excludes that room, not
      the one socket); [socket.emit] reaches the socket itself; a socket
      has left all its rooms when its [disconnect] handler runs.  The
      library is taken to behave so also after a property was written on a
      built-in object.
    - Event payloads are well-formed: [drawingId] is a string, [stroke] is
      an object.  [Date.now()] is an input of the stroke event.
    - [console.log] calls are not modelled.
    - The routes [/drawings] and [/health] are functions of what the file
      system answers and of the [rooms] table.  File names are strings of
      bytes; the patterns of the route are ASCII.
    - The local history of the client ([frontend/src/App.tsx]) is the
      React state [history], [historyStep], [isDrawing] and the pixels of
      the canvas; every handler runs on the state of the last render, and
      the effect of [drawLine] on the pixels is a parameter. *)

From stdpp Require Import base gmap strings list fin_maps.
From Stdlib Require Import ZArith Ascii.

Local Open Scope string_scope.
Local Open Scope list_scope.

(** ** Data model *)

(** Primitive values carried by client payloads. *)
Inductive jsval :=
  | JUndefined
  | JNull
  | JBool (b : bool)
  | JNum (n : Z)
  | JStr (s : string).

(** A stroke is an object: its own enumerable properties. *)
Abbreviation jsobj := (gmap string jsval).

(** [{ id, username, color }] *)
Record user := User { id : string; username : string; color : string }.

(** [{ users: [...], strokes: [...] }] *)
Record room := Room { users : list user; strokes : list jsobj }.

(** The server state: the own keys of the [rooms] table; for every
    connected socket, its [socket.rooms] in insertion order; the [strokes]
    arrays written on built-in objects, under the name through which
    [rooms] reaches the object that owns the property; and whether an
    uncaught exception has ended the process. *)
Record server := Server {
  rooms : gmap string room;
  sockets : gmap string (list string);
  builtins : gmap string (list jsobj);
  crashed : bool
}.

Definition initial : server := Server ∅ ∅ ∅ false.

Definition set_rooms (f : gmap string room → gmap string room) (st : server) : server :=
  Server (f (rooms st)) (sockets st) (builtins st) (crashed st).

Definition set_sockets (f : gmap string (list string) → gmap string (list string))
    (st : server) : server :=
  Server (rooms st) (f (sockets st)) (builtins st) (crashed st).

Definition set_builtins (f : gmap string (list jsobj) → gmap string (list jsobj))
    (st : server) : server :=
  Server (rooms st) (sockets st) (f (builtins st)) (crashed st).

(** An uncaught exception. *)
Definition crash (st : server) : server :=
  Server (rooms st) (sockets st) (builtins st) true.

(** The member list of a session; an absent session has none. *)
Definition members (st : server) (drawingId : string) : list user :=
  match rooms st !! drawingId with
  | Some r => users r
  | None => []
  end.

(** ** Lookups in the [rooms] object *)

(** The own property names of [Object.prototype]. *)
Definition prototype_names : list string :=
  ["constructor"; "__defineGetter__"; "__defineSetter__"; "hasOwnProperty";
   "__lookupGetter__"; "__lookupSetter__"; "isPrototypeOf"; "propertyIsEnumerable";
   "toString"; "valueOf"; "__proto__"; "toLocaleString"].

Definition inherited (drawingId : string) : bool :=
  bool_decide (drawingId ∈ prototype_names).

(** What [rooms[drawingId]] evaluates to: a room record, a built-in object
    found through the prototype, or [undefined]. *)
Inductive slot :=
  | Session (r : room)
  | Builtin
  | Undefined.

Definition room_slot (st : server) (drawingId : string) : slot :=
  match rooms st !! drawingId with
  | Some r => Session r
  | None =>
    if inherited drawingId then Builtin
    else match builtins st !! "__proto__" with
         | Some _ => if decide (drawingId = "strokes") then Builtin else Undefined
         | None => Undefined
         end
  end.

(** [rooms[drawingId].strokes] when [rooms[drawingId]] is a built-in
    object: the array, with the name of the object that owns the property,
    which is the object itself or else [Object.prototype]; [None] stands
    for [undefined]. *)
Definition builtin_strokes (st : server) (drawingId : string)
    : option (string * list jsobj) :=
  match builtins st !! drawingId with
  | Some a => Some (drawingId, a)
  | None => (λ a, ("__proto__", a)) <$> builtins st !! "__proto__"
  end.

(** [rooms[drawingId].strokes = []] on a built-in object: the object gets
    an own property.  When the object is [Object.prototype], the array
    that [rooms.strokes] gave before is replaced, and with it the property
    written on that array. *)
Definition builtin_clear (drawingId : string) (b : gmap string (list jsobj))
    : gmap string (list jsobj) :=
  <[drawingId := []]> (if decide (drawingId = "__proto__") then delete "strokes" b else b).

(** ** Messages and their delivery *)

Inductive message :=
  | room_state (us : list user) (ss : list jsobj)
  | user_joined (u : user)
  | stroke_drawn (s : jsobj)
  | cursor_moved (userId uname ucolor : string) (x y : jsval)
  | stroke_undone (userId : string) (strokeIndex : nat)
  | canvas_cleared
  | user_left (userId uname : string).

(** [socket.emit], [socket.to(room).emit], [io.to(room).emit] *)
Inductive target :=
  | ToSocket (sid : string)
  | ToRoomExcept (room sid : string)
  | ToRoom (room : string).

(** The sockets that are in a Socket.IO room. *)
Definition room_sockets (socks : gmap string (list string)) (r : string) : gset string :=
  dom (filter (λ kv, r ∈ kv.2) socks).

(** [socket.to(r)] excludes the room named by the sender's id. *)
Definition recipients (socks : gmap string (list string)) (t : target) : gset string :=
  match t with
  | ToSocket sid => {[ sid ]}
  | ToRoomExcept r sid => room_sockets socks r ∖ room_sockets socks sid
  | ToRoom r => room_sockets socks r
  end.

(** One call of [emit]: where it was sent, what, and who received it (the
    receivers are fixed by the room membership at the time of the call). *)
Record emission := Emission {
  em_target : target;
  em_message : message;
  em_to : gset string
}.

Definition emit (st : server) (t : target) (m : message) : emission :=
  Emission t m (recipients (sockets st) t).

(** ** Socket.IO room operations *)

(** [socket.join(room)]: a set insertion. *)
Definition socket_join (r sid : string) (st : server) : server :=
  set_sockets (alter (λ l, if decide (r ∈ l) then l else l ++ [r]) sid) st.

(** [socket.leave(room)]: a set deletion. *)
Definition socket_leave (r sid : string) (st : server) : server :=
  set_sockets (alter (filter (λ x, x ≠ r)) sid) st.

(** [Array.from(socket.rooms).find(room => room !== socket.id)] *)
Definition previousRoom (sid : string) (st : server) : option string :=
  l ← sockets st !! sid; snd <$> list_find (λ x, x ≠ sid) l.

(** ** Handlers *)

(** [array.splice(i, 1)] for an index inside the array. *)
Definition splice1 {A} (i : nat) (l : list A) : list A :=
  take i l ++ drop (S i) l.

(** On a built-in object [users] is [undefined] and [findIndex] throws. *)
Definition removeUserFromRoom (drawingId userId : string) (st : server)
    : server * list emission :=
  match room_slot st drawingId with
  | Undefined => (st, [])
  | Builtin => (crash st, [])
  | Session r =>
    match list_find (λ u, id u = userId) (users r) with
    | None => (st, [])
    | Some (userIndex, u) =>
      let users' := splice1 userIndex (users r) in
      let out := [emit st (ToRoom drawingId) (user_left userId (username u))] in
      if decide (length users' = 0)
      then (set_rooms (delete drawingId) st, out)
      else (set_rooms (insert drawingId (Room users' (strokes r))) st, out)
    end
  end.

Definition colors : list string :=
  ["#FF6B6B"; "#4ECDC4"; "#45B7D1"; "#FFA07A"; "#98D8C8"; "#F7DC6F"; "#BB8FCE"; "#85C1E2"].

(** [colors[n % colors.length]]; the index is always inside the array. *)
Definition userColor (n : nat) : string := nth (n mod length colors) colors "".

(** [username || `User${socket.id.substring(0, 4)}`]: an absent or empty
    name is falsy. *)
Definition displayName (uname : option string) (sid : string) : string :=
  match uname with
  | Some (String c s) => String c s
  | _ => "User" +:+ String.substring 0 4 sid
  end.

(** [if (!rooms[drawingId]) rooms[drawingId] = { users: [], strokes: [] }]:
    only [undefined] is falsy here. *)
Definition init_room (drawingId : string) (st : server) : server :=
  match room_slot st drawingId with
  | Undefined => set_rooms (insert drawingId (Room [] [])) st
  | Session _ | Builtin => st
  end.

(** The part of [join-drawing] before [socket.join]:
    [if (previousRoom) { socket.leave(...); removeUserFromRoom(...) }].
    The empty string is falsy, so the room [''] is never left. *)
Definition leave_previous (sid : string) (st : server) : server * list emission :=
  match previousRoom sid st with
  | Some prev =>
    if decide (prev = "") then (st, [])
    else removeUserFromRoom prev sid (socket_leave prev sid st)
  | None => (st, [])
  end.

(** The part of [join-drawing] from [socket.join] on.  When
    [rooms[drawingId]] is a built-in object, its [users] is [undefined]
    and reading [.length] throws; after [init_room] the lookup is never
    [undefined]. *)
Definition enter_room (sid drawingId : string) (uname : option string) (st : server)
    : server * list emission :=
  let st := init_room drawingId (socket_join drawingId sid st) in
  match room_slot st drawingId with
  | Session r =>
    let u := User sid (displayName uname sid) (userColor (length (users r))) in
    let r' := Room (users r ++ [u]) (strokes r) in
    let st' := set_rooms (insert drawingId r') st in
    (st', [emit st' (ToSocket sid) (room_state (users r') (strokes r'));
           emit st' (ToRoomExcept drawingId sid) (user_joined u)])
  | Builtin | Undefined => (crash st, [])
  end.

(** An exception thrown by [removeUserFromRoom] ends the handler. *)
Definition join_drawing (sid drawingId : string) (uname : option string) (st : server)
    : server * list emission :=
  let '(st1, out1) := leave_previous sid st in
  if crashed st1 then (st1, out1)
  else
    let '(st2, out2) := enter_room sid drawingId uname st1 in
    (st2, out1 ++ out2).

(** [{ ...stroke, userId: socket.id }] *)
Definition stamp_author (sid : string) (stroke : jsobj) : jsobj :=
  <["userId" := JStr sid]> stroke.

(** [{ ...stroke, userId: socket.id, timestamp: Date.now() }] *)
Definition log_entry (sid : string) (now : Z) (stroke : jsobj) : jsobj :=
  <["timestamp" := JNum now]> (stamp_author sid stroke).

(** On a built-in object without a [strokes] property [push] throws;
    with one, the entry goes to that array. *)
Definition draw_stroke (sid drawingId : string) (stroke : jsobj) (now : Z) (st : server)
    : server * list emission :=
  match room_slot st drawingId with
  | Undefined => (st, [])
  | Session r =>
    let st' := set_rooms
      (insert drawingId (Room (users r) (strokes r ++ [log_entry sid now stroke]))) st in
    (st', [emit st' (ToRoomExcept drawingId sid) (stroke_drawn (stamp_author sid stroke))])
  | Builtin =>
    match builtin_strokes st drawingId with
    | None => (crash st, [])
    | Some (owner, a) =>
      let st' := set_builtins (insert owner (a ++ [log_entry sid now stroke])) st in
      (st', [emit st' (ToRoomExcept drawingId sid) (stroke_drawn (stamp_author sid stroke))])
    end
  end.

(** On a built-in object [users] is [undefined] and [find] throws. *)
Definition cursor_move (sid drawingId : string) (x y : jsval) (st : server)
    : server * list emission :=
  match room_slot st drawingId with
  | Undefined => (st, [])
  | Builtin => (crash st, [])
  | Session r =>
    match list_find (λ u, id u = sid) (users r) with
    | None => (st, [])
    | Some (_, u) =>
      (st, [emit st (ToRoomExcept drawingId sid)
              (cursor_moved sid (username u) (color u) x y)])
    end
  end.

(** [stroke.userId === socket.id] *)
Definition is_by (sid : string) (stroke : jsobj) : bool :=
  match stroke !! "userId" with
  | Some (JStr a) => bool_decide (a = sid)
  | _ => false
  end.

(** [strokes.map((stroke, index) => ({ stroke, index })).filter(...)] *)
Definition userStrokes (sid : string) (l : list jsobj) : list (nat * jsobj) :=
  filter (λ p, is_by sid p.2 = true) (imap (λ index stroke, (index, stroke)) l).

(** On a built-in object without a [strokes] property [map] throws. *)
Definition undo_stroke (sid drawingId : string) (st : server) : server * list emission :=
  match room_slot st drawingId with
  | Undefined => (st, [])
  | Session r =>
    match last (userStrokes sid (strokes r)) with
    | None => (st, [])
    | Some (index, _) =>
      let st' := set_rooms
        (insert drawingId (Room (users r) (splice1 index (strokes r)))) st in
      (st', [emit st' (ToRoom drawingId) (stroke_undone sid index)])
    end
  | Builtin =>
    match builtin_strokes st drawingId with
    | None => (crash st, [])
    | Some (owner, a) =>
      match last (userStrokes sid a) with
      | None => (st, [])
      | Some (index, _) =>
        let st' := set_builtins (insert owner (splice1 index a)) st in
        (st', [emit st' (ToRoom drawingId) (stroke_undone sid index)])
      end
    end
  end.

(** On a built-in object the assignment makes an own [strokes]
    property. *)
Definition clear_canvas (sid drawingId : string) (st : server) : server * list emission :=
  match room_slot st drawingId with
  | Undefined => (st, [])
  | Session r =>
    let st' := set_rooms (insert drawingId (Room (users r) [])) st in
    (st', [emit st' (ToRoom drawingId) canvas_cleared])
  | Builtin =>
    let st' := set_builtins (builtin_clear drawingId) st in
    (st', [emit st' (ToRoom drawingId) canvas_cleared])
  end.

(** One round of [Object.keys(rooms).forEach(...)]. *)
Definition remove_from (sid : string) (acc : server * list emission) (drawingId : string)
    : server * list emission :=
  let '(st', out') := removeUserFromRoom drawingId sid acc.1 in (st', acc.2 ++ out').

(** The socket has left every Socket.IO room when the handler runs.  The
    keys are the own keys of [rooms], so no removal throws.  They are
    visited in the map's order; JS visits them in insertion order, which
    changes the order of the [user-left] messages of different rooms and
    nothing else. *)
Definition disconnect (sid : string) (st : server) : server * list emission :=
  foldl (remove_from sid) (set_sockets (delete sid) st, [])
        (map_to_list (rooms st)).*1.

(** A new connection: the socket is in the room of its own id. *)
Definition connect (sid : string) (st : server) : server :=
  set_sockets (insert sid [sid]) st.

(** ** The server as a transition system *)

Inductive event :=
  | Connect (sid : string)
  | Join (sid drawingId : string) (uname : option string)
  | Stroke (sid drawingId : string) (stroke : jsobj) (now : Z)
  | Cursor (sid drawingId : string) (x y : jsval)
  | Undo (sid drawingId : string)
  | Clear (sid drawingId : string)
  | Disconnect (sid : string).

Definition handle (ev : event) (st : server) : server * list emission :=
  match ev with
  | Connect sid => (connect sid st, [])
  | Join sid d uname => join_drawing sid d uname st
  | Stroke sid d stroke now => draw_stroke sid d stroke now st
  | Cursor sid d x y => cursor_move sid d x y st
  | Undo sid d => undo_stroke sid d st
  | Clear sid d => clear_canvas sid d st
  | Disconnect sid => disconnect sid st
  end.

(** A connection is listed in a session when the session's [users] array
    has an entry with its id. *)
Definition listed (st : server) (sid drawingId : string) : Prop :=
  ∃ r u, rooms st !! drawingId = Some r ∧ u ∈ users r ∧ id u = sid.

(** The id of a new connection is new: no socket has it and no member
    list holds it. *)
Definition fresh_id (st : server) (sid : string) : Prop :=
  sockets st !! sid = None ∧ ∀ d, ¬ listed st sid d.

(** Events are handled while the process runs.  Socket ids are fresh at
    connection; every other event comes from a connected socket. *)
Definition enabled (ev : event) (st : server) : Prop :=
  crashed st = false ∧
  match ev with
  | Connect sid => fresh_id st sid
  | Join sid _ _ | Stroke sid _ _ _ | Cursor sid _ _ _
  | Undo sid _ | Clear sid _ | Disconnect sid => is_Some (sockets st !! sid)
  end.

Inductive reachable : server → Prop :=
  | reachable_initial : reachable initial
  | reachable_step st ev :
      reachable st → enabled ev st → reachable (handle ev st).1.

(** ** Notions used in the statements *)

(** The operation log of a session; an absent session has none. *)
Definition oplog (st : server) (drawingId : string) : list jsobj :=
  match rooms st !! drawingId with
  | Some r => strokes r
  | None => []
  end.

(** A name that no lookup in [rooms] ever resolves through the
    prototype. *)
Definition plain (drawingId : string) : Prop :=
  inherited drawingId = false ∧ drawingId ≠ "strokes".

(** The room table after a user entry was spliced out, leaving [us]. *)
Definition after_removal (drawingId : string) (us : list user) (ss : list jsobj)
    (st : server) : server :=
  if decide (length us = 0)
  then set_rooms (delete drawingId) st
  else set_rooms (insert drawingId (Room us ss)) st.

(** [socket.rooms] starts with the socket's own id.  It holds at most one
    more room, unless that room is [''], which no join leaves: then more
    rooms follow. *)
Definition rooms_shape (st : server) : Prop :=
  ∀ s l, sockets st !! s = Some l →
    l = [s] ∨ (∃ p, p ≠ s ∧ p ≠ "" ∧ l = [s; p]) ∨ (∃ k, s ≠ "" ∧ l = s :: "" :: k).

(** A connected socket that is listed in a session is in the Socket.IO
    room of that session. *)
Definition listed_joined (st : server) : Prop :=
  ∀ X d l, listed st X d → sockets st !! X = Some l → d ∈ l.

(** The number of entries of a connection in a member list. *)
Definition entries (X : string) (us : list user) : nat :=
  length (filter (λ u, id u = X) us).

(** A socket whose next join leaves the room [p] is listed at most once in
    the session [p]. *)
Definition listed_once (st : server) : Prop :=
  ∀ X p r, sockets st !! X = Some [X; p] → p ≠ X → p ≠ "" →
    rooms st !! p = Some r → (entries X (users r) ≤ 1)%nat.

(** No session of the table has an empty member list. *)
Definition no_empty_room (st : server) : Prop :=
  ∀ d r, rooms st !! d = Some r → users r ≠ [].

Record inv (st : server) : Prop := Inv {
  inv_shape : rooms_shape st;
  inv_joined : listed_joined st;
  inv_once : listed_once st;
  inv_nonempty : no_empty_room st
}.

(** While the process runs, a socket that is in a Socket.IO room other
    than its own is listed in the session of that name. *)
Definition joined_listed (st : server) : Prop :=
  crashed st = false →
  ∀ X d l, sockets st !! X = Some l → d ∈ l → d ≠ X → listed st X d.

(** The room record after the second part of a join. *)
Definition joined_room (sid drawingId : string) (uname : option string) (st : server) : room :=
  let r := default (Room [] []) (rooms st !! drawingId) in
  Room (users r ++ [User sid (displayName uname sid) (userColor (length (users r)))])
       (strokes r).

(** What a removal does to the entry of the session it is applied to. *)
Definition room_after_removal (userId : string) (o : option room) : option room :=
  r ← o;
  match list_find (λ u, id u = userId) (users r) with
  | None => Some r
  | Some (userIndex, _) =>
    if decide (length (splice1 userIndex (users r)) = 0)
    then None
    else Some (Room (splice1 userIndex (users r)) (strokes r))
  end.

(** Sequential joins of one session. *)
Definition join_all (drawingId : string) (js : list (string * option string))
    (st : server) : server :=
  foldl (λ acc j, (join_drawing j.1 drawingId j.2 acc).1) st js.

(** The state after a connection [A] joined the session [S] alone and drew
    one stroke. *)
Definition solo_state : server :=
  (handle (Stroke "A" "S" ∅ 0)
     (handle (Join "A" "S" None) (handle (Connect "A") initial).1).1).1.

(** The state after a list of events, handled in order. *)
Definition run (evs : list event) (st : server) : server :=
  foldl (λ acc ev, (handle ev acc).1) st evs.

(** Every event of the list is enabled in the state it is handled in. *)
Fixpoint admissible (evs : list event) (st : server) : Prop :=
  match evs with
  | [] => True
  | ev :: evs => enabled ev st ∧ admissible evs (handle ev st).1
  end.

(** Two connections in one session, with the log [A1, B1, A2]; the last
    payload carries a [userId] of its own. *)
Definition duo_events : list event :=
  [Connect "A"; Connect "B"; Join "A" "S" None; Join "B" "S" (Some "bob");
   Stroke "A" "S" {[ "k" := JNum 1 ]} 5; Stroke "B" "S" ∅ 6;
   Stroke "A" "S" {[ "userId" := JStr "B" ]} 7].

Definition duo_state : server := run duo_events initial.

Definition duo_room : room :=
  Room [User "A" "UserA" "#FF6B6B"; User "B" "bob" "#4ECDC4"]
       [log_entry "A" 5 {[ "k" := JNum 1 ]}; log_entry "B" 6 ∅;
        log_entry "A" 7 {[ "userId" := JStr "B" ]}].

(** Nine connections that join one session in turn. *)
Definition nine : list (string * option string) :=
  [("c0", None); ("c1", None); ("c2", None); ("c3", None); ("c4", None);
   ("c5", None); ("c6", None); ("c7", None); ("c8", Some "ninth")].

Definition nine_connected : server :=
  run (map (λ j, Connect j.1) nine) initial.

(** A connection [Y] joins the session named by the id of the connection
    [X], and then [X] joins it too. *)
Definition named_by_id_events : list event :=
  [Connect "X"; Connect "Y"; Join "Y" "X" None; Join "X" "X" None].

Definition named_by_id_state : server := run named_by_id_events initial.

(** One connected socket and nothing else. *)
Definition lone_state : server := connect "A" initial.

(** A connection [A] in the session [''] and a connection [B]. *)
Definition empty_name_events : list event :=
  [Connect "A"; Connect "B"; Join "A" "" None].

Definition empty_name_state : server := run empty_name_events initial.

(** ** More of the server *)

(** [Object.keys(rooms).length], the [rooms] field of the [/health]
    answer. *)
Definition health (st : server) : nat := size (rooms st).

(** [n] undo events of one connection in one session. *)
Definition undo_n (n : nat) (sid drawingId : string) (st : server) : server :=
  Nat.iter n (λ acc, (undo_stroke sid drawingId acc).1) st.

(** Stroke events (sender, payload, time) of one session, handled in
    order. *)
Definition draw_all (drawingId : string) (ss : list (string * jsobj * Z))
    (st : server) : server :=
  foldl (λ acc s, (draw_stroke s.1.1 drawingId s.1.2 s.2 acc).1) st ss.

(** A connection that joins the session named by its own id twice and
    disconnects. *)
Definition own_room_events (sid : string) (n1 n2 : option string) : list event :=
  [Connect sid; Join sid sid n1; Join sid sid n2; Disconnect sid].

(** ** The drawings catalog route *)

Module Catalog.

(** [s.endsWith(suffix)] *)
Fixpoint endsWith (s suffix : string) {struct s} : bool :=
  String.eqb s suffix ||
  match s with
  | EmptyString => false
  | String _ s' => endsWith s' suffix
  end.

(** The string without its first [n] characters. *)
Fixpoint string_drop (n : nat) (s : string) : string :=
  match n, s with
  | S n', String _ s' => string_drop n' s'
  | _, _ => s
  end.

(** [s.replace(pattern, replacement)] for a string pattern and a
    replacement without [$]: the first occurrence is replaced. *)
Fixpoint replace (s pattern replacement : string) {struct s} : string :=
  if String.prefix pattern s
  then replacement +:+ string_drop (String.length pattern) s
  else match s with
       | EmptyString => EmptyString
       | String c s' => String c (replace s' pattern replacement)
       end.

(** [s.replace(/-/g, ' ')] *)
Fixpoint spaced (s : string) : string :=
  match s with
  | EmptyString => EmptyString
  | String c s' => String (if Ascii.eqb c "-" then " "%char else c) (spaced s')
  end.

(** [{ id, name, url }] *)
Record drawing := Drawing { id : string; name : string; url : string }.

Definition entry (file : string) : drawing :=
  Drawing (replace file ".svg" "")
          (spaced (replace file ".svg" ""))
          ("/drawings/" +:+ file).

(** What the file system answers: the directory does not exist, reading it
    throws, or its file names. *)
Inductive directory :=
  | Missing
  | Unreadable
  | Files (files : list string).

Inductive response :=
  | Ok (drawings : list drawing)
  | Status500 (error : string).

(** The handler of [GET /drawings]. *)
Definition drawings (dir : directory) : response :=
  match dir with
  | Missing => Ok []
  | Unreadable => Status500 "Failed to load drawings"
  | Files files => Ok (entry <$> filter (λ file, endsWith file ".svg" = true) files)
  end.

(** The pattern does not start at any of the first [n] positions of
    [s]. *)
Fixpoint absent_before (n : nat) (pattern s : string) : Prop :=
  match n with
  | 0 => True
  | S n' =>
    String.prefix pattern s = false ∧
    match s with
    | EmptyString => True
    | String _ s' => absent_before n' pattern s'
    end
  end.

End Catalog.

(** ** The local history of the client *)

Module App.

(** [array.slice(0, end)] *)
Definition slice0 {A} (l : list A) (e : Z) : list A :=
  if decide (e < 0)%Z
  then take (Z.to_nat (Z.max 0 (Z.of_nat (length l) + e))) l
  else take (Z.to_nat e) l.

(** [array[i]]; [None] stands for [undefined]. *)
Definition at_index {A} (l : list A) (i : Z) : option A :=
  if decide (0 ≤ i)%Z then l !! Z.to_nat i else None.

(** The state of the component that the history handlers use.  [canvas]
    is the pixel content of the canvas, [None] when [canvasRef] holds no
    canvas (a canvas is taken to give its 2d context). *)
Record state {ImageData : Type} := State {
  history : list ImageData;
  historyStep : Z;
  isDrawing : bool;
  canvas : option ImageData
}.
Arguments state : clear implicits.

(** A handler returns, or [putImageData] throws on [undefined]. *)
Inductive outcome {ImageData : Type} :=
  | Done (st : state ImageData)
  | TypeError.
Arguments outcome : clear implicits.

Definition saveToHistory {I} (st : state I) : state I :=
  match canvas st with
  | None => st
  | Some imageData =>
    let newHistory := slice0 (history st) (historyStep st + 1) ++ [imageData] in
    State I newHistory (Z.of_nat (length newHistory) - 1) (isDrawing st) (canvas st)
  end.

Definition undo {I} (st : state I) : outcome I :=
  if decide (historyStep st > 0)%Z then
    match canvas st with
    | None => Done st
    | Some _ =>
      let newStep := (historyStep st - 1)%Z in
      match at_index (history st) newStep with
      | None => TypeError
      | Some img => Done (State I (history st) newStep (isDrawing st) (Some img))
      end
    end
  else Done st.

Definition redo {I} (st : state I) : outcome I :=
  if decide (historyStep st < Z.of_nat (length (history st)) - 1)%Z then
    match canvas st with
    | None => Done st
    | Some _ =>
      let newStep := (historyStep st + 1)%Z in
      match at_index (history st) newStep with
      | None => TypeError
      | Some img => Done (State I (history st) newStep (isDrawing st) (Some img))
      end
    end
  else Done st.

Definition startDrawing {I} (st : state I) : state I :=
  match canvas st with
  | None => st
  | Some _ => State I (history st) (historyStep st) true (canvas st)
  end.

(** [drawLine]: [paint] is what the line does to the pixels. *)
Definition drawLine {I} (paint : I → I) (st : state I) : state I :=
  State I (history st) (historyStep st) (isDrawing st) (paint <$> canvas st).

(** [draw], the mouse-move handler. *)
Definition draw {I} (paint : I → I) (st : state I) : state I :=
  if isDrawing st then drawLine paint st else st.

Definition stopDrawing {I} (st : state I) : state I :=
  if isDrawing st
  then saveToHistory (State I (history st) (historyStep st) false (canvas st))
  else st.

(** The state after the mount effect on a canvas filled with [white]. *)
Definition mounted {I} (white : I) : state I :=
  saveToHistory (State I [] (-1) false (Some white)).

(** The mouse and button handlers, and the handler of a ['draw'] message
    of the socket, which draws the received line. *)
Inductive action {I : Type} :=
  | StartDrawing
  | Draw (paint : I → I)
  | StopDrawing
  | Undo
  | Redo
  | RemoteDraw (paint : I → I).
Arguments action : clear implicits.

Definition step {I} (a : action I) (st : state I) : outcome I :=
  match a with
  | StartDrawing => Done (startDrawing st)
  | Draw paint => Done (draw paint st)
  | StopDrawing => Done (stopDrawing st)
  | Undo => undo st
  | Redo => redo st
  | RemoteDraw paint => Done (drawLine paint st)
  end.

(** The states the component goes through after the mount. *)
Inductive visited {I} (white : I) : state I → Prop :=
  | visited_mounted : visited white (mounted white)
  | visited_step st a st' :
      visited white st → step a st = Done st' → visited white st'.

(** The step points into the history and there is a canvas. *)
Definition history_ok {I} (st : state I) : Prop :=
  is_Some (canvas st) ∧
  (0 ≤ historyStep st < Z.of_nat (length (history st)))%Z.

End App.

(** ** Further notions of the server *)

(** Every listed member has a name and a palette color. *)
Definition members_built (st : server) : Prop :=
  ∀ d u, u ∈ members st d → username u ≠ "" ∧ color u ∈ colors.

(** A [user-left] message of a disconnecting [X]. *)
Definition left_message (st : server) (X : string) (e : emission) : Prop :=
  ∃ d u,
    rooms st !! d ≠ None ∧ u ∈ members st d ∧ id u = X ∧
    e = Emission (ToRoom d) (user_left X (username u))
                 (room_sockets (delete X (sockets st)) d).

(** The room that the next join of the socket leaves: the first room of
    [socket.rooms] other than the socket's own id, when that is not the
    empty string. *)
Definition left_room (sid : string) (st : server) : option string :=
  p ← previousRoom sid st; if decide (p = "") then None else Some p.

(** The state after the second part of a join that does not throw. *)
Definition entered (sid drawingId : string) (uname : option string) (st : server) : server :=
  Server (<[drawingId := joined_room sid drawingId uname st]> (rooms st))
         (alter (λ l, if decide (drawingId ∈ l) then l else l ++ [drawingId]) sid (sockets st))
         (builtins st) (crashed st).

(** ** States of the client used in the examples *)

(** One stroke on the mounted canvas: pixels are numbers here. *)
Definition one_stroke : App.state nat :=
  App.stopDrawing (App.draw S (App.startDrawing (App.mounted 0))).

(** An undo after the stroke, then a second stroke in progress. *)
Definition second_stroke : App.state nat :=
  App.draw (Nat.add 5)
    (App.startDrawing (App.State nat (App.history one_stroke) 0 false (Some 0))).

(** ** Basic facts *)

Lemma elem_of_room_sockets socks r sid :
  sid ∈ room_sockets socks r ↔ ∃ l, socks !! sid = Some l ∧ r ∈ l.
Proof.
  unfold room_sockets. rewrite elem_of_dom. split.
  - intros [l Hl]. apply map_lookup_filter_Some in Hl as [Hl Hr]. eauto.
  - intros (l & Hl & Hr). exists l. by apply map_lookup_filter_Some.
Qed.

Lemma splice1_middle {A} (l1 l2 : list A) (x : A) :
  splice1 (length l1) (l1 ++ x :: l2) = l1 ++ l2.
Proof.
  unfold splice1. rewrite take_app_length.
  replace (S (length l1)) with (length l1 + 1) by lia.
  by rewrite drop_app_add.
Qed.

Lemma splice1_length {A} (i : nat) (l : list A) :
  i < length l → S (length (splice1 i l)) = length l.
Proof.
  intros Hi. unfold splice1. rewrite length_app, length_take, length_drop. lia.
Qed.

Section undo_scan.
Variable sid : string.

Let own (s : jsobj) : Prop := is_by sid s = true.
Let foreign (s : jsobj) : Prop := is_by sid s = false.

Lemma scan_foreign (f : nat → jsobj → nat * jsobj) (l : list jsobj) :
  (∀ i s, (f i s).2 = s) →
  Forall foreign l →
  filter (λ p : nat * jsobj, is_by sid p.2 = true) (imap f l) = [].
Proof.
  intros Hf Hl. revert f Hf. induction Hl as [|s l Hs _ IH]; intros f Hf; [done|].
  rewrite imap_cons, filter_cons_False
    by (rewrite Hf; unfold foreign in Hs; congruence).
  apply IH. intros i s'. apply Hf.
Qed.

Lemma userStrokes_foreign (l : list jsobj) :
  Forall foreign l → userStrokes sid l = [].
Proof. by apply scan_foreign. Qed.

Lemma userStrokes_last (l1 l2 : list jsobj) (s : jsobj) :
  own s → Forall foreign l2 →
  last (userStrokes sid (l1 ++ s :: l2)) = Some (length l1, s).
Proof.
  intros Hs Hl2. unfold userStrokes.
  rewrite imap_app, filter_app, imap_cons.
  rewrite filter_cons_True by done.
  rewrite (scan_foreign _ l2); [|intros; reflexivity|exact Hl2].
  rewrite last_snoc. do 2 f_equal. lia.
Qed.

(** A log with a stroke of the caller splits at the last one. *)
Lemma split_at_last_own (l : list jsobj) :
  Exists own l →
  ∃ l1 s l2, l = l1 ++ s :: l2 ∧ own s ∧ Forall foreign l2.
Proof.
  induction l as [|x l IH] using rev_ind; intros Hex.
  - by apply Exists_nil in Hex.
  - destruct (is_by sid x) eqn:Hx.
    + exists l, x, []. by repeat split.
    + apply Exists_app in Hex as [Hex|Hex].
      * destruct (IH Hex) as (l1 & s & l2 & -> & Hs & Hl2).
        exists l1, s, (l2 ++ [x]). rewrite <-app_assoc. repeat split; [done|].
        apply Forall_app. split; [done|]. by apply Forall_singleton.
      * apply Exists_cons in Hex as [Hex|Hex]; [|by apply Exists_nil in Hex].
        unfold own in Hex. congruence.
Qed.
End undo_scan.

(** ** Lookups in the room table *)

Lemma room_slot_own st d r : rooms st !! d = Some r → room_slot st d = Session r.
Proof. intros Hr. unfold room_slot. by rewrite Hr. Qed.

Lemma room_slot_Session st d r : room_slot st d = Session r → rooms st !! d = Some r.
Proof.
  unfold room_slot. destruct (rooms st !! d) as [r'|]; [by intros [= ->]|].
  destruct (inherited d); [done|].
  destruct (builtins st !! "__proto__"); [|done]. by case_decide.
Qed.

Lemma room_slot_no_session st d :
  room_slot st d = Builtin ∨ room_slot st d = Undefined → rooms st !! d = None.
Proof.
  unfold room_slot. destruct (rooms st !! d) as [r'|]; [|done]. by intros [?|?].
Qed.

(** The lookup depends on the entry of the table and on what was written
    on the built-in objects. *)
Lemma room_slot_ext st st' d :
  rooms st' !! d = rooms st !! d → builtins st' = builtins st →
  room_slot st' d = room_slot st d.
Proof. intros Hr Hb. unfold room_slot. by rewrite Hr, Hb. Qed.

Lemma plain_slot st d :
  plain d →
  room_slot st d = match rooms st !! d with Some r => Session r | None => Undefined end.
Proof.
  intros [Hin Hs]. unfold room_slot. rewrite Hin.
  destruct (rooms st !! d); [done|].
  destruct (builtins st !! "__proto__"); [|done]. by rewrite decide_False.
Qed.

Lemma inherited_slot st d :
  rooms st !! d = None → inherited d = true → room_slot st d = Builtin.
Proof. intros Hr Hin. unfold room_slot. by rewrite Hr, Hin. Qed.

Lemma undo_stroke_found st sid d r l1 s l2 :
  rooms st !! d = Some r →
  strokes r = l1 ++ s :: l2 →
  is_by sid s = true →
  Forall (λ x, is_by sid x = false) l2 →
  undo_stroke sid d st =
    (set_rooms (insert d (Room (users r) (l1 ++ l2))) st,
     [Emission (ToRoom d) (stroke_undone sid (length l1)) (room_sockets (sockets st) d)]).
Proof.
  intros Hr Hl Hs Hl2. unfold undo_stroke. rewrite (room_slot_own _ _ _ Hr), Hl.
  rewrite userStrokes_last by done. by rewrite splice1_middle.
Qed.

Lemma undo_stroke_none st sid d r :
  rooms st !! d = Some r →
  Forall (λ x, is_by sid x = false) (strokes r) →
  undo_stroke sid d st = (st, []).
Proof.
  intros Hr Hl. unfold undo_stroke. rewrite (room_slot_own _ _ _ Hr).
  by rewrite userStrokes_foreign.
Qed.

Lemma is_by_log_entry sid a now stroke :
  is_by a (log_entry sid now stroke) = bool_decide (sid = a).
Proof.
  unfold is_by, log_entry, stamp_author.
  rewrite lookup_insert_ne by done. by rewrite lookup_insert_eq.
Qed.

(** ** Removing a user from a room *)

Lemma list_find_split {A} (P : A → Prop) `{!∀ x, Decision (P x)} (l : list A) i x :
  list_find P l = Some (i, x) →
  ∃ l1 l2, l = l1 ++ x :: l2 ∧ length l1 = i ∧ P x ∧ Forall (λ y, ¬ P y) l1.
Proof.
  intros (Hi & Hx & Hlt)%list_find_Some.
  exists (take i l), (drop (S i) l). split; [by rewrite take_drop_middle|].
  split; [|split; [done|]].
  - rewrite length_take. apply lookup_lt_Some in Hi. lia.
  - apply Forall_lookup. intros j y [Hj Hji]%lookup_take_Some. eauto.
Qed.

Lemma list_find_middle {A} (P : A → Prop) `{!∀ x, Decision (P x)} (l1 l2 : list A) x :
  P x → Forall (λ y, ¬ P y) l1 →
  list_find P (l1 ++ x :: l2) = Some (length l1, x).
Proof.
  intros Hx Hl1. apply list_find_Some. split; [by apply list_lookup_middle|].
  split; [done|]. intros j y Hj Hlt.
  rewrite lookup_app_l in Hj by done.
  by eapply Forall_lookup_1 in Hl1.
Qed.

Lemma removeUserFromRoom_found st d X r l1 u l2 :
  rooms st !! d = Some r →
  users r = l1 ++ u :: l2 →
  id u = X →
  Forall (λ v, id v ≠ X) l1 →
  removeUserFromRoom d X st =
    (after_removal d (l1 ++ l2) (strokes r) st,
     [emit st (ToRoom d) (user_left X (username u))]).
Proof.
  intros Hr Hus Hu Hl1. unfold removeUserFromRoom, after_removal.
  rewrite (room_slot_own _ _ _ Hr), Hus.
  rewrite (list_find_middle (λ v, id v = X)) by done.
  rewrite splice1_middle. by case_decide.
Qed.

(** The three outcomes of a removal: the name resolves to a built-in
    object and the call throws; the connection is not listed and nothing
    happens; or its first entry [u] is spliced out of [l1 ++ u :: l2]. *)
Lemma removeUserFromRoom_cases st d X :
  (room_slot st d = Builtin ∧ removeUserFromRoom d X st = (crash st, [])) ∨
  (room_slot st d ≠ Builtin ∧ ¬ listed st X d ∧ removeUserFromRoom d X st = (st, [])) ∨
  (∃ r l1 u l2,
     rooms st !! d = Some r ∧ users r = l1 ++ u :: l2 ∧ id u = X ∧
     Forall (λ v, id v ≠ X) l1 ∧
     removeUserFromRoom d X st =
       (after_removal d (l1 ++ l2) (strokes r) st,
        [emit st (ToRoom d) (user_left X (username u))])).
Proof.
  destruct (room_slot st d) as [r| |] eqn:Hslot.
  - apply room_slot_Session in Hslot as Hr.
    destruct (list_find (λ v, id v = X) (users r)) as [[i u]|] eqn:Hf.
    + right. right. apply list_find_split in Hf as (l1 & l2 & Hus & _ & Hu & Hl1).
      exists r, l1, u, l2. repeat split; try done.
      by apply removeUserFromRoom_found.
    + right. left. split; [done|]. apply list_find_None in Hf. split.
      * intros (r' & u & Hr' & Hin & Hu). simplify_eq.
        by eapply Forall_forall in Hf.
      * unfold removeUserFromRoom. rewrite Hslot.
        assert (list_find (λ v, id v = X) (users r) = None) as ->
          by by apply list_find_None.
        done.
  - left. split; [done|]. unfold removeUserFromRoom. by rewrite Hslot.
  - right. left. split; [done|]. split.
    + intros (r' & u & Hr' & _).
      rewrite room_slot_no_session in Hr' by auto. done.
    + unfold removeUserFromRoom. by rewrite Hslot.
Qed.

(** Case analysis on a removal. *)
Ltac removal_cases st d X :=
  let Hn := fresh "Hn" in
  let Hb := fresh "Hb" in
  destruct (removeUserFromRoom_cases st d X)
    as [[Hb ->]|[(Hb & Hn & ->)|(r & l1 & u & l2 & Hr & Hus & Hu & Hl1 & ->)]].

Lemma after_removal_sockets d us ss st :
  sockets (after_removal d us ss st) = sockets st.
Proof. unfold after_removal. by case_decide. Qed.

Lemma after_removal_builtins d us ss st :
  builtins (after_removal d us ss st) = builtins st.
Proof. unfold after_removal. by case_decide. Qed.

Lemma after_removal_crashed d us ss st :
  crashed (after_removal d us ss st) = crashed st.
Proof. unfold after_removal. by case_decide. Qed.

Lemma after_removal_other d d' us ss st :
  d' ≠ d → rooms (after_removal d us ss st) !! d' = rooms st !! d'.
Proof.
  intros Hne. unfold after_removal. case_decide; cbn.
  - by rewrite lookup_delete_ne.
  - by rewrite lookup_insert_ne.
Qed.

Lemma after_removal_same d us ss st :
  rooms (after_removal d us ss st) !! d =
    if decide (length us = 0) then None else Some (Room us ss).
Proof.
  unfold after_removal. case_decide; cbn.
  - by rewrite lookup_delete_eq.
  - by rewrite lookup_insert_eq.
Qed.

Lemma removeUserFromRoom_sockets st d X :
  sockets (removeUserFromRoom d X st).1 = sockets st.
Proof.
  removal_cases st d X; [done|done|].
  apply after_removal_sockets.
Qed.

Lemma removeUserFromRoom_builtins st d X :
  builtins (removeUserFromRoom d X st).1 = builtins st.
Proof.
  removal_cases st d X; [done|done|].
  apply after_removal_builtins.
Qed.

(** A removal throws exactly when the name resolves to a built-in
    object. *)
Lemma removeUserFromRoom_crashed st d X :
  crashed (removeUserFromRoom d X st).1 =
    match room_slot st d with Builtin => true | _ => crashed st end.
Proof.
  removal_cases st d X.
  - by rewrite Hb.
  - cbn. by destruct (room_slot st d).
  - cbn. rewrite after_removal_crashed. by rewrite (room_slot_own _ _ _ Hr).
Qed.

Lemma removeUserFromRoom_other st d d' X :
  d' ≠ d → rooms (removeUserFromRoom d X st).1 !! d' = rooms st !! d'.
Proof.
  intros Hne.
  removal_cases st d X; [done|done|].
  by apply after_removal_other.
Qed.

Lemma removeUserFromRoom_lookup st d X :
  rooms (removeUserFromRoom d X st).1 !! d = room_after_removal X (rooms st !! d).
Proof.
  unfold removeUserFromRoom, room_after_removal.
  destruct (room_slot st d) as [r| |] eqn:Hslot.
  - rewrite (room_slot_Session _ _ _ Hslot). cbn.
    destruct (list_find _ _) as [[i u]|]; [|by apply room_slot_Session].
    case_decide; cbn.
    + by rewrite lookup_delete_eq.
    + by rewrite lookup_insert_eq.
  - cbn. by rewrite room_slot_no_session by auto.
  - cbn. by rewrite room_slot_no_session by auto.
Qed.

Lemma removeUserFromRoom_absent st p X d :
  rooms st !! d = None → rooms (removeUserFromRoom p X st).1 !! d = None.
Proof.
  intros Hd. destruct (decide (d = p)) as [->|Hne].
  - by rewrite removeUserFromRoom_lookup, Hd.
  - by rewrite removeUserFromRoom_other.
Qed.

(** ** What a removal does to a room record *)

(** The two outcomes of a removal on the entry of a session. *)
Lemma room_after_removal_cases X r :
  (Forall (λ v, id v ≠ X) (users r) ∧ room_after_removal X (Some r) = Some r) ∨
  (∃ l1 u l2,
     users r = l1 ++ u :: l2 ∧ id u = X ∧ Forall (λ v, id v ≠ X) l1 ∧
     room_after_removal X (Some r) =
       if decide (length (l1 ++ l2) = 0) then None
       else Some (Room (l1 ++ l2) (strokes r))).
Proof.
  unfold room_after_removal. cbn.
  destruct (list_find (λ v, id v = X) (users r)) as [[i u]|] eqn:Hf.
  - right. apply list_find_split in Hf as (l1 & l2 & Hus & Hi & Hu & Hl1).
    exists l1, u, l2. split; [done|]. split; [done|]. split; [done|].
    by rewrite Hus, <-Hi, splice1_middle.
  - left. split; [|done]. by apply list_find_None in Hf.
Qed.

(** A removal of [X] keeps the entries of every other connection. *)
Lemma room_after_removal_keeps X r v :
  v ∈ users r → id v ≠ X →
  ∃ r', room_after_removal X (Some r) = Some r' ∧ v ∈ users r' ∧
        strokes r' = strokes r.
Proof.
  intros Hv Hne.
  destruct (room_after_removal_cases X r)
    as [[_ ->]|(l1 & u & l2 & Hus & Hu & _ & ->)]; [by exists r|].
  assert (v ∈ l1 ++ l2) as Hin.
  { rewrite Hus in Hv. rewrite elem_of_app, elem_of_cons in Hv.
    rewrite elem_of_app. destruct Hv as [?|[->|?]]; auto. done. }
  rewrite decide_False.
  - by eexists.
  - destruct (l1 ++ l2); [by apply elem_of_nil in Hin|done].
Qed.

Lemma entries_app X l1 l2 : entries X (l1 ++ l2) = entries X l1 + entries X l2.
Proof. unfold entries. by rewrite filter_app, length_app. Qed.

Lemma entries_cons X u l :
  entries X (u :: l) = (if decide (id u = X) then 1 else 0) + entries X l.
Proof.
  unfold entries. case_decide.
  - by rewrite filter_cons_True.
  - by rewrite filter_cons_False.
Qed.

Lemma entries_none X l : Forall (λ v, id v ≠ X) l → entries X l = 0.
Proof.
  induction 1 as [|v l Hv _ IH]; [done|].
  rewrite entries_cons, IH. by rewrite decide_False.
Qed.

Lemma entries_pos X l u : u ∈ l → id u = X → (0 < entries X l)%nat.
Proof.
  intros Hu Hid.
  assert (u ∈ filter (λ v, id v = X) l) as Hin by by apply list_elem_of_filter.
  unfold entries. destruct (filter _ l); [by apply elem_of_nil in Hin|cbn; lia].
Qed.

Lemma entries_zero X l u : entries X l = 0 → u ∈ l → id u ≠ X.
Proof.
  intros Hz Hu Hid. pose proof (entries_pos X l u Hu Hid). lia.
Qed.

(** What is left after a removal was there before, with the same log; the
    entries of the removed connection are one fewer, those of every other
    connection as many as before. *)
Lemma room_after_removal_sub X r r' :
  room_after_removal X (Some r) = Some r' →
  strokes r' = strokes r ∧ (∀ v, v ∈ users r' → v ∈ users r) ∧
  (length (users r') ≤ length (users r))%nat ∧
  entries X (users r') = pred (entries X (users r)) ∧
  (∀ Y, Y ≠ X → entries Y (users r') = entries Y (users r)).
Proof.
  destruct (room_after_removal_cases X r)
    as [[Hall ->]|(l1 & u & l2 & Hus & Hu & Hl1 & ->)].
  - intros [= <-]. split; [done|]. split; [done|]. split; [done|].
    split; [|done]. by rewrite entries_none.
  - case_decide; [done|]. intros [= <-]. cbn [users strokes]. split; [done|].
    rewrite Hus. split; [|split; [|split]].
    + intros v. rewrite !elem_of_app, elem_of_cons. tauto.
    + rewrite !length_app. cbn. lia.
    + rewrite !entries_app, entries_cons, decide_True by done.
      rewrite (entries_none X l1) by done. lia.
    + intros Y HY. rewrite !entries_app, entries_cons.
      rewrite decide_False by congruence. done.
Qed.

(** A removal that deletes the session took its only entry. *)
Lemma room_after_removal_deleted X r :
  room_after_removal X (Some r) = None → ∃ u, users r = [u] ∧ id u = X.
Proof.
  destruct (room_after_removal_cases X r)
    as [[_ ->]|(l1 & u & l2 & Hus & Hu & _ & ->)]; [done|].
  case_decide as Hz; [|done]. intros _.
  destruct l1; [|done]. destruct l2; [|done]. by exists u.
Qed.


Lemma room_after_removal_listed X r :
  (∃ u, u ∈ users r ∧ id u = X) →
  ∃ us, S (length us) = length (users r) ∧
        room_after_removal X (Some r) =
          if decide (length us = 0) then None else Some (Room us (strokes r)).
Proof.
  intros (u & Hu & Hid). unfold room_after_removal. cbn.
  destruct (list_find (λ v, id v = X) (users r)) as [[i v]|] eqn:Hf.
  - exists (splice1 i (users r)). split; [|done].
    apply splice1_length. apply list_find_Some in Hf as [Hi _].
    by eapply lookup_lt_Some.
  - apply list_find_None in Hf. by eapply Forall_forall in Hf.
Qed.

(** Listing after a removal, in terms of the lookup of the session. *)
Lemma listed_lookup st st' Y d :
  rooms st' !! d = rooms st !! d → listed st' Y d ↔ listed st Y d.
Proof. intros Hr. unfold listed. by rewrite Hr. Qed.

Lemma listed_after_removal st st' X Y d :
  rooms st' !! d = room_after_removal X (rooms st !! d) →
  listed st' Y d → listed st Y d.
Proof.
  intros Hst' (r' & v & Hr' & Hv & Hid). rewrite Hst' in Hr'.
  destruct (rooms st !! d) as [r|] eqn:Hr; [|done].
  apply room_after_removal_sub in Hr' as (_ & Hsub & _).
  exists r, v. auto.
Qed.

Lemma listed_after_removal_other st st' X Y d :
  rooms st' !! d = room_after_removal X (rooms st !! d) →
  Y ≠ X → listed st Y d → listed st' Y d.
Proof.
  intros Hst' Hne (r & v & Hr & Hv & Hid).
  destruct (room_after_removal_keeps X r v Hv) as (r' & Hr' & Hv' & _);
    [congruence|].
  exists r', v. by rewrite Hst', Hr.
Qed.

(** A connection with at most one entry has none after the removal. *)
Lemma listed_after_removal_gone st st' X d :
  rooms st' !! d = room_after_removal X (rooms st !! d) →
  (∀ r, rooms st !! d = Some r → (entries X (users r) ≤ 1)%nat) →
  ¬ listed st' X d.
Proof.
  intros Hst' Hone (r' & v & Hr' & Hv & Hid). rewrite Hst' in Hr'.
  destruct (rooms st !! d) as [r|] eqn:Hr; [|done].
  apply room_after_removal_sub in Hr' as (_ & _ & _ & Hcount & _).
  specialize (Hone r eq_refl).
  pose proof (entries_pos X (users r') v Hv Hid). lia.
Qed.

Lemma removeUserFromRoom_listed st d X Y d' :
  listed (removeUserFromRoom d X st).1 Y d' → listed st Y d'.
Proof.
  destruct (decide (d' = d)) as [->|Hne].
  - apply (listed_after_removal _ _ X). apply removeUserFromRoom_lookup.
  - intros Hl. apply (listed_lookup st (removeUserFromRoom d X st).1 Y d'); [|done].
    by apply removeUserFromRoom_other.
Qed.

Lemma removeUserFromRoom_listed_other st d X Y d' :
  Y ≠ X → listed st Y d' → listed (removeUserFromRoom d X st).1 Y d'.
Proof.
  intros HY. destruct (decide (d' = d)) as [->|Hne].
  - apply (listed_after_removal_other _ _ X); [|done].
    apply removeUserFromRoom_lookup.
  - intros Hl. apply (listed_lookup st (removeUserFromRoom d X st).1 Y d'); [|done].
    by apply removeUserFromRoom_other.
Qed.

(** ** The implicit leave of a join *)

Lemma previousRoom_none st X : sockets st !! X = None → previousRoom X st = None.
Proof. intros HX. unfold previousRoom. by rewrite HX. Qed.

Lemma previousRoom_alone st X :
  sockets st !! X = Some [X] → previousRoom X st = None.
Proof.
  intros HX. unfold previousRoom. rewrite HX. cbn.
  by rewrite decide_False by (intros ?; done).
Qed.

Lemma previousRoom_joined st X p k :
  sockets st !! X = Some (X :: p :: k) → p ≠ X → previousRoom X st = Some p.
Proof.
  intros HX Hp. unfold previousRoom. rewrite HX. cbn.
  rewrite decide_False by (intros ?; done).
  by rewrite decide_True.
Qed.

Lemma previousRoom_elem st X p :
  previousRoom X st = Some p → ∃ l, sockets st !! X = Some l ∧ p ∈ l ∧ p ≠ X.
Proof.
  unfold previousRoom. destruct (sockets st !! X) as [l|]; [|done]. cbn.
  destruct (list_find _ l) as [[i q]|] eqn:Hf; [|done]. cbn. intros [= ->].
  apply list_find_Some in Hf as (Hi & Hp & _).
  exists l. split; [done|]. split; [|done]. by eapply list_elem_of_lookup_2.
Qed.

Lemma previousRoom_sockets st st' Y :
  sockets st' !! Y = sockets st !! Y → previousRoom Y st' = previousRoom Y st.
Proof. intros Hs. unfold previousRoom. by rewrite Hs. Qed.

Lemma left_room_sockets st st' Y :
  sockets st' !! Y = sockets st !! Y → left_room Y st' = left_room Y st.
Proof. intros Hs. unfold left_room. by rewrite (previousRoom_sockets st st'). Qed.

Lemma left_room_Some st X p :
  left_room X st = Some p ↔ previousRoom X st = Some p ∧ p ≠ "".
Proof.
  unfold left_room. destruct (previousRoom X st) as [q|]; cbn.
  - case_decide as Hq.
    + split; [done|]. intros [[= ->] Hp]. done.
    + split; [by intros [= ->]|]. by intros [[= ->] _].
  - split; [done|]. by intros [? _].
Qed.

Lemma left_room_None st X :
  left_room X st = None ↔ previousRoom X st = None ∨ previousRoom X st = Some "".
Proof.
  unfold left_room. destruct (previousRoom X st) as [q|]; cbn.
  - case_decide as Hq.
    + split; [intros _; right; by rewrite Hq|done].
    + split; [done|]. intros [?|[= ->]]; done.
  - split; [by left|done].
Qed.

Lemma leave_previous_eq st X :
  leave_previous X st =
    match left_room X st with
    | Some p => removeUserFromRoom p X (socket_leave p X st)
    | None => (st, [])
    end.
Proof.
  unfold leave_previous, left_room.
  destruct (previousRoom X st) as [p|]; cbn; [|done]. by case_decide.
Qed.

Lemma leave_previous_sockets_other st X Y :
  Y ≠ X → sockets (leave_previous X st).1 !! Y = sockets st !! Y.
Proof.
  intros Hne. rewrite leave_previous_eq.
  destruct (left_room X st) as [p|]; [|done].
  rewrite removeUserFromRoom_sockets. cbn. by rewrite lookup_alter_ne.
Qed.

Lemma leave_previous_sockets_self st X :
  sockets (leave_previous X st).1 !! X =
    match left_room X st with
    | Some p => filter (λ x, x ≠ p) <$> sockets st !! X
    | None => sockets st !! X
    end.
Proof.
  rewrite leave_previous_eq.
  destruct (left_room X st) as [p|]; [|done].
  rewrite removeUserFromRoom_sockets. cbn. by rewrite lookup_alter_eq.
Qed.

Lemma leave_previous_builtins st X :
  builtins (leave_previous X st).1 = builtins st.
Proof.
  rewrite leave_previous_eq.
  destruct (left_room X st) as [p|]; [|done].
  by rewrite removeUserFromRoom_builtins.
Qed.

(** The implicit leave throws exactly when the room it leaves resolves to
    a built-in object. *)
Lemma leave_previous_crashed st X :
  crashed (leave_previous X st).1 =
    match left_room X st with
    | Some p => match room_slot st p with Builtin => true | _ => crashed st end
    | None => crashed st
    end.
Proof.
  rewrite leave_previous_eq.
  destruct (left_room X st) as [p|]; [|done].
  rewrite removeUserFromRoom_crashed.
  by rewrite (room_slot_ext st (socket_leave p X st)).
Qed.

Lemma leave_previous_other st X d :
  left_room X st ≠ Some d →
  rooms (leave_previous X st).1 !! d = rooms st !! d.
Proof.
  intros Hne. rewrite leave_previous_eq.
  destruct (left_room X st) as [p|]; [|done].
  rewrite removeUserFromRoom_other by congruence. done.
Qed.

Lemma leave_previous_same st X d :
  left_room X st = Some d →
  rooms (leave_previous X st).1 !! d = room_after_removal X (rooms st !! d).
Proof.
  intros Hp. rewrite leave_previous_eq, Hp.
  by rewrite removeUserFromRoom_lookup.
Qed.

Lemma leave_previous_absent st X d :
  rooms st !! d = None → rooms (leave_previous X st).1 !! d = None.
Proof.
  intros Hd. rewrite leave_previous_eq.
  destruct (left_room X st) as [p|]; [|done].
  by apply removeUserFromRoom_absent.
Qed.

(** A name whose lookup was [undefined] or a room record keeps that kind
    of lookup unless the leave deleted the session of that name. *)
Lemma leave_previous_slot st X d :
  left_room X st ≠ Some d →
  room_slot (leave_previous X st).1 d = room_slot st d.
Proof.
  intros Hne. apply room_slot_ext.
  - by apply leave_previous_other.
  - apply leave_previous_builtins.
Qed.

Lemma leave_previous_listed st X Y d :
  listed (leave_previous X st).1 Y d → listed st Y d.
Proof.
  rewrite leave_previous_eq.
  destruct (left_room X st) as [p|]; [|done].
  intros Hl%removeUserFromRoom_listed. done.
Qed.

Lemma leave_previous_listed_other st X Y d :
  Y ≠ X → listed st Y d → listed (leave_previous X st).1 Y d.
Proof.
  intros Hne Hl. rewrite leave_previous_eq.
  destruct (left_room X st) as [p|]; [|done].
  by apply removeUserFromRoom_listed_other.
Qed.

(** The entries of the joiner in the sessions that the leave does not
    touch stay. *)
Lemma leave_previous_listed_self st X d :
  left_room X st ≠ Some d → listed st X d → listed (leave_previous X st).1 X d.
Proof.
  intros Hne. apply listed_lookup. by apply leave_previous_other.
Qed.

Lemma leave_previous_sub st X d' r' :
  rooms (leave_previous X st).1 !! d' = Some r' →
  ∃ r, rooms st !! d' = Some r ∧ strokes r' = strokes r ∧
       ∀ v, v ∈ users r' → v ∈ users r.
Proof.
  destruct (decide (left_room X st = Some d')) as [Hp|Hp].
  - rewrite leave_previous_same by done.
    destruct (rooms st !! d') as [r|] eqn:Hr; [|done].
    intros (Hlog & Hsub & _)%room_after_removal_sub. by exists r.
  - rewrite leave_previous_other by done. intros Hr'. by exists r'.
Qed.

(** ** The second part of a join *)

Lemma socket_join_slot st X d d' :
  room_slot (socket_join d X st) d' = room_slot st d'.
Proof. by apply room_slot_ext. Qed.

(** The second part of a join throws when the name resolves to a built-in
    object, after the socket joined the room; otherwise the joiner is
    pushed and two messages go out. *)
Lemma enter_room_cases X d uname st :
  (room_slot st d = Builtin ∧
   enter_room X d uname st = (crash (socket_join d X st), [])) ∨
  (room_slot st d ≠ Builtin ∧
   enter_room X d uname st =
     (entered X d uname st,
      [emit (entered X d uname st) (ToSocket X)
         (room_state (users (joined_room X d uname st)) (strokes (joined_room X d uname st)));
       emit (entered X d uname st) (ToRoomExcept d X)
         (user_joined (User X (displayName uname X) (userColor (length (members st d)))))])).
Proof.
  unfold enter_room, init_room. rewrite socket_join_slot.
  destruct (room_slot st d) as [r| |] eqn:Hslot.
  - right. split; [done|]. rewrite socket_join_slot, Hslot.
    apply room_slot_Session in Hslot.
    unfold entered, joined_room, members. rewrite Hslot. reflexivity.
  - left. split; [done|]. by rewrite socket_join_slot, Hslot.
  - right. split; [done|].
    assert (rooms st !! d = None) as Hd by (apply room_slot_no_session; auto).
    rewrite (room_slot_own _ d (Room [] [])) by (cbn; by rewrite lookup_insert_eq).
    unfold entered, joined_room, members. rewrite Hd. cbn.
    unfold set_rooms. cbn. rewrite insert_insert_eq. reflexivity.
Qed.

Lemma entered_crashed X d uname st : crashed (entered X d uname st) = crashed st.
Proof. done. Qed.

(** The three outcomes of a join: the implicit leave throws; the leave
    returns and the second part throws; both return. *)
Lemma join_drawing_cases X d uname st :
  (crashed (leave_previous X st).1 = true ∧
   join_drawing X d uname st = leave_previous X st) ∨
  (crashed (leave_previous X st).1 = false ∧
   room_slot (leave_previous X st).1 d = Builtin ∧
   join_drawing X d uname st =
     (crash (socket_join d X (leave_previous X st).1), (leave_previous X st).2)) ∨
  (crashed (leave_previous X st).1 = false ∧
   room_slot (leave_previous X st).1 d ≠ Builtin ∧
   join_drawing X d uname st =
     (entered X d uname (leave_previous X st).1,
      (leave_previous X st).2 ++
      [emit (entered X d uname (leave_previous X st).1) (ToSocket X)
         (room_state (users (joined_room X d uname (leave_previous X st).1))
                     (strokes (joined_room X d uname (leave_previous X st).1)));
       emit (entered X d uname (leave_previous X st).1) (ToRoomExcept d X)
         (user_joined (User X (displayName uname X)
                         (userColor (length (members (leave_previous X st).1 d)))))])).
Proof.
  unfold join_drawing.
  destruct (leave_previous X st) as [st1 out1]. cbn [fst snd].
  destruct (crashed st1) eqn:Hc; [by left|]. right.
  destruct (enter_room_cases X d uname st1) as [[Hb ->]|[Hb ->]].
  - left. by rewrite app_nil_r.
  - by right.
Qed.

Ltac join_cases X d uname st :=
  let Hc := fresh "Hc" in
  let Hb := fresh "Hb" in
  let Hj := fresh "Hj" in
  destruct (join_drawing_cases X d uname st) as [[Hc Hj]|[(Hc & Hb & Hj)|(Hc & Hb & Hj)]].

(** A join returns exactly when its implicit leave returns and the name
    does not resolve to a built-in object afterwards. *)
Lemma join_drawing_returns X d uname st :
  crashed (join_drawing X d uname st).1 = false ↔
  crashed (leave_previous X st).1 = false ∧
  room_slot (leave_previous X st).1 d ≠ Builtin.
Proof.
  join_cases X d uname st; rewrite Hj; cbn [fst].
  - rewrite Hc. split; [done|]. by intros [? _].
  - cbn. split; [done|]. by intros [_ ?].
  - by rewrite entered_crashed.
Qed.

Lemma join_drawing_state X d uname st :
  crashed (join_drawing X d uname st).1 = false →
  (join_drawing X d uname st).1 = entered X d uname (leave_previous X st).1.
Proof.
  intros [Hc Hb]%join_drawing_returns.
  join_cases X d uname st; [congruence|done|by rewrite Hj].
Qed.

Lemma join_drawing_lookup st X d uname :
  crashed (join_drawing X d uname st).1 = false →
  rooms (join_drawing X d uname st).1 !! d =
    Some (joined_room X d uname (leave_previous X st).1).
Proof.
  intros Hc. rewrite join_drawing_state by done. cbn.
  by rewrite lookup_insert_eq.
Qed.

Lemma join_drawing_lookup_other st X d uname d' :
  d' ≠ d →
  rooms (join_drawing X d uname st).1 !! d' = rooms (leave_previous X st).1 !! d'.
Proof.
  intros Hne. join_cases X d uname st; rewrite Hj; [done|done|].
  cbn. by rewrite lookup_insert_ne.
Qed.

(** When the join throws, the table is as the implicit leave left it. *)
Lemma join_drawing_thrown st X d uname :
  crashed (join_drawing X d uname st).1 = true →
  rooms (join_drawing X d uname st).1 = rooms (leave_previous X st).1.
Proof.
  join_cases X d uname st; rewrite Hj; [done|done|].
  cbn [fst]. rewrite entered_crashed. congruence.
Qed.

Lemma join_drawing_sockets_other st X d uname Y :
  Y ≠ X → sockets (join_drawing X d uname st).1 !! Y = sockets st !! Y.
Proof.
  intros Hne. join_cases X d uname st; rewrite Hj; cbn [fst].
  - by apply leave_previous_sockets_other.
  - cbn. rewrite lookup_alter_ne by done. by apply leave_previous_sockets_other.
  - cbn. rewrite lookup_alter_ne by done. by apply leave_previous_sockets_other.
Qed.

Lemma join_drawing_builtins st X d uname :
  builtins (join_drawing X d uname st).1 = builtins st.
Proof.
  join_cases X d uname st; rewrite Hj; cbn [fst]; apply leave_previous_builtins.
Qed.

(** The messages of a join that returns: those of the implicit leave, then
    the snapshot for the joiner and the notification for the others. *)
Lemma join_drawing_out st X d uname :
  crashed (join_drawing X d uname st).1 = false →
  let st' := (join_drawing X d uname st).1 in
  ∃ u, last (members st' d) = Some u ∧
  (join_drawing X d uname st).2 =
    (leave_previous X st).2 ++
    [Emission (ToSocket X) (room_state (members st' d) (oplog st' d)) {[ X ]};
     Emission (ToRoomExcept d X) (user_joined u)
       (room_sockets (sockets st') d ∖ room_sockets (sockets st') X)].
Proof.
  intros Hret. cbn zeta. unfold members, oplog. rewrite join_drawing_lookup by done.
  apply join_drawing_returns in Hret as [Hc Hb].
  join_cases X d uname st; [congruence|done|]. rewrite Hj. cbn [fst snd].
  eexists. split; [unfold joined_room; cbn [users]; apply last_snoc|].
  f_equal. unfold emit, joined_room, members. cbn [recipients users strokes].
  by destruct (rooms (leave_previous X st).1 !! d).
Qed.

Lemma join_drawing_members st X d uname :
  crashed (join_drawing X d uname st).1 = false →
  left_room X st ≠ Some d →
  members (join_drawing X d uname st).1 d =
    members st d ++ [User X (displayName uname X) (userColor (length (members st d)))] ∧
  oplog (join_drawing X d uname st).1 d = oplog st d.
Proof.
  intros Hc Hp. unfold members, oplog.
  rewrite join_drawing_lookup by done. unfold joined_room.
  rewrite leave_previous_other by done.
  by destruct (rooms st !! d).
Qed.

(** ** Disconnection, session by session *)

Lemma remove_from_eq X st out k :
  remove_from X (st, out) k =
    ((removeUserFromRoom k X st).1, out ++ (removeUserFromRoom k X st).2).
Proof. unfold remove_from. cbn. by destruct (removeUserFromRoom k X st). Qed.

Lemma disconnect_loop_lookup X (ks : list string) st out d :
  NoDup ks →
  rooms (foldl (remove_from X) (st, out) ks).1 !! d =
    if decide (d ∈ ks) then room_after_removal X (rooms st !! d) else rooms st !! d.
Proof.
  revert st out. induction ks as [|k ks IH]; intros st out Hnd.
  { cbn. rewrite decide_False; [done|]. apply not_elem_of_nil. }
  apply NoDup_cons in Hnd as [Hk Hnd].
  cbn [foldl]. rewrite remove_from_eq, IH by done.
  destruct (decide (d = k)) as [->|Hne].
  - rewrite decide_False by done. rewrite decide_True by by left.
    apply removeUserFromRoom_lookup.
  - rewrite removeUserFromRoom_other by done.
    destruct (decide (d ∈ ks)) as [Hin|Hin].
    + rewrite decide_True; [done|]. by right.
    + rewrite decide_False; [done|]. intros [?|?]%elem_of_cons; done.
Qed.

(** [disconnect] applies one removal to every session of the table. *)
Lemma disconnect_lookup st X d :
  rooms (disconnect X st).1 !! d = room_after_removal X (rooms st !! d).
Proof.
  unfold disconnect. rewrite disconnect_loop_lookup by apply NoDup_fst_map_to_list.
  cbn. case_decide as Hin; [done|].
  destruct (rooms st !! d) as [r|] eqn:Hr; [|done].
  destruct Hin. apply list_elem_of_fmap. exists (d, r). split; [done|].
  by apply elem_of_map_to_list.
Qed.

Lemma disconnect_loop_sockets X (ks : list string) st out :
  sockets (foldl (remove_from X) (st, out) ks).1 = sockets st.
Proof.
  revert st out. induction ks as [|k ks IH]; intros st out; [done|].
  cbn [foldl]. by rewrite remove_from_eq, IH, removeUserFromRoom_sockets.
Qed.

Lemma disconnect_sockets st X : sockets (disconnect X st).1 = delete X (sockets st).
Proof. unfold disconnect. by rewrite disconnect_loop_sockets. Qed.

Lemma disconnect_loop_builtins X (ks : list string) st out :
  builtins (foldl (remove_from X) (st, out) ks).1 = builtins st.
Proof.
  revert st out. induction ks as [|k ks IH]; intros st out; [done|].
  cbn [foldl]. by rewrite remove_from_eq, IH, removeUserFromRoom_builtins.
Qed.

Lemma disconnect_builtins st X : builtins (disconnect X st).1 = builtins st.
Proof. unfold disconnect. by rewrite disconnect_loop_builtins. Qed.

(** No removal of a disconnect throws: every name it visits is an own key
    of the table. *)
Lemma disconnect_loop_crashed X (ks : list string) st out :
  (∀ k, k ∈ ks → is_Some (rooms st !! k)) → NoDup ks →
  crashed (foldl (remove_from X) (st, out) ks).1 = crashed st.
Proof.
  revert st out. induction ks as [|k ks IH]; intros st out Hks Hnd; [done|].
  apply NoDup_cons in Hnd as [Hk Hnd].
  cbn [foldl]. rewrite remove_from_eq, IH; [| |done].
  - rewrite removeUserFromRoom_crashed.
    destruct (Hks k) as [r Hr]; [by left|]. by rewrite (room_slot_own _ _ _ Hr).
  - intros k' Hk'. rewrite removeUserFromRoom_other by (intros ->; done).
    apply Hks. by right.
Qed.

Lemma disconnect_crashed st X : crashed (disconnect X st).1 = crashed st.
Proof.
  unfold disconnect. rewrite disconnect_loop_crashed; [done| |apply NoDup_fst_map_to_list].
  intros k ((k' & r) & -> & Hin)%list_elem_of_fmap. cbn.
  apply elem_of_map_to_list in Hin. by exists r.
Qed.

Lemma disconnect_listed st X Y d :
  listed (disconnect X st).1 Y d → listed st Y d.
Proof. apply (listed_after_removal _ _ X). apply disconnect_lookup. Qed.

Lemma disconnect_listed_other st X Y d :
  Y ≠ X → listed st Y d → listed (disconnect X st).1 Y d.
Proof. apply (listed_after_removal_other _ _ X). apply disconnect_lookup. Qed.

(** ** Events on the log of one session *)

Lemma room_eta (r : room) : Room (users r) (strokes r) = r.
Proof. by destruct r. Qed.

(** A stroke, undo, clear or cursor event leaves the table as it is or
    rewrites the log of its session; the sockets stay. *)
Lemma log_event_cases st X d stroke now x y st' :
  st' ∈ [(draw_stroke X d stroke now st).1; (undo_stroke X d st).1;
         (clear_canvas X d st).1; (cursor_move X d x y st).1] →
  sockets st' = sockets st ∧
  (rooms st' = rooms st ∨
   ∃ r ss, rooms st !! d = Some r ∧ rooms st' = <[d := Room (users r) ss]> (rooms st)).
Proof.
  intros Hst'. repeat (apply elem_of_cons in Hst' as [->|Hst']).
  - unfold draw_stroke. destruct (room_slot st d) as [r| |] eqn:Hslot.
    + apply room_slot_Session in Hslot. split; [done|]. right. by eexists _, _.
    + destruct (builtin_strokes st d) as [[k a]|]; by split; [|left].
    + by split; [|left].
  - unfold undo_stroke. destruct (room_slot st d) as [r| |] eqn:Hslot.
    + apply room_slot_Session in Hslot.
      destruct (last _) as [[i s]|]; [|by split; [|left]].
      split; [done|]. right. by eexists _, _.
    + destruct (builtin_strokes st d) as [[k a]|]; [|by split; [|left]].
      destruct (last _) as [[i s]|]; by split; [|left].
    + by split; [|left].
  - unfold clear_canvas. destruct (room_slot st d) as [r| |] eqn:Hslot.
    + apply room_slot_Session in Hslot. split; [done|]. right. by eexists _, _.
    + by split; [|left].
    + by split; [|left].
  - unfold cursor_move. destruct (room_slot st d) as [r| |] eqn:Hslot.
    + destruct (list_find _ _) as [[i u]|]; by split; [|left].
    + by split; [|left].
    + by split; [|left].
  - by apply elem_of_nil in Hst'.
Qed.

Lemma log_event_users st X d stroke now x y st' :
  st' ∈ [(draw_stroke X d stroke now st).1; (undo_stroke X d st).1;
         (clear_canvas X d st).1; (cursor_move X d x y st).1] →
  sockets st' = sockets st ∧
  ∀ d', users <$> rooms st' !! d' = users <$> rooms st !! d'.
Proof.
  intros [Hs [Hr|(r & ss & Hr & Hr')]]%log_event_cases; (split; [done|]); intros d'.
  - by rewrite Hr.
  - rewrite Hr'. destruct (decide (d' = d)) as [->|Hne].
    + by rewrite lookup_insert_eq, Hr.
    + by rewrite lookup_insert_ne.
Qed.

(** ** Invariants of the reachable states *)

Lemma listed_users st st' Y d :
  users <$> rooms st' !! d = users <$> rooms st !! d →
  listed st' Y d → listed st Y d.
Proof.
  intros Hus (r' & v & Hr' & Hv & Hid). rewrite Hr' in Hus. cbn in Hus.
  destruct (rooms st !! d) as [r|] eqn:Hr; [|done].
  injection Hus as Hus. exists r, v. by rewrite <-Hus.
Qed.

(** The invariants speak of the sockets and of the member lists only. *)
Lemma inv_same_users st st' :
  sockets st' = sockets st →
  (∀ d, users <$> rooms st' !! d = users <$> rooms st !! d) →
  inv st → inv st'.
Proof.
  intros Hs Hus [H1 H2 H3 H4].
  assert (∀ d r', rooms st' !! d = Some r' →
            ∃ r, rooms st !! d = Some r ∧ users r = users r') as Hsame.
  { intros d r' Hr'. specialize (Hus d). rewrite Hr' in Hus. cbn in Hus.
    destruct (rooms st !! d) as [r|]; [|done]. injection Hus as Hus. by exists r. }
  split.
  - intros s l. rewrite Hs. apply H1.
  - intros X d l Hl. rewrite Hs. apply H2. exact (listed_users st st' X d (Hus d) Hl).
  - intros X p r' HX Hp Hp' Hr'. rewrite Hs in HX.
    destruct (Hsame p r' Hr') as (r & Hr & <-). by eapply H3.
  - intros d r' Hr'. destruct (Hsame d r' Hr') as (r & Hr & <-). by eapply H4.
Qed.

Lemma inv_ext st st' :
  rooms st' = rooms st → sockets st' = sockets st → inv st → inv st'.
Proof.
  intros Hr Hs. apply inv_same_users; [done|]. intros d. by rewrite Hr.
Qed.

Lemma inv_initial : inv initial.
Proof.
  split.
  - intros s l Hl. cbn in Hl. by rewrite lookup_empty in Hl.
  - intros X d l (r & u & Hr & _). cbn in Hr. by rewrite lookup_empty in Hr.
  - intros X p r HX. cbn in HX. by rewrite lookup_empty in HX.
  - intros d r Hr. cbn in Hr. by rewrite lookup_empty in Hr.
Qed.

Lemma room_after_removal_nonempty X r r' :
  users r ≠ [] → room_after_removal X (Some r) = Some r' → users r' ≠ [].
Proof.
  intros Hne.
  destruct (room_after_removal_cases X r)
    as [[_ ->]|(l1 & u & l2 & Hus & Hu & _ & ->)]; [by intros [= <-]|].
  case_decide as Hz; [done|]. intros [= <-]. cbn. intros Heq.
  by rewrite Heq in Hz.
Qed.

(** After the implicit leave the joiner is in its own room alone, or it
    is in the room [''] that it never leaves. *)
Lemma leave_previous_inv st X :
  inv st →
  inv (leave_previous X st).1 ∧
  ∀ l, sockets (leave_previous X st).1 !! X = Some l →
    l = [X] ∨ ∃ k, X ≠ "" ∧ l = X :: "" :: k.
Proof.
  intros Hinv. pose proof Hinv as [H1 H2 H3 H4].
  destruct (sockets st !! X) as [l|] eqn:Hl.
  2:{ rewrite leave_previous_eq.
      assert (left_room X st = None) as ->
        by (apply left_room_None; left; by apply previousRoom_none).
      split; [done|]. cbn. intros l. by rewrite Hl. }
  destruct (H1 X l Hl) as [->|[(p & Hp & Hp' & ->)|(k & HX & ->)]].
  - rewrite leave_previous_eq.
    assert (left_room X st = None) as ->
      by (apply left_room_None; left; by apply previousRoom_alone).
    split; [done|]. cbn. rewrite Hl. intros l [= <-]. by left.
  - assert (left_room X st = Some p) as Hleft.
    { apply left_room_Some. split; [|done]. by apply (previousRoom_joined st X p []). }
    assert (sockets (leave_previous X st).1 !! X = Some [X]) as HX1.
    { rewrite leave_previous_sockets_self, Hleft, Hl. cbn [fmap option_fmap option_map].
      rewrite filter_cons_True by done.
      by rewrite filter_cons_False by (intros ?; done). }
    split; [|intros l; rewrite HX1; intros [= <-]; by left].
    assert (¬ listed (leave_previous X st).1 X p) as Hgone.
    { apply (listed_after_removal_gone st _ X p); [by apply leave_previous_same|].
      intros r Hr. by apply (H3 X p r). }
    split.
    + intros s l. destruct (decide (s = X)) as [->|Hs].
      * rewrite HX1. intros [= <-]. by left.
      * rewrite leave_previous_sockets_other by done. apply H1.
    + intros Y d l HY. destruct (decide (Y = X)) as [->|Hne].
      * rewrite HX1. intros [= <-].
        pose proof (H2 X d _ (leave_previous_listed _ _ _ _ HY) Hl) as Hd.
        apply elem_of_cons in Hd as [->|Hd]; [by left|].
        apply list_elem_of_singleton in Hd as ->. done.
      * rewrite leave_previous_sockets_other by done.
        apply H2. by eapply leave_previous_listed.
    + intros Y q r HY Hq Hq' Hr. destruct (decide (Y = X)) as [->|Hne].
      { rewrite HX1 in HY. done. }
      rewrite leave_previous_sockets_other in HY by done.
      destruct (decide (q = p)) as [->|Hqp].
      * rewrite leave_previous_same in Hr by done.
        destruct (rooms st !! p) as [r0|] eqn:Hr0; [|done].
        apply room_after_removal_sub in Hr as (_ & _ & _ & _ & Hsame).
        rewrite Hsame by done. by apply (H3 Y p r0).
      * rewrite leave_previous_other in Hr by congruence. by apply (H3 Y q r).
    + intros d r Hr. destruct (decide (d = p)) as [->|Hdp].
      * rewrite leave_previous_same in Hr by done.
        destruct (rooms st !! p) as [r0|] eqn:Hr0; [|done].
        eapply room_after_removal_nonempty; [|done]. by eapply H4.
      * rewrite leave_previous_other in Hr by congruence. by eapply H4.
  - rewrite leave_previous_eq.
    assert (left_room X st = None) as ->.
    { apply left_room_None. right. apply (previousRoom_joined st X "" k); [done|].
      congruence. }
    split; [done|]. cbn. rewrite Hl. intros l [= <-]. right. by exists k.
Qed.

(** What [socket.join] does to the rooms of a socket that the implicit
    leave has left alone or stuck in the room ['']. *)
Lemma join_shape (X d : string) (l : list string) :
  (l = [X] ∨ ∃ k, X ≠ "" ∧ l = X :: "" :: k) →
  ∃ l', (if decide (d ∈ l) then l else l ++ [d]) = l' ∧
    (l' = [X] ∨ (∃ p, p ≠ X ∧ p ≠ "" ∧ l' = [X; p]) ∨ (∃ k, X ≠ "" ∧ l' = X :: "" :: k)) ∧
    (∀ x, x ∈ l → x ∈ l') ∧ d ∈ l' ∧
    (∀ p, l' = [X; p] → p ≠ "" → l = [X] ∧ p = d ∧ d ≠ X).
Proof.
  intros Hl. eexists. split; [done|]. case_decide as Hd.
  - split; [|split; [done|split; [done|]]].
    + destruct Hl as [->|(k & HX & ->)]; [by left|]. right. right. by exists k.
    + intros p Hp Hp'. destruct Hl as [->|(k & HX & ->)]; [done|].
      injection Hp as <- _. done.
  - split; [|split; [|split]].
    + destruct Hl as [->|(k & HX & ->)].
      * assert (d ≠ X) as HdX by (intros ->; apply Hd; by left).
        destruct (decide (d = "")) as [->|Hd'].
        -- right. right. exists []. split; [congruence|done].
        -- right. left. by exists d.
      * right. right. exists (k ++ [d]). by split.
    + intros x Hx. apply elem_of_app. by left.
    + apply elem_of_app. right. by left.
    + intros p Hp Hp'. destruct Hl as [->|(k & HX & ->)].
      * injection Hp as <-. split; [done|]. split; [done|].
        intros ->. apply Hd. by left.
      * injection Hp as Hk. destruct k; [|done]. cbn in Hk. congruence.
Qed.

Lemma elem_of_joined_room X d uname st v :
  v ∈ users (joined_room X d uname st) →
  (v ∈ members st d) ∨ v = User X (displayName uname X) (userColor (length (members st d))).
Proof.
  unfold joined_room, members. cbn. intros [Hv|Hv]%elem_of_app.
  - left. by destruct (rooms st !! d).
  - right. apply list_elem_of_singleton in Hv. by destruct (rooms st !! d).
Qed.

Lemma members_listed st Y d v : v ∈ members st d → id v = Y → listed st Y d.
Proof.
  unfold members. intros Hv Hid. destruct (rooms st !! d) as [r|] eqn:Hr.
  - by exists r, v.
  - by apply elem_of_nil in Hv.
Qed.

Lemma listed_members st Y d : listed st Y d → ∃ v, v ∈ members st d ∧ id v = Y.
Proof. intros (r & v & Hr & Hv & Hid). exists v. unfold members. by rewrite Hr. Qed.

Lemma entries_joined_room X Y d uname st :
  entries Y (users (joined_room X d uname st)) =
    entries Y (members st d) + (if decide (X = Y) then 1 else 0).
Proof.
  unfold joined_room, members. cbn [users]. rewrite entries_app, entries_cons.
  cbn [id]. change (entries Y []) with 0.
  destruct (rooms st !! d); cbn [default from_option Datatypes.id users];
    repeat case_decide; lia.
Qed.

Lemma entries_unlisted st X d : ¬ listed st X d → entries X (members st d) = 0.
Proof.
  intros Hn. apply entries_none. apply Forall_forall. intros v Hv Hid.
  apply Hn. by eapply members_listed.
Qed.

Lemma entered_inv st X d uname :
  inv st →
  (∀ l, sockets st !! X = Some l → l = [X] ∨ ∃ k, X ≠ "" ∧ l = X :: "" :: k) →
  inv (entered X d uname st).
Proof.
  intros [H1 H2 H3 H4] HX.
  assert (∀ Y d', listed (entered X d uname st) Y d' →
            listed st Y d' ∨ (Y = X ∧ d' = d)) as Hlisted.
  { intros Y d' (r' & v & Hr' & Hv & Hid). cbn in Hr'.
    destruct (decide (d' = d)) as [->|Hne].
    - rewrite lookup_insert_eq in Hr'. injection Hr' as <-.
      apply elem_of_joined_room in Hv as [Hv| ->].
      + left. by eapply members_listed.
      + right. by subst.
    - rewrite lookup_insert_ne in Hr' by done. left. by exists r', v. }
  split.
  - intros s l. cbn. destruct (decide (s = X)) as [->|Hs].
    + rewrite lookup_alter_eq. destruct (sockets st !! X) as [l0|] eqn:Hl0; [|done].
      cbn. intros [= <-].
      destruct (join_shape X d l0 (HX l0 eq_refl)) as (l' & -> & Hshape & _). done.
    + rewrite lookup_alter_ne by done. apply H1.
  - intros Y d' l Hl. cbn. destruct (decide (Y = X)) as [->|HY].
    + rewrite lookup_alter_eq. destruct (sockets st !! X) as [l0|] eqn:Hl0; [|done].
      cbn. intros [= <-].
      destruct (join_shape X d l0 (HX l0 eq_refl)) as (l' & -> & _ & Hsub & Hd & _).
      destruct (Hlisted X d' Hl) as [Hold|[_ ->]]; [|done].
      apply Hsub. by apply (H2 X d' l0).
    + rewrite lookup_alter_ne by done.
      destruct (Hlisted Y d' Hl) as [Hold|[-> _]]; [|done]. by apply H2.
  - intros Y p r' HY Hp Hp' Hr'. cbn in HY, Hr'.
    destruct (decide (Y = X)) as [->|HYX].
    + rewrite lookup_alter_eq in HY.
      destruct (sockets st !! X) as [l0|] eqn:Hl0; [|done].
      cbn in HY. injection HY as HY.
      destruct (join_shape X d l0 (HX l0 eq_refl)) as (l' & Hl' & _ & _ & _ & Hnew).
      rewrite Hl' in HY. subst l'.
      destruct (Hnew p eq_refl Hp') as (-> & -> & HdX).
      rewrite lookup_insert_eq in Hr'. injection Hr' as <-.
      rewrite entries_joined_room, decide_True by done.
      rewrite entries_unlisted; [lia|].
      intros Hl. pose proof (H2 X d [X] Hl Hl0) as Hin.
      apply list_elem_of_singleton in Hin. done.
    + rewrite lookup_alter_ne in HY by done.
      destruct (decide (p = d)) as [->|Hpd].
      * rewrite lookup_insert_eq in Hr'. injection Hr' as <-.
        rewrite entries_joined_room, decide_False by done.
        rewrite Nat.add_0_r. unfold members.
        destruct (rooms st !! d) as [r|] eqn:Hr; [|unfold entries; cbn; lia].
        by apply (H3 Y d r).
      * rewrite lookup_insert_ne in Hr' by done. by apply (H3 Y p r').
  - intros d' r' Hr'. cbn in Hr'.
    destruct (decide (d' = d)) as [->|Hd].
    + rewrite lookup_insert_eq in Hr'. injection Hr' as <-.
      unfold joined_room. cbn. by destruct (users _).
    + rewrite lookup_insert_ne in Hr' by done. by eapply H4.
Qed.

Lemma socket_join_inv st X d :
  inv st →
  (∀ l, sockets st !! X = Some l → l = [X] ∨ ∃ k, X ≠ "" ∧ l = X :: "" :: k) →
  rooms st !! d = None →
  inv (socket_join d X st).
Proof.
  intros [H1 H2 H3 H4] HX Hd. split.
  - intros s l. cbn. destruct (decide (s = X)) as [->|Hs].
    + rewrite lookup_alter_eq. destruct (sockets st !! X) as [l0|] eqn:Hl0; [|done].
      cbn. intros [= <-].
      destruct (join_shape X d l0 (HX l0 eq_refl)) as (l' & -> & Hshape & _). done.
    + rewrite lookup_alter_ne by done. apply H1.
  - intros Y d' l Hl. cbn. destruct (decide (Y = X)) as [->|HY].
    + rewrite lookup_alter_eq. destruct (sockets st !! X) as [l0|] eqn:Hl0; [|done].
      cbn. intros [= <-].
      destruct (join_shape X d l0 (HX l0 eq_refl)) as (l' & -> & _ & Hsub & _).
      apply Hsub. by apply (H2 X d' l0).
    + rewrite lookup_alter_ne by done. by apply H2.
  - intros Y p r' HY Hp Hp' Hr'. cbn in HY, Hr'.
    destruct (decide (Y = X)) as [->|HYX].
    + rewrite lookup_alter_eq in HY.
      destruct (sockets st !! X) as [l0|] eqn:Hl0; [|done].
      cbn in HY. injection HY as HY.
      destruct (join_shape X d l0 (HX l0 eq_refl)) as (l' & Hl' & _ & _ & _ & Hnew).
      rewrite Hl' in HY. subst l'.
      destruct (Hnew p eq_refl Hp') as (_ & -> & _). congruence.
    + rewrite lookup_alter_ne in HY by done. by apply (H3 Y p r').
  - done.
Qed.

Lemma join_drawing_inv st X d uname :
  inv st → inv (join_drawing X d uname st).1.
Proof.
  intros Hinv. destruct (leave_previous_inv st X Hinv) as [Hinv1 HX1].
  join_cases X d uname st; rewrite Hj; cbn [fst].
  - done.
  - apply (inv_ext (socket_join d X (leave_previous X st).1)); [done|done|].
    apply socket_join_inv; [done|done|]. apply room_slot_no_session. by left.
  - by apply entered_inv.
Qed.

Lemma connect_inv st X : inv st → fresh_id st X → inv (connect X st).
Proof.
  intros [H1 H2 H3 H4] [HX Hfresh]. split; [| | |done].
  - intros s l. cbn. destruct (decide (s = X)) as [->|Hs].
    + rewrite lookup_insert_eq. intros [= <-]. by left.
    + rewrite lookup_insert_ne by done. apply H1.
  - intros Y d l Hl. cbn. destruct (decide (Y = X)) as [->|HY].
    + by destruct (Hfresh d).
    + rewrite lookup_insert_ne by done. by apply H2.
  - intros Y p r HY. cbn in HY. destruct (decide (Y = X)) as [->|HYX].
    + rewrite lookup_insert_eq in HY. done.
    + rewrite lookup_insert_ne in HY by done. by apply H3.
Qed.

Lemma disconnect_inv st X : inv st → inv (disconnect X st).1.
Proof.
  intros [H1 H2 H3 H4]. split.
  - intros s l. rewrite disconnect_sockets. intros [_ Hl]%lookup_delete_Some.
    by apply H1.
  - intros Y d l Hl. rewrite disconnect_sockets. intros [_ HY]%lookup_delete_Some.
    apply (H2 Y d l); [|done]. by eapply disconnect_listed.
  - intros Y p r'. rewrite disconnect_sockets, disconnect_lookup.
    intros [HYX HY]%lookup_delete_Some Hp Hp' Hr'.
    destruct (rooms st !! p) as [r|] eqn:Hr; [|done].
    apply room_after_removal_sub in Hr' as (_ & _ & _ & _ & Hsame).
    rewrite Hsame by done. by apply (H3 Y p r).
  - intros d r'. rewrite disconnect_lookup. intros Hr'.
    destruct (rooms st !! d) as [r|] eqn:Hr; [|done].
    eapply room_after_removal_nonempty; [|done]. by eapply H4.
Qed.

Lemma log_event_inv st X d stroke now x y st' :
  st' ∈ [(draw_stroke X d stroke now st).1; (undo_stroke X d st).1;
         (clear_canvas X d st).1; (cursor_move X d x y st).1] →
  inv st → inv st'.
Proof. intros [Hs Hus]%log_event_users. by apply inv_same_users. Qed.

Lemma reachable_inv st : reachable st → inv st.
Proof.
  induction 1 as [|st ev _ IH [Hrun Hen]]; [apply inv_initial|].
  destruct ev as [X|X d uname|X d stroke now|X d x y|X d|X d|X]; cbn [handle fst].
  - by apply connect_inv.
  - by apply join_drawing_inv.
  - apply (log_event_inv st X d stroke now JNull JNull); [|done]. by left.
  - apply (log_event_inv st X d ∅ 0%Z x y); [|done]. do 3 right. by left.
  - apply (log_event_inv st X d ∅ 0%Z JNull JNull); [|done]. right. by left.
  - apply (log_event_inv st X d ∅ 0%Z JNull JNull); [|done]. do 2 right. by left.
  - by apply disconnect_inv.
Qed.

(** On a reachable state, every connected socket listed in a session is in
    that session's Socket.IO room. *)
Lemma listed_in_room st X d :
  inv st → listed st X d → is_Some (sockets st !! X) →
  X ∈ room_sockets (sockets st) d.
Proof.
  intros Hinv Hl [l HX]. apply elem_of_room_sockets.
  exists l. split; [done|]. by apply (inv_joined _ Hinv X d l).
Qed.

(** On a reachable state, every connected socket is in the room of its
    own id. *)
Lemma own_room st X :
  inv st → is_Some (sockets st !! X) → X ∈ room_sockets (sockets st) X.
Proof.
  intros Hinv [l HX]. apply elem_of_room_sockets. exists l. split; [done|].
  destruct (inv_shape _ Hinv X l HX) as [->|[(p & _ & _ & ->)|(k & _ & ->)]]; by left.
Qed.

(** ** Sockets in a room are listed in its session *)

Lemma entered_listed st X d uname Y d' :
  listed st Y d' → listed (entered X d uname st) Y d'.
Proof.
  intros (r & v & Hr & Hv & Hid).
  destruct (decide (d' = d)) as [->|Hd].
  - exists (joined_room X d uname st), v. cbn. rewrite lookup_insert_eq.
    split; [done|]. split; [|done].
    unfold joined_room. rewrite Hr. cbn. apply elem_of_app. by left.
  - exists r, v. cbn. by rewrite lookup_insert_ne.
Qed.

Lemma entered_listed_self st X d uname : listed (entered X d uname st) X d.
Proof.
  eexists (joined_room X d uname st), _.
  cbn. rewrite lookup_insert_eq. split; [done|]. split.
  - unfold joined_room. cbn. apply elem_of_app. right. by left.
  - done.
Qed.

Lemma leave_previous_joined_listed st X :
  joined_listed st → joined_listed (leave_previous X st).1.
Proof.
  intros IH Hrun Y d l HY Hd HdY.
  assert (crashed st = false) as Hrun0.
  { rewrite leave_previous_crashed in Hrun.
    destruct (left_room X st) as [p|]; [|done].
    by destruct (room_slot st p). }
  destruct (decide (Y = X)) as [->|Hne].
  - rewrite leave_previous_sockets_self in HY.
    destruct (left_room X st) as [p|] eqn:Hleft.
    + destruct (sockets st !! X) as [l0|] eqn:Hl0; [|done].
      cbn in HY. injection HY as <-.
      apply list_elem_of_filter in Hd as [Hdp Hd].
      apply leave_previous_listed_self; [congruence|]. by eapply IH.
    + apply leave_previous_listed_self; [by rewrite Hleft|]. by eapply IH.
  - rewrite leave_previous_sockets_other in HY by done.
    apply leave_previous_listed_other; [done|]. by eapply IH.
Qed.

Lemma entered_joined_listed st X d uname :
  joined_listed st → joined_listed (entered X d uname st).
Proof.
  intros IH Hrun Y d' l HY Hd HdY. cbn in HY.
  destruct (decide (Y = X)) as [->|Hne].
  - rewrite lookup_alter_eq in HY.
    destruct (sockets st !! X) as [l0|] eqn:Hl0; [|done].
    cbn in HY. injection HY as <-.
    assert (d' ∈ l0 ∨ d' = d) as [Hold| ->].
    { case_decide; [by left|]. apply elem_of_app in Hd as [?|Hd]; [by left|].
      right. by apply list_elem_of_singleton in Hd. }
    + apply entered_listed. by eapply (IH Hrun).
    + apply entered_listed_self.
  - rewrite lookup_alter_ne in HY by done.
    apply entered_listed. by eapply (IH Hrun).
Qed.

Lemma reachable_joined_listed st : reachable st → joined_listed st.
Proof.
  induction 1 as [|st ev Hreach IH [Hrun Hen]].
  { intros _ X d l HX. cbn in HX. by rewrite lookup_empty in HX. }
  assert (∀ X d stroke now x y st',
            st' ∈ [(draw_stroke X d stroke now st).1; (undo_stroke X d st).1;
                   (clear_canvas X d st).1; (cursor_move X d x y st).1] →
            joined_listed st') as Hlog.
  { intros X d stroke now x y st' [Hs Hus]%log_event_users _ Y d' l.
    rewrite Hs. intros HY Hd HdY.
    apply (listed_users st' st Y d'); [by rewrite Hus|]. by eapply (IH Hrun). }
  destruct ev as [X|X d uname|X d stroke now|X d x y|X d|X d|X]; cbn [handle fst].
  - intros _ Y d l HY Hd HdY. cbn in HY.
    destruct (decide (Y = X)) as [->|Hne].
    + rewrite lookup_insert_eq in HY. injection HY as <-.
      apply list_elem_of_singleton in Hd. done.
    + rewrite lookup_insert_ne in HY by done.
      apply (listed_lookup st); [done|]. by eapply (IH Hrun).
  - intros Hret. pose proof Hret as Hret'.
    rewrite join_drawing_state in Hret' |- * by done.
    exact (entered_joined_listed _ X d uname (leave_previous_joined_listed st X IH) Hret').
  - apply (Hlog X d stroke now JNull JNull). by left.
  - apply (Hlog X d ∅ 0%Z x y). do 3 right. by left.
  - apply (Hlog X d ∅ 0%Z JNull JNull). right. by left.
  - apply (Hlog X d ∅ 0%Z JNull JNull). do 2 right. by left.
  - intros _ Y d l. rewrite disconnect_sockets.
    intros [HYX HY]%lookup_delete_Some Hd HdY.
    apply disconnect_listed_other; [done|]. by eapply (IH Hrun).
Qed.

(** While the process runs, the room that a join leaves is the session
    of a room record, so the implicit leave does not throw. *)
Lemma left_room_listed st X p :
  reachable st → crashed st = false → left_room X st = Some p → listed st X p.
Proof.
  intros Hreach Hrun [Hp _]%left_room_Some.
  apply previousRoom_elem in Hp as (l & Hl & Hin & Hne).
  by eapply (reachable_joined_listed st Hreach Hrun).
Qed.

Lemma reachable_leave_returns st X :
  reachable st → crashed st = false → crashed (leave_previous X st).1 = false.
Proof.
  intros Hreach Hrun. rewrite leave_previous_crashed.
  destruct (left_room X st) as [p|] eqn:Hleft; [|done].
  destruct (left_room_listed st X p Hreach Hrun Hleft) as (r & _ & Hr & _).
  by rewrite (room_slot_own _ _ _ Hr).
Qed.

(** While the process runs, a join returns unless the name resolves to a
    built-in object after the implicit leave. *)
Lemma reachable_join_returns st X d uname :
  reachable st → crashed st = false →
  room_slot (leave_previous X st).1 d ≠ Builtin →
  crashed (join_drawing X d uname st).1 = false.
Proof.
  intros Hreach Hrun Hb. apply join_drawing_returns.
  split; [by apply reachable_leave_returns|done].
Qed.


(** ** Concrete runs *)

Lemma run_reachable evs st : reachable st → admissible evs st → reachable (run evs st).
Proof.
  revert st. induction evs as [|ev evs IH]; intros st Hst Hadm; [done|].
  destruct Hadm as [Hen Hadm]. apply IH; [|done]. by apply reachable_step.
Qed.

(** An id that no socket has is fresh while the table is empty. *)
Lemma fresh_id_empty st X : sockets st !! X = None → rooms st = ∅ → fresh_id st X.
Proof.
  intros HX Hr. split; [done|]. intros d (r & u & Hd & _).
  by rewrite Hr, lookup_empty in Hd.
Qed.

Ltac admit_events :=
  repeat (split;
          [split; [vm_compute; reflexivity
                  |first [apply fresh_id_empty; vm_compute; reflexivity
                         |vm_compute; by eauto]]|]);
  exact I.

Lemma solo_state_reachable : reachable solo_state.
Proof.
  apply (run_reachable [Connect "A"; Join "A" "S" None; Stroke "A" "S" ∅ 0]);
    [apply reachable_initial|]. admit_events.
Qed.

Lemma duo_state_reachable : reachable duo_state.
Proof.
  apply run_reachable; [apply reachable_initial|]. admit_events.
Qed.

Lemma duo_state_room : rooms duo_state !! "S" = Some duo_room.
Proof. vm_compute. reflexivity. Qed.

Lemma duo_state_connected (X : string) :
  X ∈ ["A"; "B"] → is_Some (sockets duo_state !! X).
Proof.
  intros HX. repeat (apply elem_of_cons in HX as [->|HX]);
    [vm_compute; by eauto..|by apply elem_of_nil in HX].
Qed.

Lemma named_by_id_state_reachable : reachable named_by_id_state.
Proof.
  apply run_reachable; [apply reachable_initial|]. admit_events.
Qed.

Lemma lone_state_reachable : reachable lone_state.
Proof.
  apply (run_reachable [Connect "A"]); [apply reachable_initial|]. admit_events.
Qed.

Lemma empty_name_state_reachable : reachable empty_name_state.
Proof.
  apply run_reachable; [apply reachable_initial|]. admit_events.
Qed.

(** ** Undo *)

Lemma oplog_set_log st d us ss :
  oplog (set_rooms (insert d (Room us ss)) st) d = ss.
Proof. unfold oplog. cbn. by rewrite lookup_insert_eq. Qed.

(** The scenario [A1, B1, A2] of two authors [A ≠ B]. *)
Lemma undo_scoping_scenario (A B d : string) (a1 b1 a2 : jsobj) (t1 t2 t3 : Z)
    (st : server) (r : room) :
  A ≠ B →
  rooms st !! d = Some r →
  let A1 := log_entry A t1 a1 in
  let B1 := log_entry B t2 b1 in
  let A2 := log_entry A t3 a2 in
  strokes r = [A1; B1; A2] →
  let st1 := (undo_stroke A d st).1 in
  let st2 := (undo_stroke A d st1).1 in
  oplog st1 d = [A1; B1] ∧
  oplog st2 d = [B1] ∧
  undo_stroke A d st2 = (st2, []).
Proof.
  intros HAB Hr A1 B1 A2 Hlog st1 st2.
  assert (is_by A A1 = true) as HA1
    by (unfold A1; rewrite is_by_log_entry; by apply bool_decide_eq_true).
  assert (is_by A A2 = true) as HA2
    by (unfold A2; rewrite is_by_log_entry; by apply bool_decide_eq_true).
  assert (is_by A B1 = false) as HB1
    by (unfold B1; rewrite is_by_log_entry; apply bool_decide_eq_false; congruence).
  assert (st1 = set_rooms (insert d (Room (users r) [A1; B1])) st) as Hst1.
  { unfold st1. by rewrite (undo_stroke_found st A d r [A1; B1] A2 []). }
  assert (rooms st1 !! d = Some (Room (users r) [A1; B1])) as Hr1
    by (rewrite Hst1; cbn; by rewrite lookup_insert_eq).
  assert (st2 = set_rooms (insert d (Room (users r) [B1])) st1) as Hst2.
  { unfold st2.
    rewrite (undo_stroke_found st1 A d _ [] A1 [B1] Hr1); try done.
    by apply Forall_singleton. }
  split; [by rewrite Hst1, oplog_set_log|].
  split; [by rewrite Hst2, oplog_set_log|].
  eapply undo_stroke_none.
  - rewrite Hst2. cbn. by rewrite lookup_insert_eq.
  - cbn. by apply Forall_singleton.
Qed.

(** C1 — [undo-stroke] on an existing session removes exactly the
    highest-index stroke whose [userId] is the caller's id: the log
    [l1 ++ s :: l2], with [s] the caller's and no stroke of the caller in
    [l2], becomes [l1 ++ l2], so all other entries keep their relative
    order.  One [stroke-undone] message carrying the caller's id and the
    removed index [length l1] is sent with [io.to(drawingId)], that is to
    every socket of the session's room with no exclusion; on a reachable
    state every connected listed member, the author included, is among the
    receivers.  When the log has no stroke of the caller, the state is
    unchanged and nothing is sent.  In the scenario [A1, B1, A2] a first
    undo by [A] leaves [A1, B1], a second leaves [B1], a third is a no-op,
    and an undo by [B] on the log [A1] is a no-op. *)
Theorem undo_stroke_removes_last_own (st : server) (sid d : string) (r : room) :
  rooms st !! d = Some r →
  (Exists (λ s, is_by sid s = true) (strokes r) →
   ∃ l1 s l2,
     strokes r = l1 ++ s :: l2 ∧
     is_by sid s = true ∧
     Forall (λ x, is_by sid x = false) l2 ∧
     undo_stroke sid d st =
       (set_rooms (insert d (Room (users r) (l1 ++ l2))) st,
        [Emission (ToRoom d) (stroke_undone sid (length l1))
                  (room_sockets (sockets st) d)]) ∧
     (∀ x, x ∈ room_sockets (sockets st) d ↔ ∃ l, sockets st !! x = Some l ∧ d ∈ l) ∧
     (reachable st → ∀ u, u ∈ users r → is_Some (sockets st !! id u) →
        id u ∈ room_sockets (sockets st) d)) ∧
  (Forall (λ s, is_by sid s = false) (strokes r) →
   undo_stroke sid d st = (st, [])) ∧
  (∀ (B : string) (a1 b1 a2 : jsobj) (t1 t2 t3 : Z),
     sid ≠ B →
     let A1 := log_entry sid t1 a1 in
     let B1 := log_entry B t2 b1 in
     let A2 := log_entry sid t3 a2 in
     (strokes r = [A1; B1; A2] →
      let st1 := (undo_stroke sid d st).1 in
      let st2 := (undo_stroke sid d st1).1 in
      oplog st1 d = [A1; B1] ∧ oplog st2 d = [B1] ∧
      undo_stroke sid d st2 = (st2, [])) ∧
     (strokes r = [B1] → undo_stroke sid d st = (st, []))).
Proof.
  intros Hr. split; [|split].
  - intros Hex.
    destruct (split_at_last_own sid (strokes r) Hex) as (l1 & s & l2 & Hl & Hs & Hl2).
    exists l1, s, l2. split; [done|]. split; [done|]. split; [done|].
    split; [by apply (undo_stroke_found st sid d r l1 s l2)|].
    split; [intros x; apply elem_of_room_sockets|].
    intros Hreach u Hu Hlive. apply listed_in_room; [by apply reachable_inv| |done].
    by exists r, u.
  - by apply undo_stroke_none.
  - intros B a1 b1 a2 t1 t2 t3 HB A1 B1 A2. split.
    + intros Hlog. by eapply undo_scoping_scenario.
    + intros Hlog. eapply undo_stroke_none; [done|]. rewrite Hlog.
      apply Forall_singleton. unfold B1. rewrite is_by_log_entry.
      apply bool_decide_eq_false. congruence.
Qed.

(** ** Session ids that are not in the table *)

(** The four log handlers do nothing and send nothing when
    [rooms[drawingId]] is [undefined]. *)
Lemma undefined_noop st sid d :
  room_slot st d = Undefined →
  (∀ stroke now, draw_stroke sid d stroke now st = (st, [])) ∧
  undo_stroke sid d st = (st, []) ∧
  clear_canvas sid d st = (st, []) ∧
  (∀ x y, cursor_move sid d x y st = (st, [])).
Proof.
  intros Hd. unfold draw_stroke, undo_stroke, clear_canvas, cursor_move.
  by rewrite Hd.
Qed.

Lemma builtin_strokes_none st d : builtins st = ∅ → builtin_strokes st d = None.
Proof. intros Hb. unfold builtin_strokes. by rewrite Hb, !lookup_empty. Qed.

Lemma builtin_clear_empty d : builtin_clear d ∅ = {[ d := [] ]}.
Proof. unfold builtin_clear. case_decide; [|done]. by rewrite delete_empty. Qed.

(** C5 — The claim fails for the session ids that the table does not hold
    but [Object.prototype] does ([constructor], [toString], [__proto__]
    and the like): the guard [if (rooms[drawingId])] of the handlers is
    passed.  While no handler has written on a built-in object,
    [draw-stroke], [undo-stroke] and [cursor-move] throw, which ends the
    process, and [clear-canvas] writes a [strokes] property on the built-in
    object and sends [canvas-cleared] to the Socket.IO room of that
    name. *)
Theorem absent_session_inherited_name (st : server) (sid d : string) :
  rooms st !! d = None → inherited d = true → builtins st = ∅ →
  (∀ stroke now, draw_stroke sid d stroke now st = (crash st, [])) ∧
  undo_stroke sid d st = (crash st, []) ∧
  (∀ x y, cursor_move sid d x y st = (crash st, [])) ∧
  crashed (crash st) = true ∧
  clear_canvas sid d st =
    (set_builtins (λ _, {[ d := [] ]}) st,
     [Emission (ToRoom d) canvas_cleared (room_sockets (sockets st) d)]).
Proof.
  intros Hd Hin Hb.
  pose proof (inherited_slot st d Hd Hin) as Hslot.
  unfold draw_stroke, undo_stroke, clear_canvas, cursor_move.
  rewrite Hslot, (builtin_strokes_none st d Hb).
  split; [done|]. split; [done|]. split; [done|]. split; [done|].
  unfold set_builtins. by rewrite Hb, builtin_clear_empty.
Qed.

(** ** Clear *)

(** C7 — [clear-canvas] on an existing session empties the log whatever
    its entries and their authors are, with no condition on the caller,
    and sends one [canvas-cleared] message with [io.to(drawingId)]: every
    socket of the session's room receives it, the initiator included when
    it is in the room; on a reachable state every connected listed member
    is among the receivers. *)
Theorem clear_canvas_universal (st : server) (sid d : string) (r : room) :
  rooms st !! d = Some r →
  clear_canvas sid d st =
    (set_rooms (insert d (Room (users r) [])) st,
     [Emission (ToRoom d) canvas_cleared (room_sockets (sockets st) d)]) ∧
  oplog (clear_canvas sid d st).1 d = [] ∧
  members (clear_canvas sid d st).1 d = users r ∧
  (∀ x, x ∈ room_sockets (sockets st) d ↔ ∃ l, sockets st !! x = Some l ∧ d ∈ l) ∧
  (reachable st → ∀ u, u ∈ users r → is_Some (sockets st !! id u) →
     id u ∈ room_sockets (sockets st) d).
Proof.
  intros Hr. unfold clear_canvas. rewrite (room_slot_own _ _ _ Hr). cbn [fst].
  split; [done|]. split; [apply oplog_set_log|].
  split; [unfold members; cbn; by rewrite lookup_insert_eq|].
  split; [intros x; apply elem_of_room_sockets|].
  intros Hreach u Hu Hlive. apply listed_in_room; [by apply reachable_inv| |done].
  by exists r, u.
Qed.

(** ** Strokes *)

Lemma elem_of_to_room socks d sid x :
  x ∈ room_sockets socks d ∖ room_sockets socks sid ↔
  (∃ l, socks !! x = Some l ∧ d ∈ l ∧ sid ∉ l).
Proof.
  rewrite elem_of_difference, !elem_of_room_sockets. split.
  - intros [(l & Hl & Hd) Hn]. exists l. split; [done|]. split; [done|].
    intros Hs. apply Hn. by exists l.
  - intros (l & Hl & Hd & Hs). split; [by exists l|].
    intros (l' & Hl' & Hs'). congruence.
Qed.

(** The receivers of a [socket.to(d)] message of a socket that is in the
    room of its own id do not include that socket. *)
Lemma sender_excluded socks d sid :
  (∀ l, socks !! sid = Some l → sid ∈ l) →
  sid ∉ room_sockets socks d ∖ room_sockets socks sid.
Proof.
  intros Hown (l & Hl & _ & Hn)%elem_of_to_room. apply Hn. by apply Hown.
Qed.

Lemma reachable_own_room st sid :
  reachable st → ∀ l, sockets st !! sid = Some l → sid ∈ l.
Proof.
  intros Hreach l Hl.
  destruct (inv_shape _ (reachable_inv st Hreach) sid l Hl)
    as [->|[(p & _ & _ & ->)|(k & _ & ->)]]; by left.
Qed.

(** C8 — The claim fails in the session named by the sender's own
    connection id.  [Y] joins the session ["X"], then the connection
    ["X"] joins it: both are listed and connected, [Y] is in the Socket.IO
    room ["X"], and a stroke of ["X"] is appended to the log and sent with
    [socket.to("X")], which excludes the whole room named by the sender's
    id: nobody receives it. *)
Theorem stroke_in_session_named_by_sender :
  reachable named_by_id_state ∧
  crashed named_by_id_state = false ∧
  members named_by_id_state "X" =
    [User "Y" "UserY" "#FF6B6B"; User "X" "UserX" "#4ECDC4"] ∧
  sockets named_by_id_state !! "Y" = Some ["Y"; "X"] ∧
  sockets named_by_id_state !! "X" = Some ["X"] ∧
  "Y" ∈ room_sockets (sockets named_by_id_state) "X" ∧
  ∀ stroke now,
    (draw_stroke "X" "X" stroke now named_by_id_state).2 =
      [Emission (ToRoomExcept "X" "X") (stroke_drawn (stamp_author "X" stroke)) ∅] ∧
    oplog (draw_stroke "X" "X" stroke now named_by_id_state).1 "X" =
      [log_entry "X" now stroke].
Proof.
  split; [apply named_by_id_state_reachable|].
  split; [vm_compute; reflexivity|]. split; [vm_compute; reflexivity|].
  split; [vm_compute; reflexivity|]. split; [vm_compute; reflexivity|].
  split.
  { apply elem_of_room_sockets. exists ["Y"; "X"].
    split; [vm_compute; reflexivity|]. right. by left. }
  intros stroke now.
  assert (rooms named_by_id_state !! "X" =
          Some (Room [User "Y" "UserY" "#FF6B6B"; User "X" "UserX" "#4ECDC4"] []))
    as Hr by (vm_compute; reflexivity).
  unfold draw_stroke. rewrite (room_slot_own _ _ _ Hr). cbn [fst snd].
  split; [|by rewrite oplog_set_log].
  unfold emit. cbn [recipients sockets set_rooms]. by rewrite difference_diag_L.
Qed.

(** C9 — The entry that [draw-stroke] appends to the log of an existing
    session has its [userId] equal to the sender's connection id for every
    client payload, also one that carries a [userId] of its own, which is
    overwritten; the broadcast copy has the same [userId].  The entry
    therefore counts as a stroke of connection [a] for undo exactly when
    [a] is the sender. *)
Theorem logged_author_is_sender (st : server) (sid d : string) (r : room)
    (stroke : jsobj) (now : Z) :
  rooms st !! d = Some r →
  ∃ e,
    oplog (draw_stroke sid d stroke now st).1 d = strokes r ++ [e] ∧
    e = log_entry sid now stroke ∧
    e !! "userId" = Some (JStr sid) ∧
    (∀ v, log_entry sid now (<["userId" := v]> stroke) !! "userId" = Some (JStr sid)) ∧
    stamp_author sid stroke !! "userId" = Some (JStr sid) ∧
    (∀ a, is_by a e = true ↔ a = sid).
Proof.
  intros Hr. exists (log_entry sid now stroke).
  split. { unfold draw_stroke. rewrite (room_slot_own _ _ _ Hr). cbn [fst]. apply oplog_set_log. }
  split; [done|].
  assert (∀ s, log_entry sid now s !! "userId" = Some (JStr sid)) as Hid.
  { intros s. unfold log_entry, stamp_author.
    rewrite lookup_insert_ne by done. by rewrite lookup_insert_eq. }
  split; [apply Hid|]. split; [intros v; apply Hid|].
  split; [unfold stamp_author; by rewrite lookup_insert_eq|].
  intros a. rewrite is_by_log_entry, bool_decide_eq_true. split; congruence.
Qed.

(** ** Cursor *)

(** C10 — The claim fails in two places.  For a session id that the table
    does not hold but [Object.prototype] does, the guard is passed and
    [users.find] throws, which ends the process.  In the session named by
    the sender's own connection id (here ["X"], where [Y] is listed and
    in the room), the [cursor-moved] message of ["X"] goes with
    [socket.to("X")] to nobody.  The state is unchanged there. *)
Theorem cursor_move_misses :
  (∀ st sid d x y,
     rooms st !! d = None → inherited d = true →
     cursor_move sid d x y st = (crash st, []) ∧ crashed (crash st) = true) ∧
  reachable named_by_id_state ∧
  listed named_by_id_state "Y" "X" ∧
  "Y" ∈ room_sockets (sockets named_by_id_state) "X" ∧
  ∀ x y,
    cursor_move "X" "X" x y named_by_id_state =
      (named_by_id_state,
       [Emission (ToRoomExcept "X" "X") (cursor_moved "X" "UserX" "#4ECDC4" x y) ∅]).
Proof.
  split.
  { intros st sid d x y Hd Hin. unfold cursor_move.
    by rewrite (inherited_slot st d Hd Hin). }
  split; [apply named_by_id_state_reachable|].
  assert (rooms named_by_id_state !! "X" =
          Some (Room [User "Y" "UserY" "#FF6B6B"; User "X" "UserX" "#4ECDC4"] []))
    as Hr by (vm_compute; reflexivity).
  split.
  { eexists _, (User "Y" "UserY" "#FF6B6B"). split; [exact Hr|]. split; [by left|done]. }
  split.
  { apply elem_of_room_sockets. exists ["Y"; "X"].
    split; [vm_compute; reflexivity|]. right. by left. }
  intros x y. unfold cursor_move. rewrite (room_slot_own _ _ _ Hr).
  cbn [users].
  assert (list_find (λ u, id u = "X")
            [User "Y" "UserY" "#FF6B6B"; User "X" "UserX" "#4ECDC4"]
          = Some (1, User "X" "UserX" "#4ECDC4")) as -> by (vm_compute; reflexivity).
  unfold emit. cbn [recipients username color]. by rewrite difference_diag_L.
Qed.

(** ** Events on the log of one session *)

Lemma set_log_frame (rs rs' : gmap string room) d r ss :
  rs !! d = Some r → rs' = <[d := Room (users r) ss]> rs →
  (∀ d', users <$> rs' !! d' = users <$> rs !! d') ∧
  (∀ d', d' ≠ d → rs' !! d' = rs !! d') ∧
  dom rs' = dom rs.
Proof.
  intros Hr ->. split; [|split].
  - intros d'. destruct (decide (d' = d)) as [->|Hne].
    + by rewrite lookup_insert_eq, Hr.
    + by rewrite lookup_insert_ne.
  - intros d' Hne. by rewrite lookup_insert_ne.
  - rewrite dom_insert_L.
    assert (d ∈ dom rs) as Hd by (apply elem_of_dom; eauto).
    apply subseteq_union_1_L. by apply singleton_subseteq_l.
Qed.

Lemma members_users st st' d :
  users <$> rooms st' !! d = users <$> rooms st !! d → members st' d = members st d.
Proof.
  unfold members. destruct (rooms st' !! d), (rooms st !! d); cbn; congruence.
Qed.

Lemma set_log_same st d r :
  rooms st !! d = Some r → set_rooms (insert d (Room (users r) (strokes r))) st = st.
Proof.
  intros Hr. destruct st as [rs socks bs c]. unfold set_rooms. cbn in *.
  by rewrite room_eta, insert_id.
Qed.

Lemma set_log_twice st d us ss us' ss' :
  set_rooms (insert d (Room us' ss')) (set_rooms (insert d (Room us ss)) st)
  = set_rooms (insert d (Room us' ss')) st.
Proof. unfold set_rooms. cbn. by rewrite insert_insert_eq. Qed.

(** X1 — A stroke, undo, clear or cursor event of a session changes
    neither the Socket.IO rooms, nor the member list of any session, nor
    any other session of the table, nor the set of sessions. *)
Theorem log_events_frame (st : server) (X d : string) (stroke : jsobj) (now : Z)
    (x y : jsval) :
  ∀ st',
    st' ∈ [(draw_stroke X d stroke now st).1; (undo_stroke X d st).1;
           (clear_canvas X d st).1; (cursor_move X d x y st).1] →
    sockets st' = sockets st ∧
    (∀ d', members st' d' = members st d') ∧
    (∀ d', d' ≠ d → rooms st' !! d' = rooms st !! d') ∧
    dom (rooms st') = dom (rooms st).
Proof.
  intros st' Hst'.
  destruct (log_event_cases _ _ _ _ _ _ _ _ Hst') as [Hs [Hrs|(r & ss & Hr & Hrs)]].
  - split; [done|]. split; [intros d'; unfold members; by rewrite Hrs|].
    split; [intros d' _; by rewrite Hrs|by rewrite Hrs].
  - destruct (set_log_frame _ _ d r ss Hr Hrs) as (Hus & Hother & Hdom).
    split; [done|]. split; [|done]. intros d'. by apply members_users.
Qed.

(** X2 — On an existing session, an undo by the connection that has just
    drawn gives back exactly the state before the stroke; the
    [stroke-undone] message carries the length of the old log as index. *)
Theorem draw_then_undo (st : server) (X d : string) (r : room) (stroke : jsobj) (now : Z) :
  rooms st !! d = Some r →
  undo_stroke X d (draw_stroke X d stroke now st).1 =
    (st, [Emission (ToRoom d) (stroke_undone X (length (strokes r)))
                   (room_sockets (sockets st) d)]).
Proof.
  intros Hr. unfold draw_stroke. rewrite (room_slot_own _ _ _ Hr). cbn [fst].
  rewrite (undo_stroke_found _ X d
             (Room (users r) (strokes r ++ [log_entry X now stroke]))
             (strokes r) (log_entry X now stroke) []).
  - cbn [users sockets set_rooms]. rewrite app_nil_r.
    fold (set_rooms (insert d (Room (users r) (strokes r ++ [log_entry X now stroke]))) st).
    by rewrite set_log_twice, set_log_same.
  - cbn. by rewrite lookup_insert_eq.
  - done.
  - rewrite is_by_log_entry. by apply bool_decide_eq_true.
  - done.
Qed.

Lemma filter_foreign_all X (l : list jsobj) :
  length (filter (λ s, is_by X s = true) l) = 0 →
  Forall (λ s, is_by X s = false) l.
Proof.
  intros Hlen. apply Forall_forall. intros s Hs.
  destruct (is_by X s) eqn:Hby; [|done].
  assert (s ∈ filter (λ s, is_by X s = true) l) as Hin
    by by apply list_elem_of_filter.
  destruct (filter _ l); [by apply elem_of_nil in Hin|done].
Qed.

Lemma filter_foreign_id X (l : list jsobj) :
  Forall (λ s, is_by X s = false) l → filter (λ s, is_by X s = false) l = l.
Proof.
  induction 1 as [|s l Hs _ IH]; [done|].
  by rewrite filter_cons_True, IH.
Qed.

Lemma filter_own_none X (l : list jsobj) :
  Forall (λ s, is_by X s = false) l → filter (λ s, is_by X s = true) l = [].
Proof.
  induction 1 as [|s l Hs _ IH]; [done|].
  by rewrite filter_cons_False by congruence.
Qed.

(** One undo: the strokes of the others stay, one own stroke goes. *)
Lemma undo_stroke_step st X d r :
  rooms st !! d = Some r →
  ∃ r', rooms (undo_stroke X d st).1 !! d = Some r' ∧
        users r' = users r ∧
        filter (λ s, is_by X s = false) (strokes r')
          = filter (λ s, is_by X s = false) (strokes r) ∧
        length (filter (λ s, is_by X s = true) (strokes r'))
          = pred (length (filter (λ s, is_by X s = true) (strokes r))).
Proof.
  intros Hr.
  destruct (decide (Exists (λ s, is_by X s = true) (strokes r))) as [Hex|Hno].
  - destruct (split_at_last_own X (strokes r) Hex) as (l1 & s & l2 & Hl & Hs & Hl2).
    rewrite (undo_stroke_found st X d r l1 s l2) by done. cbn.
    rewrite lookup_insert_eq. eexists. split; [done|]. cbn. split; [done|].
    rewrite Hl, !filter_app, !length_app.
    rewrite (filter_cons_False (λ s, is_by X s = false)) by congruence.
    rewrite (filter_cons_True (λ s, is_by X s = true)) by done.
    split; [done|]. cbn. lia.
  - assert (Forall (λ s, is_by X s = false) (strokes r)) as Hall.
    { apply Forall_forall. intros s Hs.
      destruct (is_by X s) eqn:Hby; [|done].
      destruct Hno. apply Exists_exists. eauto. }
    rewrite (undo_stroke_none st X d r) by done. cbn.
    exists r. split; [done|]. split; [done|]. split; [done|].
    by rewrite filter_own_none.
Qed.

(** X3 — After at least as many undo events of a connection as the log
    of an existing session holds strokes of it, the log is exactly the
    strokes of the other authors, in their order, and the member list is
    as before. *)
Theorem undo_all_own (st : server) (X d : string) (r : room) (n : nat) :
  rooms st !! d = Some r →
  (length (filter (λ s, is_by X s = true) (strokes r)) ≤ n)%nat →
  oplog (undo_n n X d st) d = filter (λ s, is_by X s = false) (strokes r) ∧
  members (undo_n n X d st) d = users r.
Proof.
  revert st r. induction n as [|n IH]; intros st r Hr Hn.
  - cbn. unfold oplog, members. rewrite Hr.
    rewrite filter_foreign_id; [done|].
    apply filter_foreign_all. lia.
  - unfold undo_n. rewrite Nat.iter_succ_r.
    destruct (undo_stroke_step st X d r Hr) as (r' & Hr' & Hus & Hfor & Hown).
    fold (undo_n n X d (undo_stroke X d st).1).
    destruct (IH _ r' Hr') as [Hlog Hmem]; [lia|].
    by rewrite Hlog, Hmem, Hfor, Hus.
Qed.

(** X4 — After a clear of an existing session, a second clear changes
    nothing more, an undo by any connection is a no-op, and a stroke
    leaves a log of exactly that one entry. *)
Theorem clear_then (st : server) (X Y d : string) (r : room) (stroke : jsobj) (now : Z) :
  rooms st !! d = Some r →
  let st1 := (clear_canvas X d st).1 in
  (clear_canvas Y d st1).1 = st1 ∧
  undo_stroke Y d st1 = (st1, []) ∧
  oplog (draw_stroke Y d stroke now st1).1 d = [log_entry Y now stroke].
Proof.
  intros Hr st1.
  assert (st1 = set_rooms (insert d (Room (users r) [])) st) as Hst1
    by (unfold st1, clear_canvas; by rewrite (room_slot_own _ _ _ Hr)).
  assert (rooms st1 !! d = Some (Room (users r) [])) as Hr1
    by (rewrite Hst1; cbn; by rewrite lookup_insert_eq).
  split; [|split].
  - unfold clear_canvas at 1. rewrite (room_slot_own _ _ _ Hr1). cbn [fst users].
    rewrite Hst1 at 1. by rewrite set_log_twice.
  - by apply (undo_stroke_none st1 Y d _ Hr1).
  - unfold draw_stroke. rewrite (room_slot_own _ _ _ Hr1). cbn [fst].
    by rewrite oplog_set_log.
Qed.

(** X5 — Strokes handled one after the other on an existing session are
    appended to its log in that order, each stamped with its sender and
    its time; the member list is as before. *)
Theorem draw_all_in_order (st : server) (d : string) (r : room)
    (ss : list (string * jsobj * Z)) :
  rooms st !! d = Some r →
  oplog (draw_all d ss st) d = strokes r ++ ((λ s, log_entry s.1.1 s.2 s.1.2) <$> ss) ∧
  members (draw_all d ss st) d = users r.
Proof.
  revert st r. induction ss as [|[[X stroke] now] ss IH]; intros st r Hr.
  - cbn. unfold oplog, members. by rewrite Hr, app_nil_r.
  - change (draw_all d ((X, stroke, now) :: ss) st)
      with (draw_all d ss (draw_stroke X d stroke now st).1).
    destruct (IH (draw_stroke X d stroke now st).1
                 (Room (users r) (strokes r ++ [log_entry X now stroke]))) as [Hlog Hmem].
    { unfold draw_stroke. rewrite (room_slot_own _ _ _ Hr). cbn.
      by rewrite lookup_insert_eq. }
    rewrite Hlog, Hmem. cbn. by rewrite <-app_assoc.
Qed.

(** ** Session ids *)

(** A session of the table after a join: it was there before, or it is
    the joined session and the join returned. *)
Lemma join_drawing_dom st X d uname d' :
  is_Some (rooms (join_drawing X d uname st).1 !! d') →
  is_Some (rooms st !! d') ∨
  (d' = d ∧ rooms st !! d = None ∧ room_slot st d ≠ Builtin).
Proof.
  intros [r' Hr'].
  assert (∀ r1, rooms (leave_previous X st).1 !! d' = Some r1 → is_Some (rooms st !! d'))
    as Hold.
  { intros r1 Hr1. destruct (leave_previous_sub st X d' r1 Hr1) as (r & Hr & _).
    by exists r. }
  destruct (decide (d' = d)) as [->|Hne].
  2:{ left. rewrite join_drawing_lookup_other in Hr' by done. by eapply Hold. }
  destruct (crashed (join_drawing X d uname st).1) eqn:Hc.
  { left. rewrite join_drawing_thrown in Hr' by done. by eapply Hold. }
  destruct (rooms st !! d) as [r|] eqn:Hr; [left; by exists r|]. right.
  split; [done|]. split; [done|].
  apply join_drawing_returns in Hc as [_ Hb]. intros Hslot. apply Hb.
  rewrite <-Hslot. apply room_slot_ext; [|apply leave_previous_builtins].
  by rewrite leave_previous_absent, Hr.
Qed.

(** The ids of the sessions of a reachable state are never property names
    of [Object.prototype]. *)
Lemma reachable_own_keys st d :
  reachable st → is_Some (rooms st !! d) → inherited d = false.
Proof.
  intros Hreach. revert d. induction Hreach as [|st ev Hreach IH [Hrun Hen]]; intros d.
  { cbn. rewrite lookup_empty. by intros [? ?]. }
  assert (∀ X d0 stroke now x y st',
            st' ∈ [(draw_stroke X d0 stroke now st).1; (undo_stroke X d0 st).1;
                   (clear_canvas X d0 st).1; (cursor_move X d0 x y st).1] →
            is_Some (rooms st' !! d) → inherited d = false) as Hlog.
  { intros X d0 stroke now x y st' [_ Hus]%log_event_users [r' Hr']. apply IH.
    specialize (Hus d). rewrite Hr' in Hus. by destruct (rooms st !! d). }
  destruct ev as [X|X d0 uname|X d0 stroke now|X d0 x y|X d0|X d0|X]; cbn [handle fst].
  - apply IH.
  - intros [Hold|(-> & Hd0 & Hb)]%join_drawing_dom; [by apply IH|].
    destruct (inherited d0) eqn:Hin; [|done].
    destruct Hb. by apply inherited_slot.
  - apply (Hlog X d0 stroke now JNull JNull). by left.
  - apply (Hlog X d0 ∅ 0%Z x y). do 3 right. by left.
  - apply (Hlog X d0 ∅ 0%Z JNull JNull). right. by left.
  - apply (Hlog X d0 ∅ 0%Z JNull JNull). do 2 right. by left.
  - rewrite disconnect_lookup. intros [r' Hr']. apply IH.
    by destruct (rooms st !! d).
Qed.

(** ** Session lifetime *)


Lemma joined_room_absent X d uname st :
  rooms st !! d = None →
  joined_room X d uname st = Room [User X (displayName uname X) (userColor 0)] [].
Proof. intros Hd. unfold joined_room. by rewrite Hd. Qed.


(** The claim C3 as stated fails for a join by a connection that is
    already in the session: the only member of [S] joins [S] again and [S]
    has one member afterwards, not two. *)
Lemma join_existing_counterexample :
  reachable solo_state ∧
  is_Some (rooms solo_state !! "S") ∧
  length (members solo_state "S") = 1 ∧
  ¬ (length (members (join_drawing "A" "S" None solo_state).1 "S")
       = S (length (members solo_state "S")) ∧
     oplog (join_drawing "A" "S" None solo_state).1 "S" = oplog solo_state "S").
Proof.
  split; [apply solo_state_reachable|].
  split; [vm_compute; by eexists|].
  split; [by vm_compute|].
  intros [Hlen _]. vm_compute in Hlen. discriminate.
Qed.

(** C3 — A join that returns, to a session id whose lookup in the table
    gives [undefined], creates the session with exactly one member, the
    joiner, and an empty log.  A join that returns, to an existing session
    with [N] members by a connection whose implicit leave does not leave
    that session (the first entry of [socket.rooms] other than its own id
    is another room, or is the empty-string room, which is never left),
    leaves it with [N + 1] members, the joiner last, and with its log
    unchanged.  On a reachable state a join of a connected socket returns
    in both cases: it throws only when the id resolves to a built-in
    object. *)
Theorem join_creates_or_joins (st : server) (X d : string) (uname : option string) :
  let st' := (join_drawing X d uname st).1 in
  (reachable st → enabled (Join X d uname) st →
   room_slot st d ≠ Builtin → left_room X st ≠ Some d → crashed st' = false) ∧
  (crashed st' = false → room_slot st d = Undefined →
   is_Some (rooms st' !! d) ∧
   members st' d = [User X (displayName uname X) (userColor 0)] ∧
   length (members st' d) = 1 ∧
   oplog st' d = []) ∧
  (∀ r, crashed st' = false → rooms st !! d = Some r →
   left_room X st ≠ Some d →
   length (members st' d) = S (length (users r)) ∧
   members st' d =
     users r ++ [User X (displayName uname X) (userColor (length (users r)))] ∧
   oplog st' d = strokes r).
Proof.
  cbn zeta. split; [|split].
  - intros Hreach [Hrun _] Hb Hleft. apply reachable_join_returns; [done|done|].
    by rewrite leave_previous_slot.
  - intros Hret Hd.
    assert (rooms st !! d = None) as Hnone by (apply room_slot_no_session; auto).
    unfold members, oplog. rewrite join_drawing_lookup by done.
    rewrite joined_room_absent by by apply leave_previous_absent.
    cbn. split; [by eexists|done].
  - intros r Hret Hr Hp.
    destruct (join_drawing_members st X d uname Hret Hp) as [Hm Hl].
    assert (members st d = users r) as Hmr by (unfold members; by rewrite Hr).
    assert (oplog st d = strokes r) as Hlr by (unfold oplog; by rewrite Hr).
    rewrite Hmr in Hm. rewrite Hlr in Hl.
    rewrite Hm, Hl, length_app. cbn [length]. split; [lia|done].
Qed.

(** The claim C4 as stated fails when the connection is the only member:
    the implicit leave deletes the session and the join creates it anew,
    so the log is empty afterwards. *)
Lemma rejoin_resets_log_counterexample :
  reachable solo_state ∧
  previousRoom "A" solo_state = Some "S" ∧
  (∃ u, u ∈ members solo_state "S" ∧ id u = "A") ∧
  oplog solo_state "S" = [log_entry "A" 0 ∅] ∧
  oplog (join_drawing "A" "S" None solo_state).1 "S" = [] ∧
  ¬ (length (members (join_drawing "A" "S" None solo_state).1 "S")
       = length (members solo_state "S") ∧
     oplog (join_drawing "A" "S" None solo_state).1 "S" = oplog solo_state "S").
Proof.
  split; [apply solo_state_reachable|].
  split; [by vm_compute|].
  split.
  { exists (User "A" "UserA" "#FF6B6B"). split; [|done].
    assert (members solo_state "S" = [User "A" "UserA" "#FF6B6B"]) as ->
      by by vm_compute.
    by left. }
  split; [by vm_compute|].
  split; [by vm_compute|].
  intros [_ Hlog]. vm_compute in Hlog. discriminate.
Qed.

(** C4 — For a connection that is already in session [S] (the room that
    its next join leaves is [S], so [S] is the first entry of
    [socket.rooms] other than its own id and is not the empty string, and
    the [users] array of [S] lists it), a repeated join to [S] that
    returns leaves the member count of [S] as it was and sends the
    connection a snapshot of the members and the log.  The log of [S] is
    unchanged when [S] has at least one other member; when the connection
    is the only member, the implicit leave deletes [S], the join creates
    it anew, and the log is empty afterwards.  On a reachable state the
    join returns when [S] has another member or is not named
    [strokes]. *)
Theorem rejoin_keeps_member_count (st : server) (X d : string)
    (uname : option string) (r : room) :
  left_room X st = Some d →
  rooms st !! d = Some r →
  (∃ u, u ∈ users r ∧ id u = X) →
  let st' := (join_drawing X d uname st).1 in
  (reachable st → crashed st = false →
   (2 ≤ length (users r))%nat ∨ d ≠ "strokes" → crashed st' = false) ∧
  (crashed st' = false →
   length (members st' d) = length (users r) ∧
   ((2 ≤ length (users r))%nat → oplog st' d = strokes r) ∧
   (length (users r) = 1 → oplog st' d = []) ∧
   (∃ out e, (join_drawing X d uname st).2 =
      out ++ [Emission (ToSocket X) (room_state (members st' d) (oplog st' d)) {[ X ]}; e])).
Proof.
  intros Hp Hr Hlisted st'.
  destruct (room_after_removal_listed X r Hlisted) as (us & Hlen & Hafter).
  assert (rooms (leave_previous X st).1 !! d =
          if decide (length us = 0) then None else Some (Room us (strokes r))) as Hst1
    by by rewrite leave_previous_same, Hr, Hafter.
  split.
  - intros Hreach Hrun Hcase. apply reachable_join_returns; [done|done|].
    case_decide as Hz.
    + destruct Hcase as [Hge|Hname]; [lia|].
      rewrite plain_slot, Hst1; [done|]. split; [|done].
      apply (reachable_own_keys st d Hreach). by exists r.
    + by rewrite (room_slot_own _ _ _ Hst1).
  - intros Hret.
    assert (rooms st' !! d =
            Some (Room (us ++ [User X (displayName uname X) (userColor (length us))])
                       (if decide (length us = 0) then [] else strokes r))) as Hst'.
    { unfold st'. rewrite join_drawing_lookup by done. unfold joined_room.
      rewrite Hst1. case_decide as Hz; [|done]. cbn.
      destruct us; [done|]. cbn in Hz. lia. }
    unfold members, oplog. rewrite Hst'. cbn [users strokes].
    split; [rewrite length_app; cbn; lia|].
    split; [intros Hge; rewrite decide_False; [done|lia]|].
    split; [intros Hone; rewrite decide_True; [done|lia]|].
    destruct (join_drawing_out st X d uname Hret) as (u & _ & Hout).
    fold st' in Hout. unfold members, oplog in Hout. rewrite Hst' in Hout.
    cbn [users strokes] in Hout. by eexists _, _.
Qed.

(** ** Sequential joins *)

(** A join whose joiner leaves a session with a plain name, or none,
    returns when the joined name does not resolve to a built-in
    object. *)
Lemma join_drawing_returns_plain st X d uname :
  crashed st = false →
  (∀ p, left_room X st = Some p → p ≠ d ∧ plain p) →
  room_slot st d ≠ Builtin →
  crashed (join_drawing X d uname st).1 = false.
Proof.
  intros Hrun Hleft Hb. apply join_drawing_returns. split.
  - rewrite leave_previous_crashed.
    destruct (left_room X st) as [p|]; [|done].
    destruct (Hleft p eq_refl) as [_ Hp]. rewrite (plain_slot st p Hp).
    by destruct (rooms st !! p).
  - rewrite leave_previous_slot; [done|].
    intros Hp. by destruct (Hleft d Hp).
Qed.

Lemma join_all_members d js st :
  crashed st = false →
  room_slot st d ≠ Builtin →
  NoDup js.*1 →
  (∀ j p, j ∈ js → left_room j.1 st = Some p → p ≠ d ∧ plain p) →
  crashed (join_all d js st) = false ∧
  members (join_all d js st) d =
    members st d ++
    imap (λ N j, User j.1 (displayName j.2 j.1) (userColor (length (members st d) + N))) js.
Proof.
  revert st. induction js as [|[X uname] js IH]; intros st Hrun Hb Hnd Hprev.
  { cbn. by rewrite app_nil_r. }
  rewrite fmap_cons in Hnd. apply NoDup_cons in Hnd as [HX Hnd].
  assert (crashed (join_drawing X d uname st).1 = false) as Hret.
  { apply join_drawing_returns_plain; [done| |done].
    intros p. apply (Hprev (X, uname)). by left. }
  destruct (join_drawing_members st X d uname Hret) as [Hm _].
  { intros Hp. destruct (Hprev (X, uname) d) as [Hne _]; [by left|done|done]. }
  change (join_all d ((X, uname) :: js) st)
    with (join_all d js (join_drawing X d uname st).1).
  destruct (IH (join_drawing X d uname st).1) as [Hrun' Hmem]; [done| |done| |].
  - rewrite (room_slot_own _ _ _ (join_drawing_lookup st X d uname Hret)). done.
  - intros j p Hj. rewrite (left_room_sockets st).
    + apply Hprev. by right.
    + apply join_drawing_sockets_other. intros Heq. apply HX.
      apply list_elem_of_fmap. by exists j.
  - split; [done|]. rewrite Hmem, Hm, <-app_assoc, length_app. f_equal.
    rewrite imap_cons. cbn [app fst snd length]. rewrite Nat.add_0_r. f_equal.
    apply imap_ext. intros i j _. unfold compose. cbn [length].
    do 2 f_equal. lia.
Qed.

(** ** Color allocation *)

Lemma colors_lookup n : colors !! (n mod 8) = Some (userColor n).
Proof.
  unfold userColor. change (length colors) with 8.
  assert (n mod 8 < 8) as Hlt by (apply Nat.mod_upper_bound; lia).
  generalize dependent (n mod 8). intros k Hlt.
  do 8 (destruct k as [|k]; [reflexivity|]).
  lia.
Qed.

(** C6 — The palette has 8 entries and a member pushed by a join gets
    [palette[n mod 8]], where [n] is the length of the session's [users]
    array at the moment the new entry is pushed; nothing else enters the
    choice.  When connections join a session one after the other,
    starting from a running server in which the lookup of the session id
    gives [undefined], each of them leaving no session or one with a plain
    name other than this one, the [N]th of them (counting from 0) is the
    [N]th member and has color [palette[N mod 8]]. *)
Theorem color_by_occupancy :
  length colors = 8 ∧
  (∀ n, colors !! (n mod 8) = Some (userColor n)) ∧
  (∀ st X d uname,
     crashed (join_drawing X d uname st).1 = false →
     ∃ u, last (members (join_drawing X d uname st).1 d) = Some u ∧
          id u = X ∧
          color u = userColor (length (members (leave_previous X st).1 d))) ∧
  (∀ st d (js : list (string * option string)),
     crashed st = false →
     room_slot st d = Undefined →
     NoDup js.*1 →
     (∀ j p, j ∈ js → left_room j.1 st = Some p → p ≠ d ∧ plain p) →
     crashed (join_all d js st) = false ∧
     length (members (join_all d js st) d) = length js ∧
     ∀ N u, members (join_all d js st) d !! N = Some u →
       (∃ j, js !! N = Some j ∧ id u = j.1) ∧
       colors !! (N mod 8) = Some (color u)).
Proof.
  split; [done|]. split; [apply colors_lookup|]. split.
  - intros st X d uname Hret. unfold members at 1. rewrite join_drawing_lookup by done.
    unfold joined_room. cbn [users]. eexists. split; [apply last_snoc|].
    split; [done|]. cbn [color]. unfold members.
    by destruct (rooms (leave_previous X st).1 !! d).
  - intros st d js Hrun Hd Hnd Hprev.
    assert (rooms st !! d = None) as Hnone by (apply room_slot_no_session; auto).
    destruct (join_all_members d js st Hrun) as [Hrun' Hmem]; [by rewrite Hd|done|done|].
    split; [done|]. rewrite Hmem.
    unfold members at 1 3 4. rewrite Hnone. cbn [app length].
    split; [apply length_imap|].
    intros N u. rewrite list_lookup_imap.
    destruct (js !! N) as [j|]; [|done]. cbn. intros [= <-]. cbn.
    split; [by exists j|]. apply colors_lookup.
Qed.

(** ** Members and Socket.IO rooms *)

Lemma leave_previous_alive st X :
  crashed (leave_previous X st).1 = false → crashed st = false.
Proof.
  rewrite leave_previous_crashed.
  destruct (left_room X st) as [p|]; [|done]. by destruct (room_slot st p).
Qed.

Lemma join_drawing_alive st X d uname :
  crashed (join_drawing X d uname st).1 = false → crashed st = false.
Proof. intros [Hc _]%join_drawing_returns. by eapply leave_previous_alive. Qed.

(** A socket that is not in the room [''] is alone in its own room after
    the implicit leave. *)
Lemma leave_previous_alone st X l :
  inv st → sockets st !! X = Some l → previousRoom X st ≠ Some "" →
  sockets (leave_previous X st).1 !! X = Some [X].
Proof.
  intros Hinv Hl Hp. rewrite leave_previous_sockets_self.
  destruct (inv_shape _ Hinv X l Hl) as [->|[(p & HpX & Hp' & ->)|(k & HX & ->)]].
  - assert (left_room X st = None) as ->
      by (apply left_room_None; left; by apply previousRoom_alone).
    done.
  - assert (left_room X st = Some p) as ->.
    { apply left_room_Some. split; [|done]. by apply (previousRoom_joined st X p []). }
    rewrite Hl. cbn [fmap option_fmap option_map].
    rewrite filter_cons_True by done.
    by rewrite filter_cons_False by (intros ?; done).
  - destruct Hp. apply (previousRoom_joined st X "" k); [done|congruence].
Qed.

(** X6 — On a reachable state a connected socket that is listed in a
    session is in the Socket.IO room of that name.  While the process
    runs, a socket that is in a room other than the one of its own id is
    listed in the session of that name, and it is listed exactly once
    there when its rooms are its own id and that one room, not named by
    the empty string. *)
Theorem members_match_rooms (st : server) (X d : string) :
  reachable st →
  (listed st X d → is_Some (sockets st !! X) → X ∈ room_sockets (sockets st) d) ∧
  (crashed st = false → X ≠ d → X ∈ room_sockets (sockets st) d → listed st X d) ∧
  (crashed st = false → X ≠ d → d ≠ "" → sockets st !! X = Some [X; d] →
   entries X (members st d) = 1).
Proof.
  intros Hreach. pose proof (reachable_inv st Hreach) as Hinv.
  pose proof (reachable_joined_listed st Hreach) as Hjl.
  split; [|split].
  - intros Hl HX. by apply listed_in_room.
  - intros Hrun Hne (l & Hl & Hd)%elem_of_room_sockets. by apply (Hjl Hrun X d l).
  - intros Hrun Hne Hd HX.
    assert (listed st X d) as (r & u & Hr & Hu & Hid).
    { apply (Hjl Hrun X d [X; d]); [done| |congruence]. right. by left. }
    unfold members. rewrite Hr.
    pose proof (inv_once _ Hinv X d r HX) as Hle.
    pose proof (entries_pos X (users r) u Hu Hid).
    assert (entries X (users r) ≤ 1)%nat by (apply Hle; congruence). lia.
Qed.

(** X7 — On a reachable state, after a join that returns of a connected
    socket that is not in the room [''] to a session [d] other than its
    own id, its [socket.rooms] is its own id followed by [d], it is listed
    in [d] and in no other session (the one named by its own id apart),
    and the rooms of every other socket are as before. *)
Theorem join_single_membership (st : server) (X d : string) (uname : option string) :
  reachable st → enabled (Join X d uname) st → X ≠ d →
  previousRoom X st ≠ Some "" →
  let st' := (join_drawing X d uname st).1 in
  crashed st' = false →
  sockets st' !! X = Some [X; d] ∧
  (∀ d', d' ≠ X → listed st' X d' ↔ d' = d) ∧
  (∀ Y, Y ≠ X → sockets st' !! Y = sockets st !! Y).
Proof.
  intros Hreach Hen Hne Hp st' Hret.
  pose proof Hen as [Hrun [l Hl]].
  assert (reachable st') as Hreach'
    by exact (reachable_step st (Join X d uname) Hreach Hen).
  pose proof (reachable_inv st' Hreach') as Hinv'.
  assert (sockets st' !! X = Some [X; d]) as Hs.
  { unfold st'. rewrite join_drawing_state by done. cbn.
    rewrite lookup_alter_eq.
    rewrite (leave_previous_alone st X l) by (done || by apply reachable_inv).
    cbn. rewrite decide_False; [done|].
    intros Hin%list_elem_of_singleton. done. }
  split; [done|]. split.
  - intros d' Hd'. split.
    + intros Hl'. pose proof (inv_joined _ Hinv' X d' _ Hl' Hs) as Hin.
      apply elem_of_cons in Hin as [->|Hin]; [done|].
      by apply list_elem_of_singleton in Hin.
    + intros ->. unfold st'. rewrite join_drawing_state by done.
      apply entered_listed_self.
  - intros Y HY. by apply join_drawing_sockets_other.
Qed.

(** X8 — A join to [d] that returns, by a connection whose implicit leave
    does not leave [d], sends, after the messages of the implicit leave, a
    [room-state] snapshot to the joiner alone, holding the old members
    followed by the joiner and the old log unchanged, and a [user-joined]
    message with [socket.to(d)]: every other socket receives it exactly
    when it was in the room [d] and not in the room named by the joiner's
    id; on a reachable state the joiner does not receive it. *)
Theorem join_snapshot (st : server) (X d : string) (uname : option string) :
  left_room X st ≠ Some d →
  let st' := (join_drawing X d uname st).1 in
  crashed st' = false →
  let u := User X (displayName uname X) (userColor (length (members st d))) in
  let rcv := room_sockets (sockets st') d ∖ room_sockets (sockets st') X in
  (join_drawing X d uname st).2 =
    (leave_previous X st).2 ++
    [Emission (ToSocket X) (room_state (members st d ++ [u]) (oplog st d)) {[ X ]};
     Emission (ToRoomExcept d X) (user_joined u) rcv] ∧
  (∀ Y, Y ≠ X →
     Y ∈ rcv ↔ Y ∈ room_sockets (sockets st) d ∧ Y ∉ room_sockets (sockets st) X) ∧
  (reachable st → is_Some (sockets st !! X) → X ∉ rcv).
Proof.
  intros Hp st' Hret u rcv.
  destruct (join_drawing_out st X d uname Hret) as (v & Hlast & Hout).
  destruct (join_drawing_members st X d uname Hret Hp) as [Hm Hl].
  fold st' in Hout, Hm, Hl, Hlast. rewrite Hm, last_snoc in Hlast.
  injection Hlast as <-. rewrite Hm, Hl in Hout.
  split; [exact Hout|]. split.
  - intros Y HY. unfold rcv.
    rewrite elem_of_difference, !elem_of_room_sockets.
    unfold st'. rewrite join_drawing_sockets_other by done. done.
  - intros Hreach HX. apply sender_excluded.
    apply reachable_own_room.
    apply (reachable_step st (Join X d uname) Hreach).
    split; [by eapply join_drawing_alive|done].
Qed.



(** ** Disconnection *)

Lemma entries_members_removal st st' X Y d :
  rooms st' !! d = room_after_removal X (rooms st !! d) →
  entries Y (members st' d) =
    if decide (Y = X) then pred (entries Y (members st d)) else entries Y (members st d).
Proof.
  intros Hst'. unfold members. rewrite Hst'.
  destruct (rooms st !! d) as [r|] eqn:Hr; [|by case_decide].
  destruct (room_after_removal X (Some r)) as [r'|] eqn:Hr'.
  - apply room_after_removal_sub in Hr' as (_ & _ & _ & Hcount & Hsame).
    case_decide as HY; [by subst|by apply Hsame].
  - apply room_after_removal_deleted in Hr' as (u & Hus & Hu). rewrite Hus.
    rewrite entries_cons. change (entries Y []) with 0.
    repeat case_decide; subst; done.
Qed.

(** X10 — A disconnect of [X] removes its socket; every other connection
    is listed exactly where it was; a session that survives keeps its log;
    a session that does not list [X] is untouched; in every session the
    entries of [X] are one fewer than before, when there were any, and
    those of every other connection as many as before.  On a reachable
    state, when the socket of [X] was not in the room [''], [X] is
    afterwards listed in no session, the one named by its own id
    apart. *)
Theorem disconnect_effect (st : server) (X : string) :
  let st' := (disconnect X st).1 in
  sockets st' = delete X (sockets st) ∧
  (∀ Y d, Y ≠ X → listed st' Y d ↔ listed st Y d) ∧
  (∀ d r', rooms st' !! d = Some r' →
     ∃ r, rooms st !! d = Some r ∧ strokes r' = strokes r) ∧
  (∀ d, ¬ listed st X d → rooms st' !! d = rooms st !! d) ∧
  (∀ Y d, entries Y (members st' d) =
     if decide (Y = X) then pred (entries Y (members st d))
     else entries Y (members st d)) ∧
  (reachable st → is_Some (sockets st !! X) → previousRoom X st ≠ Some "" →
   ∀ d, d ≠ X → ¬ listed st' X d).
Proof.
  intros st'. split; [apply disconnect_sockets|].
  split; [|split; [|split; [|split]]].
  - intros Y d HY. split; [apply disconnect_listed|by apply disconnect_listed_other].
  - intros d r' Hr'. unfold st' in Hr'. rewrite disconnect_lookup in Hr'.
    destruct (rooms st !! d) as [r|] eqn:Hr; [|done].
    apply room_after_removal_sub in Hr' as (Hlog & _). by exists r.
  - intros d Hn. unfold st'. rewrite disconnect_lookup.
    destruct (rooms st !! d) as [r|] eqn:Hr; [|done].
    destruct (room_after_removal_cases X r)
      as [[_ ->]|(l1 & u & l2 & Hus & Hu & _ & _)]; [done|].
    destruct Hn. exists r, u. split; [done|]. split; [|done].
    rewrite Hus. apply elem_of_app. right. by left.
  - intros Y d. apply entries_members_removal. apply disconnect_lookup.
  - intros Hreach [l HX] Hp d Hne Hl.
    pose proof (reachable_inv st Hreach) as Hinv.
    assert (listed st X d) as Hbefore by by eapply disconnect_listed.
    pose proof (inv_joined _ Hinv X d l Hbefore HX) as Hin.
    destruct (inv_shape _ Hinv X l HX) as [->|[(p & HpX & Hp' & ->)|(k & HXe & ->)]].
    + apply list_elem_of_singleton in Hin. done.
    + apply elem_of_cons in Hin as [->|Hin]; [done|].
      apply list_elem_of_singleton in Hin as ->.
      revert Hl. apply (listed_after_removal_gone st _ X p); [apply disconnect_lookup|].
      intros r Hr. by apply (inv_once _ Hinv X p r).
    + destruct Hp. apply (previousRoom_joined st X "" k); [done|congruence].
Qed.

Lemma disconnect_loop_out X st (ks : list string) st0 out :
  sockets st0 = delete X (sockets st) →
  (∀ d u, u ∈ members st0 d → u ∈ members st d) →
  Forall (left_message st X) out →
  Forall (left_message st X) (foldl (remove_from X) (st0, out) ks).2.
Proof.
  revert st0 out. induction ks as [|k ks IH]; intros st0 out Hs Hsub Hout; [done|].
  cbn [foldl]. rewrite remove_from_eq. apply IH.
  - by rewrite removeUserFromRoom_sockets.
  - intros d u Hu. apply Hsub. unfold members in Hu |- *.
    destruct (decide (d = k)) as [->|Hne].
    + rewrite removeUserFromRoom_lookup in Hu.
      destruct (room_after_removal X (rooms st0 !! k)) as [r'|] eqn:Hr';
        [|by apply elem_of_nil in Hu].
      destruct (rooms st0 !! k) as [r|] eqn:Hr; [|done].
      apply room_after_removal_sub in Hr' as (_ & Hin & _). by apply Hin.
    + by rewrite removeUserFromRoom_other in Hu.
  - apply Forall_app. split; [done|].
    destruct (removeUserFromRoom_cases st0 k X)
      as [[_ ->]|[(_ & _ & ->)|(r & l1 & u & l2 & Hr & Hus & Hu & _ & ->)]];
      [done|done|].
    apply Forall_singleton. exists k, u.
    assert (u ∈ members st k) as Hin.
    { apply Hsub. unfold members. rewrite Hr, Hus.
      apply elem_of_app. right. by left. }
    split; [|split; [done|split; [done|]]].
    + unfold members in Hin. destruct (rooms st !! k); [done|].
      by apply elem_of_nil in Hin.
    + unfold emit. cbn. by rewrite Hs.
Qed.

(** X11 — Every message of a disconnect of [X] is a [user-left] of [X],
    sent with [io.to] to a session that listed [X] and carrying the name
    of an entry of [X] there; [X] never receives it, and every other
    socket receives it exactly when it is in the room of that session. *)
Theorem disconnect_messages (st : server) (X : string) :
  Forall (λ e, ∃ d u,
            u ∈ members st d ∧ id u = X ∧
            em_target e = ToRoom d ∧
            em_message e = user_left X (username u) ∧
            (X ∉ em_to e) ∧
            (∀ Y, Y ≠ X → Y ∈ em_to e ↔ Y ∈ room_sockets (sockets st) d))
         (disconnect X st).2.
Proof.
  eapply Forall_impl.
  - unfold disconnect. apply (disconnect_loop_out X st); [done|done|].
    by apply Forall_nil.
  - intros e (d & u & _ & Hu & Hid & ->). exists d, u. cbn.
    split; [done|]. split; [done|]. split; [done|]. split; [done|].
    split.
    + rewrite elem_of_room_sockets, lookup_delete_eq.
      intros (l & Hl & _). discriminate.
    + intros Y HY. by rewrite !elem_of_room_sockets, lookup_delete_ne.
Qed.

(** ** Removal of one member *)

(** X12 — [removeUserFromRoom] throws when the name resolves to a
    built-in object.  Otherwise it does nothing and sends nothing when the
    connection is not listed in the session (or the session is absent).
    When it is listed, exactly its first entry goes: the member list
    [l1 ++ u :: l2], with [u] the first entry of that connection, becomes
    [l1 ++ l2]; the log stays while a member is left and the session is
    deleted otherwise; and one [user-left] with the name of the removed
    entry goes to the sockets of the room.  No other session and no socket
    changes. *)
Theorem removeUserFromRoom_exact (st : server) (d X : string) :
  let st' := (removeUserFromRoom d X st).1 in
  (room_slot st d = Builtin → removeUserFromRoom d X st = (crash st, [])) ∧
  (room_slot st d ≠ Builtin → ¬ listed st X d → removeUserFromRoom d X st = (st, [])) ∧
  (listed st X d →
   ∃ l1 u l2,
     members st d = l1 ++ u :: l2 ∧ id u = X ∧ Forall (λ v, id v ≠ X) l1 ∧
     members st' d = l1 ++ l2 ∧
     (l1 ++ l2 ≠ [] → is_Some (rooms st' !! d) ∧ oplog st' d = oplog st d) ∧
     (l1 ++ l2 = [] → rooms st' !! d = None) ∧
     (removeUserFromRoom d X st).2 =
       [Emission (ToRoom d) (user_left X (username u))
                 (room_sockets (sockets st) d)]) ∧
  (∀ d', d' ≠ d → rooms st' !! d' = rooms st !! d') ∧
  sockets st' = sockets st.
Proof.
  intros st'.
  split; [|split; [|split; [|split; [intros d' Hd'; by apply removeUserFromRoom_other
                                    |apply removeUserFromRoom_sockets]]]].
  - intros Hb.
    destruct (removeUserFromRoom_cases st d X)
      as [[_ ->]|[(Hnb & _)|(r & _ & _ & _ & Hr & _)]]; [done|done|].
    by rewrite (room_slot_own _ _ _ Hr) in Hb.
  - intros Hnb Hn.
    destruct (removeUserFromRoom_cases st d X)
      as [[Hb _]|[(_ & _ & ->)|(r & l1 & u & l2 & Hr & Hus & Hu & _)]]; [done|done|].
    destruct Hn. exists r, u. split; [done|]. split; [|done].
    rewrite Hus. apply elem_of_app. right. by left.
  - intros Hl.
    destruct (removeUserFromRoom_cases st d X)
      as [[Hb _]|[(_ & Hn & _)|(r & l1 & u & l2 & Hr & Hus & Hu & Hl1 & Hrem)]].
    { destruct Hl as (r & _ & Hr & _). by rewrite (room_slot_own _ _ _ Hr) in Hb. }
    { done. }
    exists l1, u, l2. unfold st', members, oplog. rewrite Hrem. cbn [fst snd].
    rewrite after_removal_same, Hr, Hus.
    split; [done|]. split; [done|]. split; [done|].
    case_decide as Hz.
    + rewrite (nil_length_inv _ Hz). by repeat split.
    + cbn [users strokes]. split; [done|]. split; [by split|].
      split; [|done]. intros Heq. by rewrite Heq in Hz.
Qed.

(** ** The session named by a connection's own id *)

Lemma join_own_room st X uname :
  sockets st !! X = Some [X] → crashed st = false → room_slot st X ≠ Builtin →
  crashed (join_drawing X X uname st).1 = false ∧
  sockets (join_drawing X X uname st).1 !! X = Some [X] ∧
  rooms (join_drawing X X uname st).1 !! X = Some (joined_room X X uname st).
Proof.
  intros HX Hrun Hb.
  assert (leave_previous X st = (st, [])) as Hleave.
  { rewrite leave_previous_eq.
    assert (left_room X st = None) as ->
      by (apply left_room_None; left; by apply previousRoom_alone).
    done. }
  assert (crashed (join_drawing X X uname st).1 = false) as Hret
    by (apply join_drawing_returns; by rewrite Hleave).
  split; [done|]. rewrite join_drawing_state by done. rewrite Hleave. cbn.
  rewrite lookup_alter_eq, HX, lookup_insert_eq.
  split; [|done]. cbn. rewrite decide_True; [done|]. by left.
Qed.

(** X13 — A connection whose id is not a property name of
    [Object.prototype] and that joins the session named by its own id
    twice and then disconnects is still listed in that session: the state
    is reachable, the socket is gone, and the session is left with the
    second entry of the connection.  (The handler never leaves the room of
    the socket's own id, and the disconnect removes one entry per
    session.) *)
Theorem own_room_entry_survives (X : string) (n1 n2 : option string) :
  inherited X = false →
  let st := run (own_room_events X n1 n2) initial in
  reachable st ∧
  sockets st !! X = None ∧
  rooms st !! X = Some (Room [User X (displayName n2 X) (userColor 1)] []).
Proof.
  intros HXp.
  set (s1 := connect X initial).
  set (s2 := (join_drawing X X n1 s1).1).
  set (s3 := (join_drawing X X n2 s2).1).
  assert (sockets s1 !! X = Some [X]) as H1 by (cbn; by rewrite lookup_insert_eq).
  assert (room_slot s1 X = Undefined) as B1.
  { unfold room_slot, s1. cbn. by rewrite !lookup_empty, HXp. }
  destruct (join_own_room s1 X n1 H1) as (C2 & H2 & R2); [done|by rewrite B1|].
  fold s2 in C2, H2, R2.
  destruct (join_own_room s2 X n2 H2) as (C3 & H3 & R3);
    [done|by rewrite (room_slot_own _ _ _ R2)|].
  fold s3 in C3, H3, R3.
  change (run (own_room_events X n1 n2) initial) with (disconnect X s3).1.
  cbn zeta. split; [|split].
  - apply (reachable_step s3 (Disconnect X)); [|split; [done|by eexists]].
    apply (reachable_step s2 (Join X X n2)); [|split; [done|by eexists]].
    apply (reachable_step s1 (Join X X n1)); [|split; [done|by eexists]].
    apply (reachable_step initial (Connect X)); [apply reachable_initial|].
    split; [done|]. by apply fresh_id_empty.
  - by rewrite disconnect_sockets, lookup_delete_eq.
  - assert (joined_room X X n1 s1 = Room [User X (displayName n1 X) (userColor 0)] [])
      as E2.
    { unfold joined_room, s1. cbn [rooms connect set_sockets initial].
      by rewrite lookup_empty. }
    assert (joined_room X X n2 s2 =
            Room [User X (displayName n1 X) (userColor 0);
                  User X (displayName n2 X) (userColor 1)] []) as E3.
    { unfold joined_room. by rewrite R2, E2. }
    rewrite disconnect_lookup, R3, E3.
    destruct (room_after_removal_cases X
                (Room [User X (displayName n1 X) (userColor 0);
                       User X (displayName n2 X) (userColor 1)] []))
      as [[Hall _]|(l1 & u & l2 & Hus & _ & Hl1 & ->)].
    + apply Forall_cons in Hall as [Hne _]. done.
    + cbn [users strokes] in Hus. destruct l1 as [|v l1].
      * injection Hus as <- <-. done.
      * injection Hus as <- _. apply Forall_cons in Hl1 as [Hne _]. done.
Qed.

(** For a connection whose id is a property name of [Object.prototype]
    the first of these joins throws and no session is made. *)
Lemma own_room_inherited_id :
  crashed (run [Connect "toString"; Join "toString" "toString" None] initial) = true ∧
  rooms (run [Connect "toString"; Join "toString" "toString" None] initial) = ∅.
Proof. split; vm_compute; reflexivity. Qed.

(** ** Colors and names of the members *)

Lemma userColor_prefix n :
  (n ≤ 8)%nat → userColor <$> seq 0 n = take n colors.
Proof.
  intros Hn. do 9 (destruct n as [|n]; [reflexivity|]). lia.
Qed.

Lemma color_imap (js : list (string * option string)) k :
  color <$> imap (λ N j, User j.1 (displayName j.2 j.1) (userColor (k + N))) js
  = userColor <$> seq k (length js).
Proof.
  revert k. induction js as [|j js IH]; intros k; [done|].
  rewrite imap_cons. cbn [fmap list_fmap length seq color]. rewrite Nat.add_0_r.
  f_equal. rewrite <-(IH (S k)). f_equal. apply imap_ext. intros i x _.
  unfold compose. do 2 f_equal. lia.
Qed.

(** X14 — When at most eight connections join a session one after the
    other, starting from a running server in which the lookup of the
    session id gives [undefined], each of them leaving no session or one
    with a plain name other than this one, their colors are the first
    entries of the palette in order, so they are pairwise distinct. *)
Theorem first_eight_distinct (st : server) (d : string)
    (js : list (string * option string)) :
  crashed st = false →
  room_slot st d = Undefined →
  NoDup js.*1 →
  (∀ j p, j ∈ js → left_room j.1 st = Some p → p ≠ d ∧ plain p) →
  (length js ≤ 8)%nat →
  color <$> members (join_all d js st) d = take (length js) colors ∧
  NoDup (color <$> members (join_all d js st) d).
Proof.
  intros Hrun Hd Hnd Hprev Hlen.
  assert (rooms st !! d = None) as Hnone by (apply room_slot_no_session; auto).
  assert (color <$> members (join_all d js st) d = take (length js) colors) as Hcol.
  { destruct (join_all_members d js st Hrun) as [_ ->]; [by rewrite Hd|done|done|].
    unfold members at 1 2. rewrite Hnone. cbn [app length].
    rewrite (color_imap js 0). by apply userColor_prefix. }
  split; [done|]. rewrite Hcol.
  apply (sublist_NoDup _ colors); [|apply sublist_take].
  refine (bool_decide_unpack _ _). vm_compute. exact I.
Qed.

(** A session of the table after a join: it was there before, with the
    same log and at most the joiner as new member, or it is the joined
    session with the joiner alone and an empty log, and then it was absent
    before or the joiner was its only member and the join left it. *)
Lemma join_drawing_room st X d uname d' r' :
  rooms (join_drawing X d uname st).1 !! d' = Some r' →
  (∃ r, rooms st !! d' = Some r ∧ strokes r' = strokes r ∧
        ∀ v, v ∈ users r' →
          v ∈ users r ∨ (d' = d ∧ ∃ n, v = User X (displayName uname X) (userColor n))) ∨
  (d' = d ∧ r' = Room [User X (displayName uname X) (userColor 0)] [] ∧
   (rooms st !! d = None ∨
    (left_room X st = Some d ∧ ∃ r u, rooms st !! d = Some r ∧ users r = [u] ∧ id u = X))).
Proof.
  assert (∀ r1, rooms (leave_previous X st).1 !! d' = Some r1 →
            ∃ r, rooms st !! d' = Some r ∧ strokes r1 = strokes r ∧
                 ∀ v, v ∈ users r1 →
                   v ∈ users r ∨
                   (d' = d ∧ ∃ n, v = User X (displayName uname X) (userColor n))) as Hold.
  { intros r1 Hr1. destruct (leave_previous_sub st X d' r1 Hr1) as (r & Hr & Hlog & Hsub).
    exists r. split; [done|]. split; [done|]. intros v Hv. left. by apply Hsub. }
  destruct (decide (d' = d)) as [->|Hne].
  2:{ rewrite join_drawing_lookup_other by done. intros Hr'. left. by apply Hold. }
  destruct (crashed (join_drawing X d uname st).1) eqn:Hc.
  { rewrite join_drawing_thrown by done. intros Hr'. left. by apply Hold. }
  rewrite join_drawing_lookup by done. intros [= <-]. unfold joined_room.
  destruct (rooms (leave_previous X st).1 !! d) as [r1|] eqn:Hr1.
  - left. destruct (leave_previous_sub st X d r1 Hr1) as (r & Hr & Hlog & Hsub).
    exists r. split; [done|]. split; [done|].
    intros v [Hv|Hv]%elem_of_app; [left; by apply Hsub|].
    right. apply list_elem_of_singleton in Hv. split; [done|]. by eexists.
  - right. split; [done|]. split; [done|].
    destruct (rooms st !! d) as [r|] eqn:Hr; [|by left]. right.
    destruct (decide (left_room X st = Some d)) as [Hp|Hp].
    + split; [done|]. rewrite leave_previous_same, Hr in Hr1 by done.
      apply room_after_removal_deleted in Hr1 as (u & Hus & Hu). by exists r, u.
    + rewrite leave_previous_other in Hr1 by done. congruence.
Qed.

(** X16 — After a join, every session of the table either was in the
    table before, with the same log, or is the joined session with an
    empty log and the joiner as only member.  The second case arises only
    when the session was absent before, or when the joiner was its only
    member and the join left it first: then the session is created anew
    and its old log is lost. *)
Theorem join_keeps_logs (st : server) (X d : string) (uname : option string)
    (d' : string) (r' : room) :
  rooms (join_drawing X d uname st).1 !! d' = Some r' →
  (∃ r, rooms st !! d' = Some r ∧ strokes r' = strokes r) ∨
  (d' = d ∧ strokes r' = [] ∧
   users r' = [User X (displayName uname X) (userColor 0)] ∧
   (rooms st !! d = None ∨
    (left_room X st = Some d ∧ ∃ r u, rooms st !! d = Some r ∧ users r = [u] ∧ id u = X))).
Proof.
  intros [(r & Hr & Hlog & _)|(-> & -> & Hcase)]%join_drawing_room.
  - left. by exists r.
  - by right.
Qed.

Lemma displayName_nonempty uname X : displayName uname X ≠ "".
Proof. by destruct uname as [[|c s]|]. Qed.

Lemma userColor_palette n : userColor n ∈ colors.
Proof. eapply list_elem_of_lookup_2. apply colors_lookup. Qed.

Lemma reachable_members_built st : reachable st → members_built st.
Proof.
  induction 1 as [|st ev Hreach IH Hen].
  { intros d u Hu. unfold members in Hu. cbn in Hu.
    rewrite lookup_empty in Hu. by apply elem_of_nil in Hu. }
  assert (∀ X d stroke now x y st',
            st' ∈ [(draw_stroke X d stroke now st).1; (undo_stroke X d st).1;
                   (clear_canvas X d st).1; (cursor_move X d x y st).1] →
            members_built st') as Hlog.
  { intros X d stroke now x y st' [_ Hus]%log_event_users d' u.
    rewrite (members_users st st' d') by done. apply IH. }
  destruct ev as [X|X d uname|X d stroke now|X d x y|X d|X d|X]; cbn [handle fst].
  - exact IH.
  - intros d' u Hu. unfold members in Hu.
    destruct (rooms (join_drawing X d uname st).1 !! d') as [r'|] eqn:Hr';
      [|by apply elem_of_nil in Hu].
    apply join_drawing_room in Hr' as [(r & Hr & _ & Hsub)|(-> & -> & _)].
    + destruct (Hsub u Hu) as [Hin|(_ & n & ->)].
      * apply (IH d'). unfold members. by rewrite Hr.
      * split; [apply displayName_nonempty|apply userColor_palette].
    + apply list_elem_of_singleton in Hu as ->.
      split; [apply displayName_nonempty|apply userColor_palette].
  - apply (Hlog X d stroke now JNull JNull). by left.
  - apply (Hlog X d ∅ 0%Z x y). do 3 right. by left.
  - apply (Hlog X d ∅ 0%Z JNull JNull). right. by left.
  - apply (Hlog X d ∅ 0%Z JNull JNull). do 2 right. by left.
  - intros d' u Hu. unfold members in Hu. rewrite disconnect_lookup in Hu.
    destruct (room_after_removal X (rooms st !! d')) as [r'|] eqn:Hr';
      [|by apply elem_of_nil in Hu].
    destruct (rooms st !! d') as [r|] eqn:Hr; [|done].
    apply room_after_removal_sub in Hr' as (_ & Hsub & _).
    apply (IH d'). unfold members. rewrite Hr. by apply Hsub.
Qed.

(** X15 — On a reachable state every listed member has a non-empty
    display name and a color of the palette. *)
Theorem members_named_and_colored (st : server) (d : string) (u : user) :
  reachable st → u ∈ members st d →
  username u ≠ "" ∧ color u ∈ colors.
Proof. intros Hreach. by apply reachable_members_built. Qed.

(** ** The health route *)

(** X17 — On a reachable state the room count of [/health] is [0] exactly
    when no connection is listed in any session, and a stroke, undo, clear
    or cursor event never changes it. *)
Theorem health_counts_sessions (st : server) :
  reachable st →
  (health st = 0 ↔ ∀ X d, ¬ listed st X d) ∧
  (∀ X d stroke now x y st',
     st' ∈ [(draw_stroke X d stroke now st).1; (undo_stroke X d st).1;
            (clear_canvas X d st).1; (cursor_move X d x y st).1] →
     health st' = health st).
Proof.
  intros Hreach. pose proof (reachable_inv st Hreach) as Hinv. split.
  - unfold health. rewrite map_size_empty_iff. split.
    + intros Hempty X d (r & u & Hr & _). by rewrite Hempty, lookup_empty in Hr.
    + intros Hnone. apply map_empty. intros d.
      destruct (rooms st !! d) as [r|] eqn:Hr; [|done].
      pose proof (inv_nonempty _ Hinv d r Hr) as Hne.
      destruct (users r) as [|u us] eqn:Hus; [done|].
      destruct (Hnone (id u) d). exists r, u. rewrite Hus.
      split; [done|]. split; [by left|done].
  - intros X d stroke now x y st' Hst'. unfold health.
    destruct (log_event_cases _ _ _ _ _ _ _ _ Hst') as [_ [->|(r & ss & Hr & Hrs)]];
      [done|].
    destruct (set_log_frame _ _ d r ss Hr Hrs) as (_ & _ & Hdom).
    by rewrite <-!size_dom, Hdom.
Qed.

(** ** Names that resolve through the prototype *)

Lemma room_slot_undefined st d :
  rooms st !! d = None → inherited d = false →
  (d = "strokes" → builtins st !! "__proto__" = None) →
  room_slot st d = Undefined.
Proof.
  intros Hd Hin Hs. unfold room_slot. rewrite Hd, Hin.
  destruct (builtins st !! "__proto__") eqn:Hb; [|done].
  case_decide as Hname; [|done]. specialize (Hs Hname). congruence.
Qed.

(** X23 — On a session id that the table does not hold, that is not a
    property name of [Object.prototype], and that is not [strokes] after a
    [clear-canvas] has written on [Object.prototype], the handlers
    [draw-stroke], [undo-stroke], [clear-canvas] and [cursor-move] leave
    the whole state unchanged and send nothing. *)
Theorem undefined_session_noop (st : server) (sid d : string) :
  rooms st !! d = None → inherited d = false →
  (d = "strokes" → builtins st !! "__proto__" = None) →
  (∀ stroke now, draw_stroke sid d stroke now st = (st, [])) ∧
  undo_stroke sid d st = (st, []) ∧
  clear_canvas sid d st = (st, []) ∧
  (∀ x y, cursor_move sid d x y st = (st, [])).
Proof.
  intros Hd Hin Hs. apply undefined_noop. by apply room_slot_undefined.
Qed.

(** X24 — [draw-stroke] on an existing session appends one entry to the
    session's log and sends one [stroke-drawn] message with
    [socket.to(drawingId)]: the receivers are the sockets of the session's
    room that are not in the room named by the sender's id.  On a
    reachable state the sender never receives it, every other connected
    listed member that is not in the room named by the sender's id does,
    and, while the process runs, a socket is in that room only when it is
    the sender or is listed in the session named by the sender's id. *)
Theorem draw_stroke_receivers (st : server) (sid d : string) (r : room)
    (stroke : jsobj) (now : Z) :
  rooms st !! d = Some r →
  let rcv := room_sockets (sockets st) d ∖ room_sockets (sockets st) sid in
  draw_stroke sid d stroke now st =
    (set_rooms (insert d (Room (users r) (strokes r ++ [log_entry sid now stroke]))) st,
     [Emission (ToRoomExcept d sid) (stroke_drawn (stamp_author sid stroke)) rcv]) ∧
  oplog (draw_stroke sid d stroke now st).1 d = strokes r ++ [log_entry sid now stroke] ∧
  length (oplog (draw_stroke sid d stroke now st).1 d) = S (length (strokes r)) ∧
  (∀ x, x ∈ rcv ↔ ∃ l, sockets st !! x = Some l ∧ d ∈ l ∧ sid ∉ l) ∧
  (reachable st → sid ∉ rcv) ∧
  (reachable st → ∀ u l, u ∈ users r → sockets st !! id u = Some l → sid ∉ l →
     id u ∈ rcv) ∧
  (reachable st → crashed st = false → ∀ Y l,
     sockets st !! Y = Some l → sid ∈ l → Y = sid ∨ listed st Y sid).
Proof.
  intros Hr rcv. unfold draw_stroke. rewrite (room_slot_own _ _ _ Hr). cbn [fst].
  split; [done|]. rewrite oplog_set_log.
  split; [done|]. split; [rewrite length_app; cbn; lia|].
  split; [intros x; apply elem_of_to_room|]. split; [|split].
  - intros Hreach. apply sender_excluded. by apply reachable_own_room.
  - intros Hreach u l Hu Hl Hn. apply elem_of_to_room. exists l.
    split; [done|]. split; [|done].
    apply (inv_joined _ (reachable_inv st Hreach) (id u) d l); [|done]. by exists r, u.
  - intros Hreach Hrun Y l Hl Hin. destruct (decide (Y = sid)) as [->|Hne]; [by left|].
    right. apply (reachable_joined_listed st Hreach Hrun Y sid l); [done|done|congruence].
Qed.

(** X25 — When [rooms[drawingId]] is not a built-in object, [cursor-move]
    leaves the whole state unchanged.  It sends a message exactly when the
    session exists and its [users] array has an entry of the sender: then
    one [cursor-moved] message, with the name and color of the first such
    entry, goes with [socket.to(drawingId)] to the sockets of the room
    that are not in the room named by the sender's id, so on a reachable
    state not to the sender; when the session is absent or the sender is
    not listed, nothing is sent. *)
Theorem cursor_move_frame (st : server) (sid d : string) (x y : jsval) :
  room_slot st d ≠ Builtin →
  (cursor_move sid d x y st).1 = st ∧
  (¬ listed st sid d → (cursor_move sid d x y st).2 = []) ∧
  (listed st sid d →
   ∃ r i u,
     rooms st !! d = Some r ∧
     list_find (λ v, id v = sid) (users r) = Some (i, u) ∧
     (cursor_move sid d x y st).2 =
       [Emission (ToRoomExcept d sid) (cursor_moved sid (username u) (color u) x y)
                 (room_sockets (sockets st) d ∖ room_sockets (sockets st) sid)]) ∧
  (reachable st →
   sid ∉ room_sockets (sockets st) d ∖ room_sockets (sockets st) sid) ∧
  (∀ r, rooms st !! d = Some r → Forall (λ v, id v ≠ sid) (users r) →
     cursor_move sid d x y st = (st, [])).
Proof.
  intros Hb. unfold cursor_move. split; [|split; [|split; [|split]]].
  - destruct (room_slot st d) as [r| |]; [|done|done].
    by destruct (list_find _ _) as [[i u]|].
  - intros Hn. destruct (room_slot st d) as [r| |] eqn:Hslot; [|done|done].
    apply room_slot_Session in Hslot.
    destruct (list_find _ _) as [[i u]|] eqn:Hf; [|done].
    apply list_find_Some in Hf as (Hi & Hu & _).
    destruct Hn. exists r, u. split; [done|]. split; [|done].
    by eapply list_elem_of_lookup_2.
  - intros (r & u & Hr & Hu & Hid). rewrite (room_slot_own _ _ _ Hr).
    destruct (list_find (λ v, id v = sid) (users r)) as [[i v]|] eqn:Hf.
    + exists r, i, v. by split.
    + apply list_find_None in Hf. by eapply Forall_forall in Hf.
  - intros Hreach. apply sender_excluded. by apply reachable_own_room.
  - intros r Hr Hall. rewrite (room_slot_own _ _ _ Hr).
    assert (list_find (λ v, id v = sid) (users r) = None) as ->
      by by apply list_find_None.
    done.
Qed.

(** ** The room named by the empty string *)



(** ** Joining a name of the prototype *)

(** X27 — A join to a session id that the table does not hold but
    [Object.prototype] does throws after the implicit leave and after the
    socket has joined the Socket.IO room of that name: no session is
    created, nobody is added, only the messages of the implicit leave were
    sent, and the process ends. *)
Theorem join_inherited_name (st : server) (X d : string) (uname : option string) :
  rooms st !! d = None → inherited d = true →
  crashed (leave_previous X st).1 = false →
  let st1 := (leave_previous X st).1 in
  join_drawing X d uname st = (crash (socket_join d X st1), (leave_previous X st).2) ∧
  crashed (join_drawing X d uname st).1 = true ∧
  rooms (join_drawing X d uname st).1 = rooms st1 ∧
  members (join_drawing X d uname st).1 d = [] ∧
  (∀ l, sockets st1 !! X = Some l →
     sockets (join_drawing X d uname st).1 !! X =
       Some (if decide (d ∈ l) then l else l ++ [d])).
Proof.
  intros Hd Hin Hc st1.
  assert (room_slot st1 d = Builtin) as Hslot
    by (apply inherited_slot; [by apply leave_previous_absent|done]).
  destruct (join_drawing_cases X d uname st)
    as [[Hc' _]|[(_ & _ & Hj)|(_ & Hb & _)]]; [congruence| |done].
  split; [done|]. rewrite Hj. cbn [fst].
  split; [done|]. split; [done|]. split.
  - unfold members. cbn. fold st1. by rewrite (room_slot_no_session st1 d) by auto.
  - intros l Hl. cbn. fold st1. by rewrite lookup_alter_eq, Hl.
Qed.

(** ** The drawings catalog *)

Lemma append_cons (c : ascii) (s t : string) : String c s +:+ t = String c (s +:+ t).
Proof. reflexivity. Qed.

Lemma append_nil_l (t : string) : "" +:+ t = t.
Proof. reflexivity. Qed.

Lemma append_nil_r (s : string) : s +:+ "" = s.
Proof. induction s as [|c s IH]; [done|]. by rewrite append_cons, IH. Qed.

Lemma prefix_append (p s : string) : String.prefix p (p +:+ s) = true.
Proof.
  induction p as [|c p IH]; [by destruct s|].
  rewrite append_cons. cbn. by destruct (Ascii.ascii_dec c c).
Qed.

Lemma string_drop_append (p s : string) :
  Catalog.string_drop (String.length p) (p +:+ s) = s.
Proof.
  induction p as [|c p IH]; [by destruct s|].
  rewrite append_cons. cbn. apply IH.
Qed.

Lemma endsWith_spec (s suffix : string) :
  Catalog.endsWith s suffix = true ↔ ∃ p, s = p +:+ suffix.
Proof.
  induction s as [|c s IH]; cbn [Catalog.endsWith].
  - rewrite orb_false_r, String.eqb_eq. split.
    + intros <-. by exists "".
    + intros ([|c p] & Hp); [done|discriminate].
  - rewrite orb_true_iff, String.eqb_eq, IH. split.
    + intros [<-|(p & ->)]; [by exists ""|by exists (String c p)].
    + intros ([|c' p] & Hp); [by left|].
      right. exists p. rewrite append_cons in Hp. by injection Hp.
Qed.

Lemma replace_first (p q pattern replacement : string) :
  Catalog.absent_before (String.length p) pattern (p +:+ pattern +:+ q) →
  Catalog.replace (p +:+ pattern +:+ q) pattern replacement = p +:+ replacement +:+ q.
Proof.
  induction p as [|c p IH]; intros Habs.
  - rewrite !append_nil_l.
    assert (∀ s, Catalog.replace s pattern replacement =
                 if String.prefix pattern s
                 then replacement +:+ Catalog.string_drop (String.length pattern) s
                 else match s with
                      | EmptyString => EmptyString
                      | String c s' => String c (Catalog.replace s' pattern replacement)
                      end) as Hunfold by (by intros []).
    by rewrite Hunfold, prefix_append, string_drop_append.
  - destruct Habs as [Hpre Habs]. rewrite !append_cons in *.
    cbn [Catalog.replace]. rewrite Hpre. f_equal. by apply IH.
Qed.

Lemma replace_absent (s pattern replacement : string) :
  Catalog.absent_before (S (String.length s)) pattern s →
  Catalog.replace s pattern replacement = s.
Proof.
  induction s as [|c s IH]; intros [Hpre Habs].
  - cbn [Catalog.replace]. by rewrite Hpre.
  - cbn [Catalog.replace]. rewrite Hpre. f_equal. by apply IH.
Qed.

Lemma spaced_length (s : string) :
  String.length (Catalog.spaced s) = String.length s.
Proof. induction s as [|c s IH]; [done|]. cbn. by rewrite IH. Qed.

Lemma spaced_get (s : string) (i : nat) :
  String.get i (Catalog.spaced s) ≠ Some "-"%char.
Proof.
  revert i. induction s as [|c s IH]; intros i; [done|].
  destruct i as [|i]; cbn; [|apply IH].
  destruct (Ascii.eqb c "-") eqn:Hc; [done|].
  intros [= ->]. by rewrite Ascii.eqb_refl in Hc.
Qed.

Lemma spaced_id (s : string) :
  (∀ i, String.get i s ≠ Some "-"%char) → Catalog.spaced s = s.
Proof.
  induction s as [|c s IH]; intros Hs; [done|]. cbn.
  rewrite IH by (intros i; apply (Hs (S i))).
  destruct (Ascii.eqb c "-") eqn:Hc; [|done].
  apply Ascii.eqb_eq in Hc. subst. by destruct (Hs 0).
Qed.

(** X18 — [GET /drawings] answers the empty list when the directory does
    not exist and status 500 when reading it throws.  Otherwise the
    entries are those of the files whose name ends in [.svg], in the order
    of the directory listing: [/drawings/f] is the url of an entry exactly
    when [f] is such a file; every name has the length of its id and
    holds no hyphen. *)
Theorem drawings_listing (dir : Catalog.directory) :
  match dir with
  | Catalog.Missing => Catalog.drawings dir = Catalog.Ok []
  | Catalog.Unreadable =>
    Catalog.drawings dir = Catalog.Status500 "Failed to load drawings"
  | Catalog.Files files =>
    ∃ ds, Catalog.drawings dir = Catalog.Ok ds ∧
      (∀ f, "/drawings/" +:+ f ∈ Catalog.url <$> ds ↔
            f ∈ files ∧ ∃ p, f = p +:+ ".svg") ∧
      Catalog.url <$> ds `sublist_of` (λ f, "/drawings/" +:+ f) <$> files ∧
      Forall (λ e, String.length (Catalog.name e) = String.length (Catalog.id e) ∧
                   ∀ i, String.get i (Catalog.name e) ≠ Some "-"%char) ds
  end.
Proof.
  destruct dir as [| |files]; [done|done|].
  eexists. split; [done|].
  assert (Catalog.url <$> (Catalog.entry <$>
            filter (λ f, Catalog.endsWith f ".svg" = true) files)
          = (λ f, "/drawings/" +:+ f)
              <$> filter (λ f, Catalog.endsWith f ".svg" = true) files) as Hurl
    by by rewrite <-list_fmap_compose.
  rewrite Hurl. split; [|split].
  - intros f. rewrite list_elem_of_fmap. split.
    + intros (g & Hg%String.app_inj & Hin). subst g.
      apply list_elem_of_filter in Hin as [Hsvg Hin].
      split; [done|]. by apply endsWith_spec.
    + intros [Hin Hsvg]. exists f. split; [done|].
      apply list_elem_of_filter. split; [|done]. by apply endsWith_spec.
  - apply fmap_sublist, sublist_filter.
  - apply Forall_fmap, Forall_forall. intros f _. cbn.
    split; [apply spaced_length|apply spaced_get].
Qed.

(** X19 — The id of an entry is the file name without the first
    occurrence of [.svg], and the name is the id with every hyphen turned
    into a space.  When [.svg] occurs only at the end of the file name,
    the id followed by [.svg] is the file name again. *)
Theorem drawing_id_first_occurrence (p q : string) :
  Catalog.absent_before (String.length p) ".svg" (p +:+ ".svg" +:+ q) →
  Catalog.id (Catalog.entry (p +:+ ".svg" +:+ q)) = p +:+ q ∧
  Catalog.name (Catalog.entry (p +:+ ".svg" +:+ q)) = Catalog.spaced (p +:+ q) ∧
  (q = "" →
   Catalog.endsWith (p +:+ ".svg") ".svg" = true ∧
   Catalog.entry (p +:+ ".svg") =
     Catalog.Drawing p (Catalog.spaced p) ("/drawings/" +:+ p +:+ ".svg") ∧
   Catalog.id (Catalog.entry (p +:+ ".svg")) +:+ ".svg" = p +:+ ".svg").
Proof.
  intros Habs.
  assert (Catalog.replace (p +:+ ".svg" +:+ q) ".svg" "" = p +:+ q) as Hid
    by by rewrite (replace_first p q ".svg" "").
  unfold Catalog.entry. cbn [Catalog.id Catalog.name]. rewrite Hid.
  split; [done|]. split; [done|]. intros ->.
  rewrite !append_nil_r in Hid. rewrite Hid.
  split; [apply endsWith_spec; by exists p|done].
Qed.

(** ** The local history of the client *)

Section history.
Context {I : Type}.
Implicit Types st : App.state I.

Lemma at_index_lookup (l : list I) (i : Z) :
  (0 ≤ i < Z.of_nat (length l))%Z → is_Some (App.at_index l i).
Proof.
  intros Hi. unfold App.at_index. rewrite decide_True by lia.
  apply lookup_lt_is_Some. lia.
Qed.

Lemma saveToHistory_spec st img :
  App.canvas st = Some img →
  (-1 ≤ App.historyStep st < Z.of_nat (length (App.history st)))%Z →
  App.saveToHistory st =
    App.State I (take (Z.to_nat (App.historyStep st + 1)) (App.history st) ++ [img])
              (App.historyStep st + 1) (App.isDrawing st) (Some img).
Proof.
  intros Hc Hs. unfold App.saveToHistory, App.slice0. rewrite Hc.
  rewrite decide_False by lia. f_equal.
  rewrite length_app, length_take. cbn. lia.
Qed.

Lemma saveToHistory_ok st :
  is_Some (App.canvas st) →
  (-1 ≤ App.historyStep st < Z.of_nat (length (App.history st)))%Z →
  App.history_ok (App.saveToHistory st).
Proof.
  intros [img Hc] Hs. rewrite (saveToHistory_spec st img) by done.
  split; [by eexists|]. cbn.
  rewrite length_app, length_take. cbn. lia.
Qed.

Lemma mounted_ok (white : I) : App.history_ok (App.mounted white).
Proof. unfold App.mounted. apply saveToHistory_ok; cbn; [by eexists|lia]. Qed.

Lemma undo_ok st :
  App.history_ok st → ∃ st', App.undo st = App.Done st' ∧ App.history_ok st'.
Proof.
  intros (Hc & Hs). unfold App.undo.
  case_decide as Hpos; [|by exists st].
  destruct Hc as [c Hc]. rewrite Hc.
  destruct (at_index_lookup (App.history st) (App.historyStep st - 1)) as [img Himg];
    [lia|].
  rewrite Himg. eexists. split; [done|].
  split; [by eexists|]. cbn. lia.
Qed.

Lemma redo_ok st :
  App.history_ok st → ∃ st', App.redo st = App.Done st' ∧ App.history_ok st'.
Proof.
  intros (Hc & Hs). unfold App.redo.
  case_decide as Hpos; [|by exists st].
  destruct Hc as [c Hc]. rewrite Hc.
  destruct (at_index_lookup (App.history st) (App.historyStep st + 1)) as [img Himg];
    [lia|].
  rewrite Himg. eexists. split; [done|].
  split; [by eexists|]. cbn. lia.
Qed.

Lemma drawLine_ok (paint : I → I) st :
  App.history_ok st → App.history_ok (App.drawLine paint st).
Proof.
  intros ([c Hc] & Hs). split; [|done]. cbn. rewrite Hc. by eexists.
Qed.

Lemma step_ok (a : App.action I) st :
  App.history_ok st → ∃ st', App.step a st = App.Done st' ∧ App.history_ok st'.
Proof.
  intros Hok. destruct a as [|paint| | | |paint]; cbn.
  - eexists. split; [done|]. destruct Hok as ([c Hc] & Hs).
    unfold App.startDrawing. rewrite Hc. split; [by eexists|done].
  - eexists. split; [done|]. unfold App.draw.
    destruct (App.isDrawing st); [by apply drawLine_ok|done].
  - eexists. split; [done|]. unfold App.stopDrawing.
    destruct (App.isDrawing st) eqn:Hd; [|done].
    destruct Hok as (Hc & Hs). apply saveToHistory_ok; cbn; [done|lia].
  - by apply undo_ok.
  - by apply redo_ok.
  - eexists. split; [done|]. by apply drawLine_ok.
Qed.

Lemma visited_ok (white : I) st : App.visited white st → App.history_ok st.
Proof.
  induction 1 as [|st a st' _ IH Hstep]; [apply mounted_ok|].
  destruct (step_ok a st IH) as (st'' & Hst'' & Hok). congruence.
Qed.

(** X20 — In every state that the component visits after the mount there
    is a canvas and the step points inside the history; so every handler
    (start, draw, stop, undo, redo, remote draw) returns, and
    [putImageData] never receives [undefined]. *)
Theorem history_never_throws (white : I) st (a : App.action I) :
  App.visited white st →
  is_Some (App.canvas st) ∧
  (0 ≤ App.historyStep st < Z.of_nat (length (App.history st)))%Z ∧
  ∃ st', App.step a st = App.Done st' ∧ App.visited white st'.
Proof.
  intros Hv. pose proof (visited_ok white st Hv) as Hok.
  destruct Hok as (Hc & Hs). split; [done|]. split; [done|].
  destruct (step_ok a st) as (st' & Hst' & _); [by split|].
  exists st'. split; [done|]. by eapply App.visited_step.
Qed.

(** X21 — In a visited state with an earlier snapshot, undo moves the
    step back by one and a following redo comes back to the same step and
    history, showing the snapshot of that step; the same holds for redo
    followed by undo when a later snapshot exists.  If the canvas showed
    the snapshot of the step, the round trip gives back the state itself.
    Undo at the first snapshot and redo at the last one do nothing. *)
Theorem undo_redo_round_trip (white : I) st :
  App.visited white st →
  let shown := App.State I (App.history st) (App.historyStep st) (App.isDrawing st)
                 (App.at_index (App.history st) (App.historyStep st)) in
  (App.canvas st = App.at_index (App.history st) (App.historyStep st) → shown = st) ∧
  ((0 < App.historyStep st)%Z →
   ∃ st1, App.undo st = App.Done st1 ∧
          App.historyStep st1 = (App.historyStep st - 1)%Z ∧
          App.history st1 = App.history st ∧
          App.redo st1 = App.Done shown) ∧
  ((App.historyStep st < Z.of_nat (length (App.history st)) - 1)%Z →
   ∃ st1, App.redo st = App.Done st1 ∧
          App.historyStep st1 = (App.historyStep st + 1)%Z ∧
          App.history st1 = App.history st ∧
          App.undo st1 = App.Done shown) ∧
  ((App.historyStep st ≤ 0)%Z → App.undo st = App.Done st) ∧
  ((Z.of_nat (length (App.history st)) - 1 ≤ App.historyStep st)%Z →
   App.redo st = App.Done st).
Proof.
  intros Hv shown. destruct (visited_ok white st Hv) as ([c Hc] & Hs).
  destruct (at_index_lookup (App.history st) (App.historyStep st)) as [now Hnow];
    [lia|].
  split; [|split; [|split; [|split]]].
  - intros Heq. unfold shown. rewrite <-Heq. by destruct st.
  - intros Hpos. unfold App.undo at 1. rewrite decide_True by lia. rewrite Hc.
    destruct (at_index_lookup (App.history st) (App.historyStep st - 1)) as [img Himg];
      [lia|].
    rewrite Himg. eexists. split; [done|]. split; [done|]. split; [done|].
    unfold App.redo. cbn. rewrite decide_True by lia.
    replace (App.historyStep st - 1 + 1)%Z with (App.historyStep st) by lia.
    unfold shown. by rewrite Hnow.
  - intros Hlt. unfold App.redo at 1. rewrite decide_True by lia. rewrite Hc.
    destruct (at_index_lookup (App.history st) (App.historyStep st + 1)) as [img Himg];
      [lia|].
    rewrite Himg. eexists. split; [done|]. split; [done|]. split; [done|].
    unfold App.undo. cbn. rewrite decide_True by lia.
    replace (App.historyStep st + 1 - 1)%Z with (App.historyStep st) by lia.
    unfold shown. by rewrite Hnow.
  - intros Hle. unfold App.undo. by rewrite decide_False by lia.
  - intros Hge. unfold App.redo. by rewrite decide_False by lia.
Qed.

(** X22 — Ending a stroke saves the canvas after the snapshot of the
    current step and drops every later snapshot: the history has two more
    entries than the old step, the step is the last entry, redo does
    nothing, and undo shows the snapshot from before the stroke. *)
Theorem stroke_discards_redo (white : I) st (img : I) :
  App.visited white st →
  App.isDrawing st = true →
  App.canvas st = Some img →
  let st' := App.stopDrawing st in
  App.history st' =
    take (Z.to_nat (App.historyStep st + 1)) (App.history st) ++ [img] ∧
  Z.of_nat (length (App.history st')) = (App.historyStep st + 2)%Z ∧
  App.historyStep st' = (App.historyStep st + 1)%Z ∧
  App.redo st' = App.Done st' ∧
  ∃ before, App.at_index (App.history st) (App.historyStep st) = Some before ∧
            App.undo st' =
              App.Done (App.State I (App.history st') (App.historyStep st) false
                                  (Some before)).
Proof.
  intros Hv Hd Hc st'. destruct (visited_ok white st Hv) as (_ & Hs).
  assert (st' = App.State I
            (take (Z.to_nat (App.historyStep st + 1)) (App.history st) ++ [img])
            (App.historyStep st + 1) false (Some img)) as Hst'.
  { unfold st', App.stopDrawing. rewrite Hd.
    rewrite (saveToHistory_spec _ img); cbn; [done|done|lia]. }
  assert (Z.of_nat (length (App.history st')) = (App.historyStep st + 2)%Z) as Hlen.
  { rewrite Hst'. cbn. rewrite length_app, length_take. cbn. lia. }
  split; [by rewrite Hst'|]. split; [done|]. split; [by rewrite Hst'|].
  split.
  - unfold App.redo. rewrite decide_False; [done|]. rewrite Hlen, Hst'. cbn. lia.
  - destruct (at_index_lookup (App.history st) (App.historyStep st)) as [b Hb];
      [lia|].
    exists b. split; [done|]. unfold App.undo.
    rewrite decide_True by (rewrite Hst'; cbn; lia).
    assert (App.at_index (App.history st') (App.historyStep st' - 1) = Some b) as ->.
    { rewrite Hst'. cbn.
      replace (App.historyStep st + 1 - 1)%Z with (App.historyStep st) by lia.
      unfold App.at_index in Hb |- *.
      rewrite decide_True in Hb by lia. rewrite decide_True by lia.
      rewrite lookup_app_l by (rewrite length_take; lia).
      rewrite lookup_take_lt by lia. done. }
    rewrite Hst'. cbn. do 2 f_equal. lia.
Qed.

End history.

(** ** The theorems on concrete runs *)

(** The undo theorem on [duo_state]: the scenario [A1, B1, A2], a caller
    with no stroke, and the author among the receivers. *)
Lemma undo_stroke_removes_last_own_witness :
  let A1 := log_entry "A" 5 {[ "k" := JNum 1 ]} in
  let B1 := log_entry "B" 6 ∅ in
  let st1 := (undo_stroke "A" "S" duo_state).1 in
  let st2 := (undo_stroke "A" "S" st1).1 in
  oplog st1 "S" = [A1; B1] ∧
  oplog st2 "S" = [B1] ∧
  undo_stroke "A" "S" st2 = (st2, []) ∧
  undo_stroke "C" "S" duo_state = (duo_state, []) ∧
  "A" ∈ room_sockets (sockets duo_state) "S".
Proof.
  intros A1 B1 st1 st2.
  destruct (undo_stroke_removes_last_own duo_state "A" "S" duo_room duo_state_room)
    as (Hfound & _ & Hscenario).
  destruct (undo_stroke_removes_last_own duo_state "C" "S" duo_room duo_state_room)
    as (_ & Hnone & _).
  destruct (Hscenario "B" {[ "k" := JNum 1 ]} ∅ {[ "userId" := JStr "B" ]} 5%Z 6%Z 7%Z)
    as [Hrun _]; [done|].
  destruct (Hrun eq_refl) as (H1 & H2 & H3).
  split; [exact H1|]. split; [exact H2|]. split; [exact H3|].
  split.
  - apply Hnone. repeat (apply Forall_cons; split; [by vm_compute|]).
    by apply Forall_nil.
  - destruct Hfound as (l1 & s & l2 & _ & _ & _ & _ & _ & Hrcv).
    { apply Exists_cons_hd. by vm_compute. }
    apply (Hrcv duo_state_reachable (User "A" "UserA" "#FF6B6B")).
    + by left.
    + vm_compute. by eauto.
Defined.

(** The handlers on the name [constructor], which the table of
    [lone_state] does not hold. *)
Lemma absent_session_inherited_name_witness :
  rooms lone_state !! "constructor" = None ∧
  draw_stroke "A" "constructor" ∅ 9 lone_state = (crash lone_state, []) ∧
  undo_stroke "A" "constructor" lone_state = (crash lone_state, []) ∧
  cursor_move "A" "constructor" (JNum 3) (JNum 4) lone_state = (crash lone_state, []) ∧
  (clear_canvas "A" "constructor" lone_state).2 =
    [Emission (ToRoom "constructor") canvas_cleared
       (room_sockets (sockets lone_state) "constructor")].
Proof.
  assert (rooms lone_state !! "constructor" = None) as HT by (vm_compute; reflexivity).
  destruct (absent_session_inherited_name lone_state "A" "constructor" HT)
    as (H1 & H2 & H3 & _ & H4); [vm_compute; reflexivity|vm_compute; reflexivity|].
  split; [exact HT|]. split; [apply H1|]. split; [exact H2|].
  split; [apply H3|]. by rewrite H4.
Defined.

(** [B] clears a log that holds strokes of [A] and [B]; both receive the
    message. *)
Lemma clear_canvas_universal_witness :
  oplog duo_state "S" = strokes duo_room ∧
  oplog (clear_canvas "B" "S" duo_state).1 "S" = [] ∧
  "A" ∈ room_sockets (sockets duo_state) "S" ∧
  "B" ∈ room_sockets (sockets duo_state) "S".
Proof.
  destruct (clear_canvas_universal duo_state "B" "S" duo_room duo_state_room)
    as (_ & Hlog & _ & _ & Hrcv).
  split; [vm_compute; reflexivity|]. split; [exact Hlog|].
  split.
  - apply (Hrcv duo_state_reachable (User "A" "UserA" "#FF6B6B")).
    + by left.
    + vm_compute. by eauto.
  - apply (Hrcv duo_state_reachable (User "B" "bob" "#4ECDC4")).
    + right. by left.
    + vm_compute. by eauto.
Defined.

(** [A] sends a payload whose [userId] is [B]; the logged author is [A]. *)
Lemma logged_author_is_sender_witness :
  ∃ e,
    oplog (draw_stroke "A" "S" {[ "userId" := JStr "B" ]} 8 duo_state).1 "S"
      = strokes duo_room ++ [e] ∧
    e !! "userId" = Some (JStr "A") ∧
    is_by "B" e = false.
Proof.
  destruct (logged_author_is_sender duo_state "A" "S" duo_room
              {[ "userId" := JStr "B" ]} 8 duo_state_room)
    as (e & Hlog & _ & Hid & _ & _ & Hby).
  exists e. split; [exact Hlog|]. split; [exact Hid|].
  destruct (is_by "B" e) eqn:HB; [|reflexivity].
  apply Hby in HB. discriminate.
Defined.

(** A cursor event on the name [toString], and one of ["X"] in the
    session ["X"]. *)
Lemma cursor_move_misses_witness :
  cursor_move "A" "toString" (JNum 3) (JNum 4) lone_state = (crash lone_state, []) ∧
  (cursor_move "X" "X" (JNum 3) (JNum 4) named_by_id_state).2 =
    [Emission (ToRoomExcept "X" "X")
       (cursor_moved "X" "UserX" "#4ECDC4" (JNum 3) (JNum 4)) ∅].
Proof.
  destruct cursor_move_misses as (Hthrow & _ & _ & _ & Hnobody).
  destruct (Hthrow lone_state "A" "toString" (JNum 3) (JNum 4)) as [H1 _];
    [vm_compute; reflexivity|vm_compute; reflexivity|].
  split; [exact H1|]. by rewrite Hnobody.
Defined.


(** A third connection [C] joins the absent session [T] and the existing
    session [S] of two members. *)
Lemma join_creates_or_joins_witness :
  length (members (join_drawing "C" "T" None (connect "C" duo_state)).1 "T") = 1 ∧
  length (members (join_drawing "C" "S" None (connect "C" duo_state)).1 "S") = 3 ∧
  oplog (join_drawing "C" "S" None (connect "C" duo_state)).1 "S" = strokes duo_room ∧
  crashed (join_drawing "A" "T" None duo_state).1 = false.
Proof.
  destruct (join_creates_or_joins (connect "C" duo_state) "C" "T" None)
    as (_ & Hnew & _).
  destruct (join_creates_or_joins (connect "C" duo_state) "C" "S" None)
    as (_ & _ & Hold).
  destruct (join_creates_or_joins duo_state "A" "T" None) as (Hret & _ & _).
  destruct Hnew as (_ & _ & Hone & _); [vm_compute; reflexivity..|].
  destruct (Hold duo_room) as (Hlen & _ & Hlog);
    [vm_compute; reflexivity|vm_compute; reflexivity|by vm_compute|].
  split; [exact Hone|]. split; [exact Hlen|]. split; [exact Hlog|].
  apply Hret.
  - apply duo_state_reachable.
  - split; [vm_compute; reflexivity|vm_compute; by eauto].
  - by vm_compute.
  - by vm_compute.
Defined.

(** [A] joins [S] again while [B] is a member of it. *)
Lemma rejoin_keeps_member_count_witness :
  left_room "A" duo_state = Some "S" ∧
  crashed (join_drawing "A" "S" None duo_state).1 = false ∧
  length (members (join_drawing "A" "S" None duo_state).1 "S") = 2 ∧
  oplog (join_drawing "A" "S" None duo_state).1 "S" = strokes duo_room.
Proof.
  assert (left_room "A" duo_state = Some "S") as Hp by (vm_compute; reflexivity).
  destruct (rejoin_keeps_member_count duo_state "A" "S" None duo_room Hp duo_state_room)
    as (Hret & Hkeep).
  { exists (User "A" "UserA" "#FF6B6B"). split; [by left|reflexivity]. }
  assert (crashed (join_drawing "A" "S" None duo_state).1 = false) as Hc.
  { apply Hret; [apply duo_state_reachable|vm_compute; reflexivity|].
    left. cbn. lia. }
  destruct (Hkeep Hc) as (Hlen & Hlog & _ & _).
  split; [exact Hp|]. split; [exact Hc|]. split; [exact Hlen|]. apply Hlog. cbn. lia.
Defined.

Lemma nine_connected_fresh (j : string * option string) (p : string) :
  j ∈ nine → left_room j.1 nine_connected = Some p → p ≠ "S" ∧ plain p.
Proof.
  intros Hj.
  assert (Forall (λ j, left_room j.1 nine_connected = None) nine) as Hall.
  { repeat (apply Forall_cons; split; [by vm_compute|]). by apply Forall_nil. }
  rewrite (proj1 (Forall_forall _ _) Hall j Hj). done.
Qed.

(** Nine connections join [S]: the ninth wraps around to the first
    color. *)
Lemma color_by_occupancy_witness :
  length (members (join_all "S" nine nine_connected) "S") = 9 ∧
  colors !! (8 mod 8) = Some (color (User "c8" "ninth" "#FF6B6B")) ∧
  colors !! (3 mod 8) = Some (color (User "c3" "Userc3" "#FFA07A")) ∧
  (∃ u, last (members (join_drawing "c0" "S" None nine_connected).1 "S") = Some u ∧
        id u = "c0").
Proof.
  destruct color_by_occupancy as (_ & _ & Hone & Hseq).
  destruct (Hseq nine_connected "S" nine) as (_ & Hlen & Hcol).
  - vm_compute. reflexivity.
  - vm_compute. reflexivity.
  - refine (bool_decide_unpack _ _). vm_compute. exact I.
  - apply nine_connected_fresh.
  - split; [exact Hlen|]. split; [|split].
    + apply (Hcol 8 (User "c8" "ninth" "#FF6B6B")). vm_compute. reflexivity.
    + apply (Hcol 3 (User "c3" "Userc3" "#FFA07A")). vm_compute. reflexivity.
    + destruct (Hone nine_connected "c0" "S" None) as (u & Hu & Hid & _);
        [vm_compute; reflexivity|].
      exists u. split; [exact Hu|exact Hid].
Defined.

Lemma log_events_frame_witness :
  sockets (undo_stroke "A" "S" duo_state).1 = sockets duo_state ∧
  members (undo_stroke "A" "S" duo_state).1 "S" = members duo_state "S".
Proof.
  destruct (log_events_frame duo_state "A" "S" ∅ 0%Z JNull JNull
              (undo_stroke "A" "S" duo_state).1) as (Hs & Hm & _).
  - right. by left.
  - split; [exact Hs|apply Hm].
Defined.

Lemma draw_then_undo_witness :
  (undo_stroke "B" "S" (draw_stroke "B" "S" ∅ 9 duo_state).1).1 = duo_state.
Proof.
  by rewrite (draw_then_undo duo_state "B" "S" duo_room ∅ 9%Z duo_state_room).
Defined.

Lemma undo_all_own_witness :
  oplog (undo_n 2 "A" "S" duo_state) "S" = [log_entry "B" 6 ∅].
Proof.
  destruct (undo_all_own duo_state "A" "S" duo_room 2 duo_state_room) as [Hlog _].
  - vm_compute. lia.
  - rewrite Hlog. vm_compute. reflexivity.
Defined.

Lemma clear_then_witness :
  undo_stroke "A" "S" (clear_canvas "B" "S" duo_state).1
    = ((clear_canvas "B" "S" duo_state).1, []).
Proof.
  destruct (clear_then duo_state "B" "A" "S" duo_room ∅ 0%Z duo_state_room)
    as (_ & Hundo & _).
  exact Hundo.
Defined.

Lemma draw_all_in_order_witness :
  oplog (draw_all "S" [("B", ∅, 8%Z); ("A", ∅, 9%Z)] duo_state) "S"
    = strokes duo_room ++ [log_entry "B" 8 ∅; log_entry "A" 9 ∅].
Proof.
  destruct (draw_all_in_order duo_state "S" duo_room
              [("B", ∅, 8%Z); ("A", ∅, 9%Z)] duo_state_room) as [Hlog _].
  exact Hlog.
Defined.

Lemma members_match_rooms_witness :
  "A" ∈ room_sockets (sockets duo_state) "S" ∧
  listed duo_state "B" "S" ∧
  entries "A" (members duo_state "S") = 1.
Proof.
  destruct (members_match_rooms duo_state "A" "S" duo_state_reachable)
    as (Hin & _ & Hone).
  destruct (members_match_rooms duo_state "B" "S" duo_state_reachable)
    as (_ & Hlisted & _).
  split; [|split].
  - apply Hin; [|apply duo_state_connected; by left].
    exists duo_room, (User "A" "UserA" "#FF6B6B").
    split; [exact duo_state_room|]. split; [by left|done].
  - apply Hlisted; [vm_compute; reflexivity|done|].
    apply elem_of_room_sockets. exists ["B"; "S"].
    split; [vm_compute; reflexivity|]. right. by left.
  - apply Hone; [vm_compute; reflexivity|done|done|vm_compute; reflexivity].
Defined.

Lemma join_single_membership_witness :
  sockets (join_drawing "A" "T" None duo_state).1 !! "A" = Some ["A"; "T"] ∧
  ¬ listed (join_drawing "A" "T" None duo_state).1 "A" "S".
Proof.
  destruct (join_single_membership duo_state "A" "T" None duo_state_reachable)
    as (Hs & Hl & _).
  - split; [vm_compute; reflexivity|]. apply duo_state_connected. by left.
  - done.
  - by vm_compute.
  - vm_compute. reflexivity.
  - split; [exact Hs|]. intros HS. by apply Hl in HS.
Defined.

Lemma join_snapshot_witness :
  ∃ e,
    (join_drawing "C" "S" None (connect "C" duo_state)).2 =
      [Emission (ToSocket "C")
         (room_state (users duo_room ++ [User "C" "UserC" "#45B7D1"]) (strokes duo_room))
         {[ "C" ]}; e].
Proof.
  destruct (join_snapshot (connect "C" duo_state) "C" "S" None) as (Hout & _).
  - by vm_compute.
  - vm_compute. reflexivity.
  - eexists. rewrite Hout.
    assert ((leave_previous "C" (connect "C" duo_state)).2 = []) as ->
      by (vm_compute; reflexivity).
    assert (members (connect "C" duo_state) "S" = users duo_room) as ->
      by (vm_compute; reflexivity).
    assert (oplog (connect "C" duo_state) "S" = strokes duo_room) as ->
      by (vm_compute; reflexivity).
    reflexivity.
Defined.


Lemma disconnect_effect_witness :
  sockets (disconnect "A" duo_state).1 !! "A" = None ∧
  ¬ listed (disconnect "A" duo_state).1 "A" "S" ∧
  listed (disconnect "A" duo_state).1 "B" "S" ∧
  entries "A" (members (disconnect "A" duo_state).1 "S") = 0.
Proof.
  destruct (disconnect_effect duo_state "A") as (Hs & Hother & _ & _ & Hcount & Hgone).
  split; [by rewrite Hs, lookup_delete_eq|]. split; [|split].
  - apply Hgone; [apply duo_state_reachable| |by vm_compute|done].
    apply duo_state_connected. by left.
  - apply Hother; [done|].
    exists duo_room, (User "B" "bob" "#4ECDC4").
    split; [exact duo_state_room|]. split; [|done]. right. by left.
  - rewrite Hcount. by vm_compute.
Defined.

Lemma disconnect_messages_witness :
  Forall (λ e, ∃ d u,
            u ∈ members duo_state d ∧ id u = "A" ∧
            em_target e = ToRoom d ∧
            em_message e = user_left "A" (username u) ∧
            ("A" ∉ em_to e) ∧
            (∀ Y, Y ≠ "A" → Y ∈ em_to e ↔ Y ∈ room_sockets (sockets duo_state) d))
         (disconnect "A" duo_state).2.
Proof. exact (disconnect_messages duo_state "A"). Defined.

(** The removal of [A] from [S] in [duo_state], and of the connection
    that is listed twice in the session named by its own id. *)
Lemma removeUserFromRoom_exact_witness :
  members (removeUserFromRoom "S" "A" duo_state).1 "S" = [User "B" "bob" "#4ECDC4"] ∧
  oplog (removeUserFromRoom "S" "A" duo_state).1 "S" = strokes duo_room ∧
  removeUserFromRoom "constructor" "A" duo_state = (crash duo_state, []).
Proof.
  destruct (removeUserFromRoom_exact duo_state "S" "A") as (_ & _ & Hfound & _).
  destruct (removeUserFromRoom_exact duo_state "constructor" "A") as (Hthrow & _).
  destruct Hfound as (l1 & u & l2 & Hm & Hid & Hl1 & Hm' & Hlog & _).
  { exists duo_room, (User "A" "UserA" "#FF6B6B").
    split; [exact duo_state_room|]. split; [by left|done]. }
  assert (l1 = [] ∧ l2 = [User "B" "bob" "#4ECDC4"]) as [-> ->].
  { assert (members duo_state "S" = [User "A" "UserA" "#FF6B6B"; User "B" "bob" "#4ECDC4"])
      as Hduo by (vm_compute; reflexivity).
    rewrite Hduo in Hm. destruct l1 as [|v l1].
    - injection Hm as _ <-. split; reflexivity.
    - injection Hm as <- _. apply Forall_cons in Hl1 as [Hne _]. done. }
  split; [exact Hm'|]. split.
  - destruct Hlog as [_ ->]; [done|]. vm_compute. reflexivity.
  - apply Hthrow. vm_compute. reflexivity.
Defined.

Lemma own_room_entry_survives_witness :
  rooms (run (own_room_events "Z" None (Some "zed")) initial) !! "Z" =
    Some (Room [User "Z" "zed" "#4ECDC4"] []).
Proof.
  destruct (own_room_entry_survives "Z" None (Some "zed")) as (_ & _ & Hr);
    [vm_compute; reflexivity|].
  exact Hr.
Defined.

Lemma first_eight_distinct_witness :
  NoDup (color <$> members (join_all "S" (take 8 nine) nine_connected) "S").
Proof.
  destruct (first_eight_distinct nine_connected "S" (take 8 nine)) as [_ Hnd].
  - vm_compute. reflexivity.
  - vm_compute. reflexivity.
  - refine (bool_decide_unpack _ _). vm_compute. exact I.
  - intros j p Hj. apply nine_connected_fresh.
    apply (subseteq_take 8 nine). exact Hj.
  - vm_compute. lia.
  - exact Hnd.
Defined.

Lemma members_named_and_colored_witness :
  username (User "B" "bob" "#4ECDC4") ≠ "" ∧ color (User "B" "bob" "#4ECDC4") ∈ colors.
Proof.
  apply (members_named_and_colored duo_state "S"); [apply duo_state_reachable|].
  unfold members. rewrite duo_state_room. right. by left.
Defined.

(** A join of [C] to [T] keeps the log of [S] and creates [T]; the
    repeated join of the only member of [S] empties its log. *)
Lemma join_keeps_logs_witness :
  (∃ r, rooms (connect "C" duo_state) !! "S" = Some r ∧ strokes duo_room = strokes r) ∧
  rooms (connect "C" duo_state) !! "T" = None ∧
  (left_room "A" solo_state = Some "S" ∧
   ∃ r u, rooms solo_state !! "S" = Some r ∧ users r = [u] ∧ id u = "A").
Proof.
  split; [|split].
  - destruct (join_keeps_logs (connect "C" duo_state) "C" "T" None "S"
                (Room (users duo_room) (strokes duo_room)))
      as [(r & Hr & Hlog)|[Heq _]].
    + vm_compute. reflexivity.
    + by exists r.
    + discriminate.
  - destruct (join_keeps_logs (connect "C" duo_state) "C" "T" None "T"
                (Room [User "C" "UserC" "#FF6B6B"] []))
      as [(r & Hr & _)|(_ & _ & _ & [Hnone|(Hleft & _)])].
    + vm_compute. reflexivity.
    + vm_compute in Hr. discriminate.
    + exact Hnone.
    + vm_compute in Hleft. discriminate.
  - destruct (join_keeps_logs solo_state "A" "S" None "S"
                (Room [User "A" "UserA" "#FF6B6B"] []))
      as [(r & Hr & Hlog)|(_ & _ & _ & [Hnone|Hsole])].
    + vm_compute. reflexivity.
    + assert (rooms solo_state !! "S" =
              Some (Room [User "A" "UserA" "#FF6B6B"] [log_entry "A" 0 ∅])) as Hs
        by (vm_compute; reflexivity).
      rewrite Hs in Hr. injection Hr as <-. discriminate.
    + vm_compute in Hnone. discriminate.
    + exact Hsole.
Defined.

Lemma health_counts_sessions_witness :
  health (clear_canvas "A" "S" duo_state).1 = health duo_state.
Proof.
  destruct (health_counts_sessions duo_state duo_state_reachable) as [_ Hsame].
  apply (Hsame "A" "S" ∅ 0%Z JNull JNull). do 2 right. by left.
Defined.

(** The handlers on the absent session [T] of [duo_state]. *)
Lemma undefined_session_noop_witness :
  draw_stroke "A" "T" ∅ 9 duo_state = (duo_state, []) ∧
  undo_stroke "A" "T" duo_state = (duo_state, []) ∧
  clear_canvas "A" "T" duo_state = (duo_state, []) ∧
  cursor_move "A" "T" (JNum 3) (JNum 4) duo_state = (duo_state, []).
Proof.
  destruct (undefined_session_noop duo_state "A" "T") as (H1 & H2 & H3 & H4);
    [vm_compute; reflexivity|vm_compute; reflexivity|discriminate|].
  split; [apply H1|]. split; [exact H2|]. split; [exact H3|apply H4].
Defined.

(** [A] draws in [duo_state]: [B] receives the stroke, [A] does not. *)
Lemma draw_stroke_receivers_witness :
  length (oplog (draw_stroke "A" "S" ∅ 8 duo_state).1 "S") = 4 ∧
  ("A" ∉ room_sockets (sockets duo_state) "S" ∖ room_sockets (sockets duo_state) "A") ∧
  "B" ∈ room_sockets (sockets duo_state) "S" ∖ room_sockets (sockets duo_state) "A".
Proof.
  destruct (draw_stroke_receivers duo_state "A" "S" duo_room ∅ 8 duo_state_room)
    as (_ & _ & Hlen & _ & Hself & Hrcv & _).
  split; [exact Hlen|]. split; [exact (Hself duo_state_reachable)|].
  apply (Hrcv duo_state_reachable (User "B" "bob" "#4ECDC4") ["B"; "S"]).
  - right. by left.
  - vm_compute. reflexivity.
  - intros Hin. repeat (apply elem_of_cons in Hin as [Hin|Hin]; [discriminate|]).
    by apply elem_of_nil in Hin.
Defined.

(** A cursor event of the member [A] and one of the unlisted [C]. *)
Lemma cursor_move_frame_witness :
  (cursor_move "A" "S" (JNum 3) (JNum 4) duo_state).1 = duo_state ∧
  (∃ r i u,
     rooms duo_state !! "S" = Some r ∧
     list_find (λ v, id v = "A") (users r) = Some (i, u) ∧
     (cursor_move "A" "S" (JNum 3) (JNum 4) duo_state).2 =
       [Emission (ToRoomExcept "S" "A")
                 (cursor_moved "A" (username u) (color u) (JNum 3) (JNum 4))
                 (room_sockets (sockets duo_state) "S" ∖
                  room_sockets (sockets duo_state) "A")]) ∧
  (cursor_move "C" "S" (JNum 3) (JNum 4) duo_state).2 = [].
Proof.
  assert (room_slot duo_state "S" ≠ Builtin) as Hb
    by (rewrite (room_slot_own _ _ _ duo_state_room); discriminate).
  destruct (cursor_move_frame duo_state "A" "S" (JNum 3) (JNum 4) Hb)
    as (Hst & _ & Hsend & _).
  destruct (cursor_move_frame duo_state "C" "S" (JNum 3) (JNum 4) Hb)
    as (_ & _ & _ & _ & Hnot).
  split; [exact Hst|]. split.
  - apply Hsend. exists duo_room, (User "A" "UserA" "#FF6B6B").
    split; [exact duo_state_room|]. split; [by left|reflexivity].
  - rewrite (Hnot duo_room duo_state_room); [reflexivity|].
    repeat (apply Forall_cons; split; [by vm_compute|]). by apply Forall_nil.
Defined.


(** [A] joins the name [toString]. *)
Lemma join_inherited_name_witness :
  crashed (join_drawing "A" "toString" None lone_state).1 = true ∧
  members (join_drawing "A" "toString" None lone_state).1 "toString" = [] ∧
  sockets (join_drawing "A" "toString" None lone_state).1 !! "A" = Some ["A"; "toString"].
Proof.
  destruct (join_inherited_name lone_state "A" "toString" None)
    as (_ & Hc & _ & Hm & Hs); [vm_compute; reflexivity..|].
  split; [exact Hc|]. split; [exact Hm|].
  rewrite (Hs ["A"]); vm_compute; reflexivity.
Defined.


Lemma drawings_listing_witness :
  ∃ ds,
    Catalog.drawings (Catalog.Files ["a-b.svg"; "notes.txt"; "c.svg"]) = Catalog.Ok ds ∧
    "/drawings/" +:+ "c.svg" ∈ Catalog.url <$> ds ∧
    ¬ "/drawings/" +:+ "notes.txt" ∈ Catalog.url <$> ds.
Proof.
  destruct (drawings_listing (Catalog.Files ["a-b.svg"; "notes.txt"; "c.svg"]))
    as (ds & Hds & Hiff & _).
  exists ds. split; [exact Hds|]. split.
  - apply Hiff. split; [do 2 right; by left|by exists "c"].
  - intros [_ [p Hp]]%Hiff.
    assert (Catalog.endsWith "notes.txt" ".svg" = true) as Hends
      by (apply endsWith_spec; by exists p).
    vm_compute in Hends. discriminate.
Defined.

Lemma drawing_id_first_occurrence_witness :
  Catalog.entry "my-cat.svg" = Catalog.Drawing "my-cat" "my cat" "/drawings/my-cat.svg" ∧
  Catalog.id (Catalog.entry "a.svg.svg") = "a.svg".
Proof.
  assert (Catalog.absent_before 6 ".svg" "my-cat.svg") as H1
    by (cbn; repeat split).
  assert (Catalog.absent_before 1 ".svg" "a.svg.svg") as H2
    by (cbn; repeat split).
  destruct (drawing_id_first_occurrence "my-cat" "" H1) as (_ & _ & Hround).
  destruct (Hround eq_refl) as (_ & Hentry & _).
  destruct (drawing_id_first_occurrence "a" ".svg" H2) as (Hid & _).
  split; [exact Hentry|exact Hid].
Defined.

Lemma one_stroke_visited : App.visited 0 one_stroke.
Proof.
  unfold one_stroke.
  eapply (App.visited_step 0 _ App.StopDrawing); [|reflexivity].
  eapply (App.visited_step 0 _ (App.Draw S)); [|reflexivity].
  eapply (App.visited_step 0 _ App.StartDrawing); [|reflexivity].
  apply App.visited_mounted.
Qed.

Lemma history_never_throws_witness :
  ∃ st', App.step App.Undo one_stroke = App.Done st' ∧ App.visited 0 st'.
Proof.
  destruct (history_never_throws 0 one_stroke App.Undo one_stroke_visited)
    as (_ & _ & Hstep).
  exact Hstep.
Defined.

Lemma undo_redo_round_trip_witness :
  ∃ st1, App.undo one_stroke = App.Done st1 ∧ App.redo st1 = App.Done one_stroke.
Proof.
  destruct (undo_redo_round_trip 0 one_stroke one_stroke_visited)
    as (Hshown & Hundo & _).
  destruct Hundo as (st1 & H1 & _ & _ & H2); [by vm_compute|].
  exists st1. split; [exact H1|]. rewrite H2, Hshown; reflexivity.
Defined.

Lemma second_stroke_visited : App.visited 0 second_stroke.
Proof.
  unfold second_stroke.
  eapply (App.visited_step 0 _ (App.Draw (Nat.add 5))); [|reflexivity].
  eapply (App.visited_step 0 _ App.StartDrawing); [|reflexivity].
  eapply (App.visited_step 0 one_stroke App.Undo); [apply one_stroke_visited|].
  reflexivity.
Qed.

Lemma stroke_discards_redo_witness :
  App.history one_stroke = [0; 1] ∧
  App.history (App.stopDrawing second_stroke) = [0; 5] ∧
  App.redo (App.stopDrawing second_stroke) = App.Done (App.stopDrawing second_stroke).
Proof.
  destruct (stroke_discards_redo 0 second_stroke 5 second_stroke_visited)
    as (Hhist & _ & _ & Hredo & _); [reflexivity|reflexivity|].
  split; [reflexivity|]. split; [rewrite Hhist; reflexivity|exact Hredo].
Defined.
